(** * Path resolution, sandbox boundary and bounded directory enumeration

    A shallow embedding of the path layer of the filesystem MCP server:

    - [Sanitization.sanitizePath]   (src/utils/security/sanitization.ts,
                                    whose text is kept in docs/tree.md)
    - [State.resolvePath]           (src/mcp-server/state.ts)
    - [ListFiles.readDirectoryRecursive], [ListFiles.listFilesLogic]
                                    (src/mcp-server/tools/listFiles/listFilesLogic.ts)
    - [BuildTree.shouldExclude], [BuildTree.buildTreeForTesting]
                                    (the exclude-pattern tree walker and its test file)

    The code runs on Node.js.  Its [path] module is modelled here in the
    POSIX flavour ([path.sep] is "/"), a JavaScript string is a [string] of
    8-bit characters, and a number that the code only counts with is a [Z]. *)

From Stdlib Require Import String Ascii List ZArith Lia Bool Arith.
From Stdlib Require Import Sorting.Sorted Sorting.Permutation.
From Stdlib Require Import Structures.OrderedTypeEx.
Import ListNotations.
Open Scope string_scope.

(** Induction principles for the trees below go through their lists. *)
Scheme All for list.
Scheme All for option.

(* ------------------------------------------------------------------ *)
(** ** JavaScript strings *)

Module JsString.

(** [s.startsWith(p)] *)
Definition startsWith (s p : string) : bool := String.prefix p s.

(** [s.includes(c)] for a one-character needle. *)
Fixpoint includesChar (c : ascii) (s : string) : bool :=
  match s with
  | EmptyString => false
  | String d rest => Ascii.eqb d c || includesChar c rest
  end.

(** The character that [s.replace(/\\/g, "/")] puts for [c]. *)
Definition backslashToSlash (c : ascii) : ascii :=
  if Ascii.eqb c "\" then "/"%char else c.

Fixpoint mapChars (f : ascii -> ascii) (s : string) : string :=
  match s with
  | EmptyString => EmptyString
  | String c rest => String (f c) (mapChars f rest)
  end.

(** [s.replace(/\\/g, "/")] *)
Definition replaceBackslashes (s : string) : string :=
  mapChars backslashToSlash s.

(** [s.charCodeAt(s.length - 1) === c] *)
Fixpoint endsWithChar (c : ascii) (s : string) : bool :=
  match s with
  | EmptyString => false
  | String d EmptyString => Ascii.eqb d c
  | String _ rest => endsWithChar c rest
  end.

(** JavaScript truthiness of a [string | null | undefined] value. *)
Definition truthy (o : option string) : option string :=
  match o with
  | Some s => if s =? EmptyString then None else Some s
  | None => None
  end.

(** The null character ["\0"]. *)
Definition NUL : ascii := Ascii.zero.

End JsString.

(* ------------------------------------------------------------------ *)
(** ** Node's [path] module, POSIX flavour

    Paths are handled segment by segment: [normalizeString] of Node walks
    the characters and keeps the segments between separators on a stack;
    the model keeps that stack as a list of segments. *)

Module Path.

Definition sep : string := "/".

Definition isPosixPathSeparator (c : ascii) : bool := Ascii.eqb c "/".

(** [s.split("/")]: the pieces between separators, empty ones included. *)
Fixpoint split (s : string) : list string :=
  match s with
  | EmptyString => [EmptyString]
  | String c rest =>
      if isPosixPathSeparator c then EmptyString :: split rest
      else match split rest with
           | seg :: segs => String c seg :: segs
           | [] => [String c EmptyString]
           end
  end.

(** [path.isAbsolute(p)] *)
Definition isAbsolute (p : string) : bool :=
  match p with
  | String c _ => isPosixPathSeparator c
  | EmptyString => false
  end.

(** One separator-delimited segment handled by [normalizeString].  The
    stack holds the segments kept so far, the last one first. *)
Definition pushSegment (allowAboveRoot : bool) (stack : list string)
           (seg : string) : list string :=
  if seg =? EmptyString then stack
  else if seg =? "." then stack
  else if seg =? ".." then
    match stack with
    | top :: below =>
        if top =? ".." then (if allowAboveRoot then ".." :: stack else stack)
        else below
    | [] => if allowAboveRoot then [".."] else []
    end
  else seg :: stack.

Definition normalizeSegments (allowAboveRoot : bool) (segs : list string)
  : list string :=
  rev (fold_left (pushSegment allowAboveRoot) segs []).

Definition normalizeString (p : string) (allowAboveRoot : bool) : string :=
  String.concat "/" (normalizeSegments allowAboveRoot (split p)).

(** [path.normalize(p)] *)
Definition normalize (p : string) : string :=
  if p =? EmptyString then "."
  else
    let isAbs := isAbsolute p in
    let trailingSeparator := JsString.endsWithChar "/" p in
    let q := normalizeString p (negb isAbs) in
    if q =? EmptyString then
      (if isAbs then "/" else if trailingSeparator then "./" else ".")
    else
      let q := if trailingSeparator then q ++ "/" else q in
      if isAbs then "/" ++ q else q.

(** [path.join(...args)] *)
Definition join (args : list string) : string :=
  match filter (fun a => negb (a =? EmptyString)) args with
  | [] => "."
  | parts => normalize (String.concat "/" parts)
  end.

(** The right-to-left scan of [path.resolve]: [args] is given last
    argument first and ends with the working directory. *)
Fixpoint resolveScan (args : list string) (resolvedPath : string)
  : string * bool :=
  match args with
  | [] => (resolvedPath, false)
  | p :: rest =>
      if p =? EmptyString then resolveScan rest resolvedPath
      else
        let resolvedPath := p ++ "/" ++ resolvedPath in
        if isAbsolute p then (resolvedPath, true)
        else resolveScan rest resolvedPath
  end.

(** [path.resolve(...args)] in a process whose working directory is [cwd]. *)
Definition resolve (cwd : string) (args : list string) : string :=
  let '(resolvedPath, resolvedAbsolute) := resolveScan (rev args ++ [cwd]) EmptyString in
  let q := normalizeString resolvedPath (negb resolvedAbsolute) in
  if resolvedAbsolute then "/" ++ q
  else if q =? EmptyString then "." else q.

(** The segments of a resolved path. *)
Definition segments (p : string) : list string :=
  filter (fun s => negb (s =? EmptyString)) (split p).

Fixpoint dropCommon (from to : list string) : list string * list string :=
  match from, to with
  | a :: from', b :: to' =>
      if a =? b then dropCommon from' to' else (from, to)
  | _, _ => (from, to)
  end.

(** [path.relative(from, to)] *)
Definition relative (cwd : string) (fromPath toPath : string) : string :=
  if fromPath =? toPath then EmptyString
  else
    let fromR := resolve cwd [fromPath] in
    let toR := resolve cwd [toPath] in
    if fromR =? toR then EmptyString
    else
      let '(up, down) := dropCommon (segments fromR) (segments toR) in
      String.concat "/" (map (fun _ => "..") up ++ down).

End Path.

(* ------------------------------------------------------------------ *)
(** ** Typed errors (src/types-global/errors.ts, used through its codes) *)

Inductive BaseErrorCode : Type :=
| VALIDATION_ERROR
| FORBIDDEN
| NOT_FOUND
| INTERNAL_ERROR.

Record McpError : Type := mkMcpError {
  code : BaseErrorCode;
  message : string
}.

(** A call either returns a value or throws an [McpError]. *)
Inductive result (A : Type) : Type :=
| Ok (a : A)
| Throw (e : McpError).
Arguments Ok {A} a.
Arguments Throw {A} e.

Definition bind {A B : Type} (r : result A) (k : A -> result B) : result B :=
  match r with
  | Ok a => k a
  | Throw e => Throw e
  end.

Notation "x <- r ;; k" := (bind r (fun x => k))
  (at level 61, r at next level, right associativity).

(* ------------------------------------------------------------------ *)
(** ** [Sanitization.sanitizePath] *)

Module Sanitization.

Record PathSanitizeOptions : Type := mkOptions {
  rootDir : option string;
  toPosix : option bool;
  allowAbsolute : option bool
}.

Record SanitizedPathInfo : Type := mkInfo {
  sanitizedPath : string;
  originalInput : string;
  wasAbsolute : bool;
  convertedToRelative : bool;
  optionsUsed : PathSanitizeOptions
}.

(** [b ?? false] *)
Definition orFalse (b : option bool) : bool :=
  match b with Some v => v | None => false end.

Definition isLetter (c : ascii) : bool :=
  let n := nat_of_ascii c in
  (((65 <=? n) && (n <=? 90)) || ((97 <=? n) && (n <=? 122)))%nat.

Definition isSlashOrBackslash (c : ascii) : bool :=
  Ascii.eqb c "/" || Ascii.eqb c "\".

Fixpoint dropSlashRun (s : string) : string :=
  match s with
  | String c rest => if isSlashOrBackslash c then dropSlashRun rest else s
  | EmptyString => EmptyString
  end.

(** [s.replace(/^(?:[A-Za-z]:)?[/\\]+/, '')]: an optional drive letter
    and the run of slashes after it are removed from the front. *)
Definition stripRootMarker (s : string) : string :=
  match s with
  | String l (String ":" (String c rest)) =>
      if isLetter l && isSlashOrBackslash c then dropSlashRun rest
      else dropSlashRun s
  | _ => dropSlashRun s
  end.

Definition effectiveOptions (cwd : string) (options : PathSanitizeOptions)
  : PathSanitizeOptions :=
  {| toPosix := Some (orFalse (toPosix options));
     allowAbsolute := Some (orFalse (allowAbsolute options));
     rootDir := match JsString.truthy (rootDir options) with
                | Some r => Some (Path.resolve cwd [r])
                | None => None
                end |}.

Definition validationError (msg : string) : McpError :=
  {| code := VALIDATION_ERROR; message := msg |}.

(** The value of [normalized] when the branches are entered:
    [path.normalize(input)], with its backslashes replaced when [toPosix]
    is set. *)
Definition normalizeInput (toPosix : bool) (input : string) : string :=
  let normalized := Path.normalize input in
  if toPosix then JsString.replaceBackslashes normalized else normalized.

(** [sanitizePath(input, options)] in a process whose working directory
    is [cwd].  Every [Error] thrown inside the [try] is rethrown by the
    [catch] as an [McpError] with code [VALIDATION_ERROR] and the same
    message. *)
Definition sanitizePath (cwd : string) (input : string)
           (options : PathSanitizeOptions) : result SanitizedPathInfo :=
  let originalInput := input in
  let effective := effectiveOptions cwd options in
  if input =? EmptyString then
    Throw (validationError "Invalid path input: must be a non-empty string.")
  else if JsString.includesChar JsString.NUL input then
    Throw (validationError "Path contains null byte, which is disallowed.")
  else
    let wasAbsoluteInitially := Path.isAbsolute (Path.normalize input) in
    let normalized := normalizeInput (orFalse (toPosix effective)) input in
    finalSanitizedPath <-
      match JsString.truthy (rootDir effective) with
      | Some root =>
          let fullPath := Path.resolve cwd [root; normalized] in
          if negb (JsString.startsWith fullPath (root ++ Path.sep))
             && negb (fullPath =? root)
          then Throw (validationError
            "Path traversal detected: attempts to escape the defined root directory.")
          else
            let rel := Path.relative cwd root fullPath in
            let rel := if rel =? EmptyString then "." else rel in
            if Path.isAbsolute rel && negb (orFalse (allowAbsolute effective))
            then Throw (validationError
              "Path resolved to absolute outside root when absolute paths are disallowed.")
            else Ok rel
      | None =>
          if Path.isAbsolute normalized then
            if negb (orFalse (allowAbsolute effective))
            then Ok (stripRootMarker normalized)
            else Ok normalized
          else
            let resolvedAgainstCwd := Path.resolve cwd [normalized] in
            let currentWorkingDir := Path.resolve cwd ["."] in
            if negb (JsString.startsWith resolvedAgainstCwd
                       (currentWorkingDir ++ Path.sep))
               && negb (resolvedAgainstCwd =? currentWorkingDir)
            then Throw (validationError
              "Relative path traversal detected (escapes current working directory context).")
            else Ok normalized
      end ;;
    Ok {| sanitizedPath := finalSanitizedPath;
          originalInput := originalInput;
          wasAbsolute := wasAbsoluteInitially;
          convertedToRelative :=
            wasAbsoluteInitially
            && negb (Path.isAbsolute finalSanitizedPath)
            && negb (orFalse (allowAbsolute effective));
          optionsUsed := effective |}.

End Sanitization.

(* ------------------------------------------------------------------ *)
(** ** [ServerState] (src/mcp-server/state.ts) *)

Module State.
Import Sanitization.

Record ServerState : Type := mkState {
  defaultFilesystemPath : option string;
  fsBaseDirectory : option string
}.

(** The options of every [sanitizePath] call of this class. *)
Definition absolutePosix : PathSanitizeOptions :=
  {| rootDir := None; toPosix := Some true; allowAbsolute := Some true |}.

(** The constructor: [config.fsBaseDirectory] sanitized, or disabled. *)
Definition init (cwd : string) (configured : option string) : ServerState :=
  {| defaultFilesystemPath := None;
     fsBaseDirectory :=
       match JsString.truthy configured with
       | Some b =>
           match sanitizePath cwd b absolutePosix with
           | Ok info => Some (sanitizedPath info)
           | Throw _ => None
           end
       | None => None
       end |}.

Definition setDefaultFilesystemPath (cwd : string) (st : ServerState)
           (newPath : string) : result ServerState :=
  if negb (Path.isAbsolute newPath) then
    Throw {| code := VALIDATION_ERROR; message := "Default path must be absolute." |}
  else
    info <- sanitizePath cwd newPath absolutePosix ;;
    Ok {| defaultFilesystemPath := Some (sanitizedPath info);
          fsBaseDirectory := fsBaseDirectory st |}.

Definition getDefaultFilesystemPath (st : ServerState) : option string :=
  defaultFilesystemPath st.

Definition clearDefaultFilesystemPath (st : ServerState) : ServerState :=
  {| defaultFilesystemPath := None; fsBaseDirectory := fsBaseDirectory st |}.

(** The boundary test of [resolvePath]: [true] when the sanitized path
    lies outside the base directory. *)
Definition outsideBase (base sanitizedAbsolutePath : string) : bool :=
  let normalizedFsBaseDirectory := Path.normalize base in
  let normalizedSanitizedAbsolutePath := Path.normalize sanitizedAbsolutePath in
  negb (JsString.startsWith normalizedSanitizedAbsolutePath
          (normalizedFsBaseDirectory ++ Path.sep))
  && negb (normalizedSanitizedAbsolutePath =? normalizedFsBaseDirectory).

Definition quote : string := String (ascii_of_nat 34) EmptyString.

Definition accessDenied (requestedPath : string) : McpError :=
  {| code := FORBIDDEN;
     message := "Access denied: The path " ++ quote ++ requestedPath ++ quote
                ++ " resolves to a location outside the allowed base directory." |}.

(** Second half of [resolvePath]: sanitize the candidate, then enforce
    the base directory. *)
Definition sanitizeAndConfine (cwd : string) (st : ServerState)
           (requestedPath absolutePath : string) : result string :=
  info <- sanitizePath cwd absolutePath absolutePosix ;;
  let sanitizedAbsolutePath := sanitizedPath info in
  match JsString.truthy (fsBaseDirectory st) with
  | Some base =>
      if outsideBase base sanitizedAbsolutePath
      then Throw (accessDenied requestedPath)
      else Ok sanitizedAbsolutePath
  | None => Ok sanitizedAbsolutePath
  end.

Definition noDefaultPath : McpError :=
  {| code := VALIDATION_ERROR;
     message := "Relative path provided, but no default filesystem path has been set for this session. Please provide an absolute path or set a default path first." |}.

(** First half of [resolvePath]: the path handed to the sanitizer. *)
Definition candidatePath (st : ServerState) (requestedPath : string)
  : result string :=
  if Path.isAbsolute requestedPath then Ok requestedPath
  else match JsString.truthy (defaultFilesystemPath st) with
       | None => Throw noDefaultPath
       | Some def => Ok (Path.join [def; requestedPath])
       end.

(** [resolvePath(requestedPath, context)] *)
Definition resolvePath (cwd : string) (st : ServerState)
           (requestedPath : string) : result string :=
  absolutePath <- candidatePath st requestedPath ;;
  sanitizeAndConfine cwd st requestedPath absolutePath.

End State.

(* ------------------------------------------------------------------ *)
(** ** The filesystem as a directory walk sees it

    [fs.readdir(p, {withFileTypes: true})] either lists the entries of [p]
    or fails with an error that carries a [code] and a [message].  A
    directory entry answers [entry.name] and [entry.isDirectory()]; a
    symbolic link is not a directory for [Dirent], so what a walk can reach
    from one path is a finite tree. *)

Module Fs.

Inductive ReaddirError : Type :=
| ENOENT
| ENOTDIR
| OtherError (msg : string).

Inductive Node : Type :=
| File (name : string)
| Dir (name : string) (entries : list Node)
| Unreadable (name : string) (err : ReaddirError).

Definition name (n : Node) : string :=
  match n with
  | File s | Dir s _ | Unreadable s _ => s
  end.

Definition isDirectory (n : Node) : bool :=
  match n with
  | File _ => false
  | Dir _ _ | Unreadable _ _ => true
  end.

(** Every directory of the tree can be read. *)
Fixpoint readable (n : Node) : bool :=
  match n with
  | File _ => true
  | Dir _ entries =>
      (fix each (l : list Node) : bool :=
         match l with
         | [] => true
         | e :: rest => readable e && each rest
         end) entries
  | Unreadable _ _ => false
  end.

End Fs.

(* ------------------------------------------------------------------ *)
(** ** [Array.prototype.sort] with a comparator: a stable sort *)

Module JsArray.
Section Sort.
Context {A : Type} (compareFn : A -> A -> Z).

Fixpoint insert (x : A) (sorted : list A) : list A :=
  match sorted with
  | [] => [x]
  | y :: rest =>
      if (compareFn x y <=? 0)%Z then x :: sorted
      else y :: insert x rest
  end.

Fixpoint sort (l : list A) : list A :=
  match l with
  | [] => []
  | x :: rest => insert x (sort rest)
  end.
End Sort.
End JsArray.

(* ------------------------------------------------------------------ *)
(** ** The listing tool (listFilesLogic.ts) *)

Module ListFiles.

Inductive DirectoryItem : Type :=
| mkItem (name : string) (isDirectory : bool)
         (children : option (list DirectoryItem)) (error : option string).

Definition name (i : DirectoryItem) : string :=
  match i with mkItem n _ _ _ => n end.
Definition isDirectory (i : DirectoryItem) : bool :=
  match i with mkItem _ d _ _ => d end.
Definition children (i : DirectoryItem) : option (list DirectoryItem) :=
  match i with mkItem _ _ c _ => c end.
Definition error (i : DirectoryItem) : option string :=
  match i with mkItem _ _ _ e => e end.

(** The [state] object of one enumeration. *)
Record TraversalState : Type := mkTraversal {
  count : Z;
  limit : Z;
  truncated : bool
}.

(** The [state] object together with every value it held before, the
    most recent first: each assignment to a field of [state] is a
    [write]. *)
Record Budget : Type := mkBudget {
  state : TraversalState;
  past : list TraversalState
}.

Definition fresh (s : TraversalState) : Budget :=
  {| state := s; past := [] |}.

Definition write (b : Budget) (s : TraversalState) : Budget :=
  {| state := s; past := state b :: past b |}.

(** [state.truncated = true] *)
Definition setTruncated (b : Budget) : Budget :=
  write b {| count := count (state b); limit := limit (state b);
             truncated := true |}.

(** [state.count++] *)
Definition incrementCount (b : Budget) : Budget :=
  write b {| count := count (state b) + 1; limit := limit (state b);
             truncated := truncated (state b) |}.

(** [state.count >= state.limit] *)
Definition limitReached (b : Budget) : bool :=
  (limit (state b) <=? count (state b))%Z.

(** The [McpError] thrown when [fs.readdir(dirPath)] fails. *)
Definition readdirFailure (dirPath : string) (err : Fs.ReaddirError) : McpError :=
  match err with
  | Fs.ENOENT =>
      {| code := NOT_FOUND;
         message := "Directory not found at path: " ++ dirPath |}
  | Fs.ENOTDIR =>
      {| code := VALIDATION_ERROR;
         message := "Path is not a directory: " ++ dirPath |}
  | Fs.OtherError msg =>
      {| code := INTERNAL_ERROR;
         message := "Failed to read directory: " ++ msg |}
  end.

(** [recursiveError?.message || 'Unknown error reading directory'] *)
Definition errorMessage (e : McpError) : string :=
  if message e =? EmptyString then "Unknown error reading directory"
  else message e.

Section Walk.
(** [a.localeCompare(b)]: the collation of the host's locale. *)
Variable localeCompare : string -> string -> Z.

(** The comparator given to [items.sort]. *)
Definition compareItems (a b : DirectoryItem) : Z :=
  if negb (Bool.eqb (isDirectory a) (isDirectory b)) then
    (if isDirectory a then -1 else 1)%Z
  else localeCompare (name a) (name b).

(** [readDirectoryRecursive(dirPath, includeNested, context, state)],
    where [node] is what the filesystem holds at [dirPath]. *)
Fixpoint readDirectoryRecursive (dirPath : string) (node : Fs.Node)
         (includeNested : bool) (b : Budget) {struct node}
  : result (list DirectoryItem) * Budget :=
  if truncated (state b) || limitReached b then (Ok [], setTruncated b)
  else
    match node with
    | Fs.Dir _ entries =>
        let '(items, b) :=
          (fix loop (entries : list Fs.Node) (items : list DirectoryItem)
                    (b : Budget) {struct entries}
             : list DirectoryItem * Budget :=
             match entries with
             | [] => (items, b)
             | entry :: rest =>
                 if limitReached b then (items, setTruncated b)
                 else
                   let b := incrementCount b in
                   let itemPath := Path.join [dirPath; Fs.name entry] in
                   let '(item, b) :=
                     if Fs.isDirectory entry && includeNested then
                       match readDirectoryRecursive itemPath entry
                               includeNested b with
                       | (Ok sub, b) =>
                           (mkItem (Fs.name entry) true (Some sub) None, b)
                       | (Throw e, b) =>
                           (mkItem (Fs.name entry) true None
                                   (Some (errorMessage e)), b)
                       end
                     else
                       (mkItem (Fs.name entry) (Fs.isDirectory entry)
                               None None, b) in
                   let items := (items ++ [item])%list in
                   if truncated (state b) then (items, b)
                   else loop rest items b
             end) entries [] b in
        (Ok (JsArray.sort compareItems items), b)
    | Fs.File _ => (Throw (readdirFailure dirPath Fs.ENOTDIR), b)
    | Fs.Unreadable _ err => (Throw (readdirFailure dirPath err), b)
    end.

(** The [for (const entry of entries)] loop of one call, as a
    function of its own (the same text as the local loop above). *)
Definition processEntries (dirPath : string) (includeNested : bool)
  : list Fs.Node -> list DirectoryItem -> Budget
    -> list DirectoryItem * Budget :=
  fix loop (entries : list Fs.Node) (items : list DirectoryItem)
           (b : Budget) {struct entries} : list DirectoryItem * Budget :=
    match entries with
    | [] => (items, b)
    | entry :: rest =>
        if limitReached b then (items, setTruncated b)
        else
          let b := incrementCount b in
          let itemPath := Path.join [dirPath; Fs.name entry] in
          let '(item, b) :=
            if Fs.isDirectory entry && includeNested then
              match readDirectoryRecursive itemPath entry includeNested b with
              | (Ok sub, b) =>
                  (mkItem (Fs.name entry) true (Some sub) None, b)
              | (Throw e, b) =>
                  (mkItem (Fs.name entry) true None
                          (Some (errorMessage e)), b)
              end
            else
              (mkItem (Fs.name entry) (Fs.isDirectory entry) None None, b) in
          let items := (items ++ [item])%list in
          if truncated (state b) then (items, b)
          else loop rest items b
    end.

Record ListFilesInput : Type := mkInput {
  path : string;
  includeNested : bool;
  maxEntries : Z
}.

(** The fields of [ListFilesOutput] that carry data; [items] is the
    tree that [formatTree] renders into the [tree] text. *)
Record ListFilesOutput : Type := mkOutput {
  items : list DirectoryItem;
  requestedPath : string;
  resolvedPath : string;
  itemCount : Z;
  truncatedFlag : bool
}.

(** [listFilesLogic(input, context)] for the session [st] over the
    filesystem [fs] (what [fs.readdir] finds at each absolute path). *)
Definition listFilesLogic (cwd : string) (st : State.ServerState)
           (fs : string -> Fs.Node) (input : ListFilesInput)
  : result ListFilesOutput :=
  absolutePath <- State.resolvePath cwd st (path input) ;;
  let b := fresh {| count := 0; limit := maxEntries input;
                    truncated := false |} in
  match readDirectoryRecursive absolutePath (fs absolutePath)
          (includeNested input) b with
  | (Ok items, b) =>
      Ok {| items := items;
            requestedPath := path input;
            resolvedPath := absolutePath;
            itemCount := count (state b);
            truncatedFlag := truncated (state b) |}
  | (Throw e, _) => Throw e
  end.
End Walk.

(** Number of items of a tree, all levels. *)
Fixpoint itemSize (i : DirectoryItem) : Z :=
  match i with
  | mkItem _ _ (Some sub) _ =>
      1 + (fix sizes (l : list DirectoryItem) : Z :=
             match l with
             | [] => 0
             | x :: rest => itemSize x + sizes rest
             end) sub
  | mkItem _ _ None _ => 1
  end%Z.

Fixpoint treeSize (l : list DirectoryItem) : Z :=
  match l with
  | [] => 0
  | x :: rest => itemSize x + treeSize rest
  end%Z.

End ListFiles.

(* ------------------------------------------------------------------ *)
(** ** [minimatch(file, pattern, {dot: true})]

    The glob matcher of the [minimatch] package, for patterns built from
    literal characters, [*], [?] and [**]: the pattern and the file are cut
    at slashes, a [**] part is a globstar, a part with [*] or [?] matches
    one file part character by character, any other part must be equal.
    Braces, character classes, extglobs, escapes and a leading [!] are not
    part of this model. *)

Module Minimatch.

Inductive Part : Type :=
| GLOBSTAR
| Magic (glob : string)
| Literal (text : string).

(** A glob without slashes against one file part: [*] is any run of
    characters, [?] is one character. *)
Fixpoint wildcard (glob : string) : string -> bool :=
  match glob with
  | EmptyString => fun s => s =? EmptyString
  | String g glob' =>
      if Ascii.eqb g "*" then
        fix star (s : string) : bool :=
          wildcard glob' s
          || match s with
             | String _ s' => star s'
             | EmptyString => false
             end
      else if Ascii.eqb g "?" then
        fun s => match s with
                 | String _ s' => wildcard glob' s'
                 | EmptyString => false
                 end
      else
        fun s => match s with
                 | String c s' => Ascii.eqb c g && wildcard glob' s'
                 | EmptyString => false
                 end
  end.

(** [.] and [..] are never matched by a wildcard. *)
Definition notDots (f : string) : bool :=
  negb (f =? ".") && negb (f =? "..").

Definition startsWithMagic (glob : string) : bool :=
  match glob with
  | String g _ => Ascii.eqb g "*" || Ascii.eqb g "?"
  | EmptyString => false
  end.

Definition parsePart (p : string) : Part :=
  if p =? "**" then GLOBSTAR
  else if JsString.includesChar "*" p || JsString.includesChar "?" p
  then Magic p
  else Literal p.

Definition matchPart (p : Part) (f : string) : bool :=
  match p with
  | GLOBSTAR => false
  | Literal text => f =? text
  | Magic glob =>
      negb (f =? EmptyString)
      && (if startsWithMagic glob then notDots f else true)
      && wildcard glob f
  end.

(** [matchOne(file, pattern)] with [partial] false. *)
Fixpoint matchOne (pattern : list Part) (file : list string) {struct pattern}
  : bool :=
  match pattern with
  | [] =>
      match file with
      | [] => true
      | [f] => f =? EmptyString
      | _ => false
      end
  | p :: pattern' =>
      match file with
      | [] => false
      | f :: file' =>
          match p with
          | GLOBSTAR =>
              match pattern' with
              | [] => forallb notDots file
              | _ =>
                  (fix swallow (file : list string) : bool :=
                     match file with
                     | [] => false
                     | swallowee :: more =>
                         matchOne pattern' file
                         || (notDots swallowee && swallow more)
                     end) file
              end
          | _ => matchPart p f && matchOne pattern' file'
          end
      end
  end.

(** [s.split(/\/+/)] *)
Fixpoint dropInnerEmpty (parts : list string) : list string :=
  match parts with
  | [] => []
  | [last] => [last]
  | p :: rest =>
      if p =? EmptyString then dropInnerEmpty rest
      else p :: dropInnerEmpty rest
  end.

Definition slashSplit (s : string) : list string :=
  match Path.split s with
  | first :: rest => first :: dropInnerEmpty rest
  | [] => []
  end.

Definition minimatch (file pattern : string) : bool :=
  if JsString.startsWith pattern "#" then false
  else if pattern =? EmptyString then file =? EmptyString
  else matchOne (map parsePart (slashSplit pattern)) (slashSplit file).

End Minimatch.

(* ------------------------------------------------------------------ *)
(** ** The tree walker with exclude patterns ([buildTreeForTesting]) *)

Module BuildTree.

Inductive EntryType : Type := file | directory.

Inductive TreeEntry : Type :=
| mkEntry (name : string) (type : EntryType)
          (children : option (list TreeEntry)).

Definition name (e : TreeEntry) : string :=
  match e with mkEntry n _ _ => n end.
Definition children (e : TreeEntry) : option (list TreeEntry) :=
  match e with mkEntry _ _ c => c end.

Section Exclude.
(** [minimatch(path, pattern, {dot: true})] *)
Variable minimatch : string -> string -> bool.

(** The callback of [excludePatterns.some]. *)
Definition patternExcludes (relativePath pattern : string) : bool :=
  if JsString.includesChar "*" pattern then
    minimatch relativePath pattern
  else
    minimatch relativePath pattern
    || minimatch relativePath ("**/" ++ pattern)
    || minimatch relativePath ("**/" ++ pattern ++ "/**").

Definition shouldExclude (excludePatterns : list string)
           (relativePath : string) : bool :=
  existsb (patternExcludes relativePath) excludePatterns.

(** [buildTreeForTesting(currentPath, rootPath, excludePatterns)],
    where [node] is what the filesystem holds at [currentPath]; [None]
    is the rejection of [fs.readdir], which nothing catches. *)
Fixpoint buildTreeForTesting (cwd : string) (currentPath : string)
         (node : Fs.Node) (rootPath : string)
         (excludePatterns : list string) {struct node}
  : option (list TreeEntry) :=
  match node with
  | Fs.Dir _ entries =>
      (fix loop (entries : list Fs.Node) (result : list TreeEntry)
                {struct entries} : option (list TreeEntry) :=
         match entries with
         | [] => Some result
         | entry :: rest =>
             let relativePath :=
               Path.relative cwd rootPath
                 (Path.join [currentPath; Fs.name entry]) in
             if shouldExclude excludePatterns relativePath
             then loop rest result
             else if Fs.isDirectory entry then
               let subPath := Path.join [currentPath; Fs.name entry] in
               match buildTreeForTesting cwd subPath entry rootPath
                       excludePatterns with
               | Some sub =>
                   loop rest
                     (result ++ [mkEntry (Fs.name entry) directory (Some sub)])%list
               | None => None
               end
             else
               loop rest (result ++ [mkEntry (Fs.name entry) file None])%list
         end) entries []
  | Fs.File _ | Fs.Unreadable _ _ => None
  end.

(** The [for (const entry of entries)] loop of one call, as a function
    of its own (the same text as the local loop above). *)
Definition collectEntries (cwd : string) (currentPath : string)
           (rootPath : string) (excludePatterns : list string)
  : list Fs.Node -> list TreeEntry -> option (list TreeEntry) :=
  fix loop (entries : list Fs.Node) (result : list TreeEntry)
           {struct entries} : option (list TreeEntry) :=
    match entries with
    | [] => Some result
    | entry :: rest =>
        let relativePath :=
          Path.relative cwd rootPath
            (Path.join [currentPath; Fs.name entry]) in
        if shouldExclude excludePatterns relativePath
        then loop rest result
        else if Fs.isDirectory entry then
          let subPath := Path.join [currentPath; Fs.name entry] in
          match buildTreeForTesting cwd subPath entry rootPath
                  excludePatterns with
          | Some sub =>
              loop rest
                (result ++ [mkEntry (Fs.name entry) directory (Some sub)])%list
          | None => None
          end
        else
          loop rest (result ++ [mkEntry (Fs.name entry) file None])%list
    end.
End Exclude.

End BuildTree.

(* ================================================================== *)
(** * Properties *)

(** Values that Node's documentation and test-suite give for these functions. *)
Example normalize_doc :
  Path.normalize "/foo/bar//baz/asdf/quux/.." = "/foo/bar/baz/asdf"
  /\ Path.normalize "./fixtures///b/../b/c.js" = "fixtures/b/c.js"
  /\ Path.normalize "/foo/../../../bar" = "/bar"
  /\ Path.normalize "a//b//../b" = "a/b"
  /\ Path.normalize "a//b//./c" = "a/b/c"
  /\ Path.normalize "../.../.././.../../../bar" = "../../bar"
  /\ Path.normalize "../../../foo/../../../bar/../../" = "../../../../../../"
  /\ Path.normalize "./" = "./"
  /\ Path.normalize "a/.." = "."
  /\ Path.normalize "/a/b/" = "/a/b/"
  /\ Path.normalize "///..//./foo/.//bar" = "/foo/bar".
Proof. repeat split; reflexivity. Qed.

Example join_doc :
  Path.join ["/foo"; "bar"; "baz/asdf"; "quux"; ".."] = "/foo/bar/baz/asdf"
  /\ Path.join [EmptyString; EmptyString] = "."
  /\ Path.join ["/sandbox/work"; "../../etc/passwd"] = "/etc/passwd".
Proof. repeat split; reflexivity. Qed.

Example resolve_doc :
  Path.resolve "/home/u" ["/foo/bar"; "./baz"] = "/foo/bar/baz"
  /\ Path.resolve "/home/u" ["/foo/bar"; "/tmp/file/"] = "/tmp/file"
  /\ Path.resolve "/home/myself/node"
       ["wwwroot"; "static_files/png/"; "../gif/image.gif"]
     = "/home/myself/node/wwwroot/static_files/gif/image.gif"
  /\ Path.resolve "/home/u" ["."] = "/home/u"
  /\ Path.resolve "/" [".."] = "/".
Proof. repeat split; reflexivity. Qed.

Example relative_doc :
  Path.relative "/" "/data/orandea/test/aaa" "/data/orandea/impl/bbb" = "../../impl/bbb"
  /\ Path.relative "/" "/var/lib" "/var" = ".."
  /\ Path.relative "/" "/var/lib" "/bin" = "../../bin"
  /\ Path.relative "/" "/var/lib" "/var/lib" = EmptyString
  /\ Path.relative "/" "/var/lib" "/var/apache" = "../apache"
  /\ Path.relative "/" "/var/" "/var/lib" = "lib"
  /\ Path.relative "/" "/" "/var/lib" = "var/lib"
  /\ Path.relative "/" "/foo/test" "/foo/test/bar/package.json" = "bar/package.json"
  /\ Path.relative "/" "/Users/a/web/b/test/mails" "/Users/a/web/b" = "../.."
  /\ Path.relative "/" "/foo/bar/baz-quux" "/foo/bar/baz" = "../baz"
  /\ Path.relative "/" "/baz-quux" "/baz" = "../baz"
  /\ Path.relative "/" "/page1/page2/foo" "/" = "../../..".
Proof. repeat split; reflexivity. Qed.

(* ------------------------------------------------------------------ *)
(** ** Paths *)

Module PathFacts.
Import Path.

(** A segment of a path: not empty, no separator inside. *)
Definition plain (seg : string) : Prop :=
  seg <> EmptyString /\ JsString.includesChar "/" seg = false.

Lemma split_no_separator (s : string) :
  Forall (fun seg => JsString.includesChar "/" seg = false) (split s).
Proof.
  induction s as [|c s IH]; simpl.
  - constructor; [reflexivity | constructor].
  - unfold isPosixPathSeparator.
    destruct (Ascii.eqb c "/") eqn:Hc.
    + constructor; [reflexivity | exact IH].
    + destruct (split s) as [|seg segs].
      * constructor; [simpl; now rewrite Hc | constructor].
      * inversion IH; subst. constructor; [simpl; now rewrite Hc | assumption].
Qed.

Lemma segments_plain (p : string) : Forall plain (segments p).
Proof.
  unfold segments. pose proof (split_no_separator p) as H.
  induction H as [|seg segs Hseg _ IH]; simpl; [constructor|].
  destruct (String.eqb_spec seg EmptyString) as [E|N]; simpl; [exact IH|].
  constructor; [split; assumption | exact IH].
Qed.

Lemma dropCommon_down (P : string -> Prop) (from to up down : list string) :
  dropCommon from to = (up, down) -> Forall P to -> Forall P down.
Proof.
  revert to up down.
  induction from as [|a from IH]; intros to up down H Hto; simpl in H.
  - inversion H; subst; assumption.
  - destruct to as [|b to]; [inversion H; subst; assumption|].
    destruct (a =? b).
    + inversion Hto; subst. eapply IH; eauto.
    + inversion H; subst; assumption.
Qed.

Lemma plain_not_absolute (seg rest : string) :
  plain seg -> isAbsolute (seg ++ rest) = false.
Proof.
  intros [Hne Hsep]. destruct seg as [|c seg]; [congruence|].
  simpl in *. unfold isPosixPathSeparator.
  destruct (Ascii.eqb c "/"); [discriminate | reflexivity].
Qed.

Lemma concat_plain_not_absolute (l : list string) :
  Forall plain l -> isAbsolute (String.concat "/" l) = false.
Proof.
  intros H. destruct H as [|x l Hx Hl]; [reflexivity|].
  destruct l as [|y l]; simpl.
  - rewrite <- (plain_not_absolute x EmptyString Hx). f_equal.
    clear. induction x; simpl; congruence.
  - now apply plain_not_absolute.
Qed.

Lemma dotdot_plain : plain "..".
Proof. split; [discriminate | reflexivity]. Qed.

(** [path.relative] never returns an absolute path. *)
Lemma relative_not_absolute (cwd a b : string) :
  isAbsolute (relative cwd a b) = false.
Proof.
  unfold relative.
  destruct (a =? b); [reflexivity|].
  destruct (resolve cwd [a] =? resolve cwd [b]); [reflexivity|].
  destruct (dropCommon (segments (resolve cwd [a])) (segments (resolve cwd [b])))
    as [up down] eqn:Hd.
  apply concat_plain_not_absolute, Forall_app. split.
  - clear. induction up; simpl; constructor; auto using dotdot_plain.
  - eapply dropCommon_down; [exact Hd | apply segments_plain].
Qed.

(** [path.resolve] never returns the empty string. *)
Lemma resolve_not_empty (cwd : string) (args : list string) :
  resolve cwd args <> EmptyString.
Proof.
  unfold resolve.
  destruct (resolveScan (rev args ++ [cwd]) EmptyString) as [p abs].
  destruct abs; simpl; [discriminate|].
  destruct (String.eqb_spec (normalizeString p true) EmptyString);
    [discriminate | assumption].
Qed.

End PathFacts.

(* ------------------------------------------------------------------ *)
(** ** The sanitizer *)

Module SanitizerFacts.
Import Sanitization.

Definition nullByteRejected : McpError :=
  validationError "Path contains null byte, which is disallowed.".

(** C2.  An input that contains a null byte is rejected with
    [VALIDATION_ERROR] whatever the options are, and the error is the one
    of the null-byte test, which comes before the path is normalized or
    looked at against a root directory. *)
Theorem sanitizePath_null_byte cwd input options :
  JsString.includesChar JsString.NUL input = true ->
  sanitizePath cwd input options = Throw nullByteRejected
  /\ code nullByteRejected = VALIDATION_ERROR.
Proof.
  intros Hnul. split; [|reflexivity].
  unfold sanitizePath.
  destruct (String.eqb_spec input EmptyString) as [E|_].
  - subst. discriminate.
  - now rewrite Hnul.
Qed.

Definition withNull : string := String "a" (String JsString.NUL "b").

Lemma sanitizePath_null_byte_witness :
  sanitizePath "/srv" withNull
    {| rootDir := Some "/srv/data"; toPosix := Some true;
       allowAbsolute := None |}
  = Throw nullByteRejected
  /\ code nullByteRejected = VALIDATION_ERROR.
Proof.
  apply (sanitizePath_null_byte "/srv" withNull
           {| rootDir := Some "/srv/data"; toPosix := Some true;
              allowAbsolute := None |}).
  reflexivity.
Defined.

(** The root directory in force: [path.resolve(options.rootDir)]. *)
Definition effectiveRoot (cwd rootDir : string) : string :=
  Path.resolve cwd [rootDir].

(** The absolute path the input stands for under the root. *)
Definition fullPathUnder (cwd rootDir : string) (toPosix : bool)
           (input : string) : string :=
  Path.resolve cwd [effectiveRoot cwd rootDir; normalizeInput toPosix input].

(** [fullPath] equals the root or starts with the root and a separator. *)
Definition underRoot (root fullPath : string) : Prop :=
  fullPath = root \/ JsString.startsWith fullPath (root ++ Path.sep) = true.

Definition relativeOrDot (rel : string) : string :=
  if rel =? EmptyString then "." else rel.

Lemma truthy_resolve cwd args :
  JsString.truthy (Some (Path.resolve cwd args)) = Some (Path.resolve cwd args).
Proof.
  simpl. destruct (String.eqb_spec (Path.resolve cwd args) EmptyString) as [E|N];
    [now apply PathFacts.resolve_not_empty in E | reflexivity].
Qed.

Lemma relativeOrDot_not_absolute cwd a b :
  Path.isAbsolute (relativeOrDot (Path.relative cwd a b)) = false.
Proof.
  unfold relativeOrDot.
  destruct (Path.relative cwd a b =? EmptyString); [reflexivity|].
  apply PathFacts.relative_not_absolute.
Qed.

Lemma effective_rootDir cwd options r :
  JsString.truthy (rootDir options) = Some r ->
  rootDir (effectiveOptions cwd options) = Some (effectiveRoot cwd r).
Proof. intros H. unfold effectiveOptions. cbn. now rewrite H. Qed.

Lemma effective_toPosix cwd options :
  orFalse (toPosix (effectiveOptions cwd options)) = orFalse (toPosix options).
Proof. reflexivity. Qed.

Lemma effective_allowAbsolute cwd options :
  orFalse (allowAbsolute (effectiveOptions cwd options))
  = orFalse (allowAbsolute options).
Proof. reflexivity. Qed.

(** The root-directory branch of [sanitizePath], for an input that
    passed the two entry tests. *)
Lemma sanitizePath_rooted cwd input options r :
  input <> EmptyString ->
  JsString.includesChar JsString.NUL input = false ->
  JsString.truthy (rootDir options) = Some r ->
  let root := effectiveRoot cwd r in
  let fullPath := fullPathUnder cwd r (orFalse (toPosix options)) input in
  sanitizePath cwd input options =
    if negb (JsString.startsWith fullPath (root ++ Path.sep))
       && negb (fullPath =? root)
    then Throw (validationError
      "Path traversal detected: attempts to escape the defined root directory.")
    else Ok {| sanitizedPath := relativeOrDot (Path.relative cwd root fullPath);
               originalInput := input;
               wasAbsolute := Path.isAbsolute (Path.normalize input);
               convertedToRelative :=
                 Path.isAbsolute (Path.normalize input)
                 && negb (orFalse (allowAbsolute options));
               optionsUsed := effectiveOptions cwd options |}.
Proof.
  intros Hne Hnul Hroot root fullPath.
  unfold sanitizePath.
  destruct (String.eqb_spec input EmptyString) as [E|_]; [contradiction|].
  rewrite Hnul, (effective_rootDir _ _ _ Hroot), !effective_toPosix,
    !effective_allowAbsolute.
  unfold effectiveRoot at 1. rewrite truthy_resolve.
  change (Path.resolve cwd [r]) with root.
  change (Path.resolve cwd [root; normalizeInput (orFalse (toPosix options)) input])
    with fullPath.
  destruct (negb (JsString.startsWith fullPath (root ++ Path.sep))
            && negb (fullPath =? root)); [reflexivity|].
  change (if Path.relative cwd root fullPath =? EmptyString then "."
          else Path.relative cwd root fullPath)
    with (relativeOrDot (Path.relative cwd root fullPath)).
  rewrite relativeOrDot_not_absolute. simpl.
  now rewrite relativeOrDot_not_absolute, andb_true_r.
Qed.

(** C3, as the code has it.  For an input that is not empty and has no
    null byte, and options with a root directory: when the input,
    normalized and resolved against the root, is neither the root nor
    below it, [sanitizePath] fails with [VALIDATION_ERROR]; otherwise it
    returns the path relative to the root, ["."] for the root itself. *)
Theorem sanitizePath_root_confinement cwd input options r :
  input <> EmptyString ->
  JsString.includesChar JsString.NUL input = false ->
  JsString.truthy (rootDir options) = Some r ->
  let root := effectiveRoot cwd r in
  let fullPath := fullPathUnder cwd r (orFalse (toPosix options)) input in
  (~ underRoot root fullPath ->
     exists e, sanitizePath cwd input options = Throw e
               /\ code e = VALIDATION_ERROR)
  /\ (underRoot root fullPath ->
        exists info, sanitizePath cwd input options = Ok info
          /\ sanitizedPath info = relativeOrDot (Path.relative cwd root fullPath)
          /\ Path.isAbsolute (sanitizedPath info) = false).
Proof.
  intros Hne Hnul Hroot root fullPath.
  rewrite (sanitizePath_rooted cwd input options r Hne Hnul Hroot).
  fold root. fold fullPath. unfold underRoot.
  destruct (JsString.startsWith fullPath (root ++ Path.sep)) eqn:Hpre;
    destruct (String.eqb_spec fullPath root) as [E|N]; simpl; split;
    try (intros H; exfalso; apply H; auto; fail);
    try (intros _; eexists; split; [reflexivity|split;
           [reflexivity | apply relativeOrDot_not_absolute]]; fail).
  - intros _. eexists; split; reflexivity.
  - intros [E|F]; [contradiction | discriminate].
Qed.

Definition underData : PathSanitizeOptions :=
  {| rootDir := Some "/srv/data"; toPosix := None; allowAbsolute := None |}.

Lemma sanitizePath_root_confinement_witness :
  (~ underRoot (effectiveRoot "/srv" "/srv/data")
       (fullPathUnder "/srv" "/srv/data" false "a/../../x") ->
     exists e, sanitizePath "/srv" "a/../../x" underData = Throw e
               /\ code e = VALIDATION_ERROR)
  /\ (underRoot (effectiveRoot "/srv" "/srv/data")
        (fullPathUnder "/srv" "/srv/data" false "a/../../x") ->
        exists info, sanitizePath "/srv" "a/../../x" underData = Ok info
          /\ sanitizedPath info
             = relativeOrDot (Path.relative "/srv"
                  (effectiveRoot "/srv" "/srv/data")
                  (fullPathUnder "/srv" "/srv/data" false "a/../../x"))
          /\ Path.isAbsolute (sanitizedPath info) = false).
Proof.
  apply (sanitizePath_root_confinement "/srv" "a/../../x" underData "/srv/data");
    [discriminate | reflexivity | reflexivity].
Defined.

(** The empty input resolves to the root itself, and is rejected all the
    same: the entry test comes first. *)
Lemma sanitizePath_root_empty_input :
  underRoot (effectiveRoot "/srv" "/srv/data")
    (fullPathUnder "/srv" "/srv/data" false EmptyString)
  /\ exists e, sanitizePath "/srv" EmptyString underData = Throw e.
Proof.
  split; [left; reflexivity | eexists; reflexivity].
Qed.

Example sanitizePath_root_inside :
  sanitizePath "/srv" "/srv/data/a/./b/" underData
  = Ok {| sanitizedPath := "a/b"; originalInput := "/srv/data/a/./b/";
          wasAbsolute := true; convertedToRelative := true;
          optionsUsed := {| rootDir := Some "/srv/data";
                            toPosix := Some false;
                            allowAbsolute := Some false |} |}.
Proof. reflexivity. Qed.

Example sanitizePath_root_itself :
  exists info, sanitizePath "/srv" "x/.." underData = Ok info
               /\ sanitizedPath info = ".".
Proof. eexists; split; reflexivity. Qed.

Definition defaults : PathSanitizeOptions :=
  {| rootDir := None; toPosix := None; allowAbsolute := None |}.

(** C4, at the root path.  With the default options [sanitizePath "/"]
    succeeds with the empty string as its sanitized path, and
    [sanitizePath] of that result fails: the root marker is stripped and
    nothing is left, where the root-directory branch puts ["."]. *)
Theorem sanitizePath_twice_root cwd :
  exists info e,
    sanitizePath cwd "/" defaults = Ok info
    /\ sanitizedPath info = EmptyString
    /\ sanitizePath cwd (sanitizedPath info) defaults = Throw e
    /\ code e = VALIDATION_ERROR.
Proof. do 2 eexists. repeat split. Qed.

(** With [toPosix] a backslash input is normalized before its
    backslashes become separators, so the result still has a [..]
    segment and a second pass gives another path. *)
Example sanitizePath_twice_backslash :
  let posix := {| rootDir := None; toPosix := Some true;
                  allowAbsolute := Some true |} in
  exists once twice,
    sanitizePath "/srv" "/srv/a\..\b" posix = Ok once
    /\ sanitizedPath once = "/srv/a/../b"
    /\ sanitizePath "/srv" (sanitizedPath once) posix = Ok twice
    /\ sanitizedPath twice = "/srv/b".
Proof. do 2 eexists. repeat split. Qed.

End SanitizerFacts.

(* ------------------------------------------------------------------ *)
(** ** The resolver *)

Module ResolverFacts.
Import Sanitization State.

(** The prefix invariant of the sandbox boundary, over the normalized
    forms of the base directory and of the path. *)
Definition withinBase (base p : string) : Prop :=
  Path.normalize p = Path.normalize base
  \/ JsString.startsWith (Path.normalize p)
       (Path.normalize base ++ Path.sep) = true.

Lemma outsideBase_false (base p : string) :
  outsideBase base p = false <-> withinBase base p.
Proof.
  unfold outsideBase, withinBase.
  destruct (JsString.startsWith (Path.normalize p)
              (Path.normalize base ++ Path.sep)) eqn:Hpre; simpl.
  - split; auto.
  - destruct (String.eqb_spec (Path.normalize p) (Path.normalize base)) as [E|N];
      simpl; split; auto; intros [E'|F]; congruence.
Qed.

Lemma outsideBase_true (base p : string) :
  outsideBase base p = true <-> ~ withinBase base p.
Proof.
  rewrite <- outsideBase_false.
  destruct (outsideBase base p); split; congruence.
Qed.

(** What [resolvePath] does once the candidate has been sanitized. *)
Lemma sanitizeAndConfine_sanitized cwd st requestedPath absolutePath info :
  sanitizePath cwd absolutePath absolutePosix = Ok info ->
  sanitizeAndConfine cwd st requestedPath absolutePath =
    match JsString.truthy (fsBaseDirectory st) with
    | Some base =>
        if outsideBase base (sanitizedPath info)
        then Throw (accessDenied requestedPath)
        else Ok (sanitizedPath info)
    | None => Ok (sanitizedPath info)
    end.
Proof. intros H. unfold sanitizeAndConfine. rewrite H. reflexivity. Qed.

Lemma resolvePath_inv cwd st requestedPath p :
  resolvePath cwd st requestedPath = Ok p ->
  exists absolutePath info,
    candidatePath st requestedPath = Ok absolutePath
    /\ sanitizePath cwd absolutePath absolutePosix = Ok info
    /\ p = sanitizedPath info
    /\ sanitizeAndConfine cwd st requestedPath absolutePath = Ok p.
Proof.
  unfold resolvePath.
  destruct (candidatePath st requestedPath) as [absolutePath|e] eqn:Hc;
    simpl; [|discriminate].
  intros H. exists absolutePath.
  destruct (sanitizePath cwd absolutePath absolutePosix) as [info|e] eqn:Hs.
  - exists info. repeat split; auto.
    rewrite (sanitizeAndConfine_sanitized _ _ _ _ _ Hs) in H.
    destruct (JsString.truthy (fsBaseDirectory st)).
    + destruct (outsideBase s (sanitizedPath info)); congruence.
    + congruence.
  - unfold sanitizeAndConfine in H. rewrite Hs in H. discriminate.
Qed.

(** C1.  With a base directory active, a path returned by [resolvePath]
    is the sanitized candidate itself and lies within the base (its
    normalized form equals the normalized base or starts with it followed
    by the separator); a sanitized candidate that lies outside makes
    [resolvePath] fail with [FORBIDDEN]. *)
Theorem resolvePath_confined cwd st requestedPath base :
  JsString.truthy (fsBaseDirectory st) = Some base ->
  (forall p, resolvePath cwd st requestedPath = Ok p ->
     withinBase base p
     /\ exists absolutePath info,
          candidatePath st requestedPath = Ok absolutePath
          /\ sanitizePath cwd absolutePath absolutePosix = Ok info
          /\ p = sanitizedPath info)
  /\ (forall absolutePath info,
        candidatePath st requestedPath = Ok absolutePath ->
        sanitizePath cwd absolutePath absolutePosix = Ok info ->
        ~ withinBase base (sanitizedPath info) ->
        exists e, resolvePath cwd st requestedPath = Throw e
                  /\ code e = FORBIDDEN).
Proof.
  intros Hbase. split.
  - intros p Hp.
    destruct (resolvePath_inv _ _ _ _ Hp) as (a & info & Hc & Hs & -> & Hconf).
    split; [|eauto].
    rewrite (sanitizeAndConfine_sanitized _ _ _ _ _ Hs), Hbase in Hconf.
    destruct (outsideBase base (sanitizedPath info)) eqn:Hout; [discriminate|].
    now apply outsideBase_false.
  - intros a info Hc Hs Hout.
    exists (accessDenied requestedPath). split; [|reflexivity].
    unfold resolvePath. rewrite Hc. simpl.
    rewrite (sanitizeAndConfine_sanitized _ _ _ _ _ Hs), Hbase.
    apply outsideBase_true in Hout. now rewrite Hout.
Qed.

Definition sandboxed : ServerState :=
  {| defaultFilesystemPath := Some "/sandbox/work";
     fsBaseDirectory := Some "/sandbox" |}.

Lemma resolvePath_confined_witness :
  (forall p, resolvePath "/srv" sandboxed "notes/a.txt" = Ok p ->
     withinBase "/sandbox" p
     /\ exists absolutePath info,
          candidatePath sandboxed "notes/a.txt" = Ok absolutePath
          /\ sanitizePath "/srv" absolutePath absolutePosix = Ok info
          /\ p = sanitizedPath info)
  /\ (forall absolutePath info,
        candidatePath sandboxed "notes/a.txt" = Ok absolutePath ->
        sanitizePath "/srv" absolutePath absolutePosix = Ok info ->
        ~ withinBase "/sandbox" (sanitizedPath info) ->
        exists e, resolvePath "/srv" sandboxed "notes/a.txt" = Throw e
                  /\ code e = FORBIDDEN).
Proof.
  apply (resolvePath_confined "/srv" sandboxed "notes/a.txt" "/sandbox").
  reflexivity.
Defined.

(** The two scenarios of the resolver's tests. *)
Example resolvePath_escape_forbidden :
  resolvePath "/srv" sandboxed "../../etc/passwd"
  = Throw (accessDenied "../../etc/passwd").
Proof. reflexivity. Qed.

Example resolvePath_inside :
  resolvePath "/srv" sandboxed "notes/a.txt" = Ok "/sandbox/work/notes/a.txt".
Proof. reflexivity. Qed.



(** C10.  For an absolute requested path the outcome of [resolvePath],
    value or error, is the same under any two session default paths. *)
Theorem resolvePath_absolute_ignores_default cwd base def1 def2 requestedPath :
  Path.isAbsolute requestedPath = true ->
  resolvePath cwd {| defaultFilesystemPath := def1; fsBaseDirectory := base |}
              requestedPath
  = resolvePath cwd {| defaultFilesystemPath := def2; fsBaseDirectory := base |}
                requestedPath.
Proof.
  intros Habs. unfold resolvePath, candidatePath. rewrite Habs. reflexivity.
Qed.

Lemma resolvePath_absolute_ignores_default_witness :
  resolvePath "/srv" {| defaultFilesystemPath := Some "/sandbox/work";
                        fsBaseDirectory := Some "/sandbox" |} "/sandbox/x"
  = resolvePath "/srv" {| defaultFilesystemPath := None;
                          fsBaseDirectory := Some "/sandbox" |} "/sandbox/x".
Proof.
  apply (resolvePath_absolute_ignores_default "/srv" (Some "/sandbox")
           (Some "/sandbox/work") None "/sandbox/x").
  reflexivity.
Defined.

End ResolverFacts.

(* ------------------------------------------------------------------ *)
(** ** Exclude patterns *)

Module ExcludeFacts.
Import BuildTree.

(** The three forms a pattern without [*] is tried in. *)
Definition matchesAnyForm (minimatch : string -> string -> bool)
           (relativePath pattern : string) : Prop :=
  minimatch relativePath pattern = true
  \/ minimatch relativePath ("**/" ++ pattern) = true
  \/ minimatch relativePath ("**/" ++ pattern ++ "/**") = true.

Lemma patternExcludes_plain minimatch relativePath pattern :
  JsString.includesChar "*" pattern = false ->
  patternExcludes minimatch relativePath pattern = true
  <-> matchesAnyForm minimatch relativePath pattern.
Proof.
  intros Hstar. unfold patternExcludes, matchesAnyForm. rewrite Hstar.
  rewrite !orb_true_iff. tauto.
Qed.

Lemma patternExcludes_star minimatch relativePath pattern :
  JsString.includesChar "*" pattern = true ->
  patternExcludes minimatch relativePath pattern
  = minimatch relativePath pattern.
Proof. intros Hstar. unfold patternExcludes. now rewrite Hstar. Qed.

Section Tree.
Variable minimatch : string -> string -> bool.
Variables (cwd rootPath : string) (excludePatterns : list string).

(** The entry of the directory at [currentPath] stays in the tree. *)
Definition kept (currentPath : string) (entry : Fs.Node) : bool :=
  negb (shouldExclude minimatch excludePatterns
          (Path.relative cwd rootPath (Path.join [currentPath; Fs.name entry]))).

Lemma buildTree_dir currentPath name entries :
  buildTreeForTesting minimatch cwd currentPath (Fs.Dir name entries) rootPath
    excludePatterns
  = collectEntries minimatch cwd currentPath rootPath excludePatterns entries [].
Proof. reflexivity. Qed.

Lemma readable_dir name entries :
  Fs.readable (Fs.Dir name entries) = forallb Fs.readable entries.
Proof. reflexivity. Qed.

(** A readable directory is listed, and lists the entries that are kept. *)
Definition listsKept (node : Fs.Node) : Prop :=
  forall currentPath name entries,
    node = Fs.Dir name entries ->
    Fs.readable node = true ->
    exists result,
      buildTreeForTesting minimatch cwd currentPath node rootPath excludePatterns
      = Some result
      /\ map BuildTree.name result
         = map Fs.name (filter (kept currentPath) entries).

Lemma collectEntries_kept currentPath entries :
  list_all Fs.Node listsKept entries ->
  forallb Fs.readable entries = true ->
  forall result,
    exists result',
      collectEntries minimatch cwd currentPath rootPath excludePatterns
        entries result = Some result'
      /\ map BuildTree.name result'
         = (map BuildTree.name result
            ++ map Fs.name (filter (kept currentPath) entries))%list.
Proof.
  induction 1 as [|entry Hentry rest _ IH]; intros Hread result.
  - exists result. split; [reflexivity | now rewrite app_nil_r].
  - cbn [forallb] in Hread. apply andb_prop in Hread. destruct Hread as [He Hrest].
    cbn [collectEntries filter]. unfold kept at 1.
    destruct (shouldExclude minimatch excludePatterns
                (Path.relative cwd rootPath
                   (Path.join [currentPath; Fs.name entry]))); cbn [negb].
    + apply (IH Hrest).
    + assert (Hstep : forall item,
                 BuildTree.name item = Fs.name entry ->
                 exists result',
                   collectEntries minimatch cwd currentPath rootPath
                     excludePatterns rest (result ++ [item])%list = Some result'
                   /\ map BuildTree.name result'
                      = (map BuildTree.name result
                         ++ map Fs.name (entry :: filter (kept currentPath) rest))%list).
      { intros item Hname.
        destruct (IH Hrest (result ++ [item])%list) as (result' & Hr & Hn).
        exists result'. split; [exact Hr|].
        rewrite Hn, map_app, <- app_assoc. cbn [map app]. now rewrite Hname. }
      destruct entry as [n|n sub|n err]; cbn [Fs.isDirectory].
      * now apply Hstep.
      * destruct (Hentry (Path.join [currentPath; Fs.name (Fs.Dir n sub)]) n sub
                    eq_refl He) as (subtree & Hsub & _).
        rewrite Hsub. now apply Hstep.
      * discriminate He.
Qed.

Lemma buildTree_listsKept node : listsKept node.
Proof.
  induction node as [n|n entries IH|n err];
    intros currentPath name entries' Heq Hread; try discriminate.
  injection Heq as -> ->.
  rewrite buildTree_dir. rewrite readable_dir in Hread.
  destruct (collectEntries_kept currentPath entries' IH Hread [])
    as (result & Hr & Hn).
  exists result. split; [exact Hr | exact Hn].
Qed.

End Tree.

(** The directory the walker's tests build. *)
Definition testEntries : list Fs.Node :=
  [ Fs.Dir "src" [Fs.File "index.js"];
    Fs.Dir "node_modules" [Fs.File "module.js"];
    Fs.Dir ".git" [];
    Fs.Dir "nested" [Fs.Dir "node_modules" [Fs.File "deep.js"]];
    Fs.File ".env";
    Fs.File ".env.local";
    Fs.File "package.json" ].

Definition testDir : Fs.Node := Fs.Dir "filesystem-test" testEntries.

Definition listing (excludePatterns : list string) : option (list TreeEntry) :=
  buildTreeForTesting Minimatch.minimatch "/" "/tmp/filesystem-test" testDir
    "/tmp/filesystem-test" excludePatterns.

Definition names (tree : option (list TreeEntry)) : list string :=
  match tree with
  | Some entries => map name entries
  | None => []
  end.

Definition childNames (dir : string) (tree : option (list TreeEntry))
  : list string :=
  match tree with
  | Some entries =>
      match find (fun e => name e =? dir) entries with
      | Some e => names (children e)
      | None => []
      end
  | None => []
  end.

(** C8, as the code has it.  An entry is excluded exactly when some
    pattern of the list excludes its root-relative path: a pattern
    without [*] does when the path matches it, or [**/pattern], or
    [**/pattern/**]; a pattern with [*] does only when the path matches
    the pattern itself.  The listing of a readable directory has the
    entries that are not excluded, in their order.  So ["node_modules"]
    removes the top-level and the nested [node_modules] directory, and
    [".env"] leaves [.env.local]. *)
Theorem shouldExclude_forms :
  (forall (minimatch : string -> string -> bool)
          (excludePatterns : list string) (relativePath : string),
      shouldExclude minimatch excludePatterns relativePath = true
      <-> exists pattern,
            In pattern excludePatterns
            /\ if JsString.includesChar "*" pattern
               then minimatch relativePath pattern = true
               else matchesAnyForm minimatch relativePath pattern)
  /\ (forall (minimatch : string -> string -> bool)
             (cwd rootPath : string) (excludePatterns : list string)
             (currentPath name : string) (entries : list Fs.Node),
         Fs.readable (Fs.Dir name entries) = true ->
         exists result,
           buildTreeForTesting minimatch cwd currentPath (Fs.Dir name entries)
             rootPath excludePatterns = Some result
           /\ map BuildTree.name result
              = map Fs.name
                  (filter (kept minimatch cwd rootPath excludePatterns currentPath)
                          entries))
  /\ shouldExclude Minimatch.minimatch ["node_modules"] "node_modules" = true
  /\ shouldExclude Minimatch.minimatch ["node_modules"] "nested/node_modules" = true
  /\ shouldExclude Minimatch.minimatch [".env"] ".env" = true
  /\ shouldExclude Minimatch.minimatch [".env"] ".env.local" = false
  /\ names (listing ["node_modules"])
     = ["src"; ".git"; "nested"; ".env"; ".env.local"; "package.json"]
  /\ childNames "nested" (listing ["node_modules"]) = []
  /\ names (listing [".env"])
     = ["src"; "node_modules"; ".git"; "nested"; ".env.local"; "package.json"].
Proof.
  split; [|split; [|repeat split; reflexivity]].
  - intros minimatch excludePatterns relativePath.
    unfold shouldExclude. rewrite existsb_exists.
    split; intros (pattern & Hin & H); exists pattern; (split; [exact Hin|]).
    + destruct (JsString.includesChar "*" pattern) eqn:Hstar.
      * now rewrite patternExcludes_star in H.
      * now apply patternExcludes_plain.
    + destruct (JsString.includesChar "*" pattern) eqn:Hstar.
      * now rewrite patternExcludes_star.
      * now apply patternExcludes_plain.
  - intros minimatch cwd rootPath excludePatterns currentPath name entries Hread.
    now apply (buildTree_listsKept minimatch cwd rootPath excludePatterns
                 (Fs.Dir name entries) currentPath name entries).
Qed.

Lemma shouldExclude_forms_witness :
  exists result,
    buildTreeForTesting Minimatch.minimatch "/" "/tmp/filesystem-test"
      (Fs.Dir "filesystem-test" testEntries) "/tmp/filesystem-test"
      ["node_modules"] = Some result
    /\ map BuildTree.name result
       = map Fs.name
           (filter (kept Minimatch.minimatch "/" "/tmp/filesystem-test"
                         ["node_modules"] "/tmp/filesystem-test")
                   testEntries).
Proof.
  destruct shouldExclude_forms as (_ & Htree & _).
  apply Htree. reflexivity.
Defined.

(** A pattern with [*] is not tried in the nested forms: [*.js] leaves
    [src/index.js] in the tree although [**/*.js] matches it. *)
Lemma shouldExclude_star_pattern_only :
  shouldExclude Minimatch.minimatch ["*.js"] "src/index.js" = false
  /\ Minimatch.minimatch "src/index.js" ("**/" ++ "*.js") = true
  /\ childNames "src" (listing ["*.js"]) = ["index.js"].
Proof. repeat split; reflexivity. Qed.

(** The expectations of the walker's tests. *)
Example glob_pattern_test :
  names (listing ["*.env"])
  = ["src"; "node_modules"; ".git"; "nested"; ".env.local"; "package.json"].
Proof. reflexivity. Qed.

Example dot_files_test :
  names (listing [".git"])
  = ["src"; "node_modules"; "nested"; ".env"; ".env.local"; "package.json"].
Proof. reflexivity. Qed.

Example multiple_patterns_test :
  names (listing ["node_modules"; ".env"; ".git"])
  = ["src"; "nested"; ".env.local"; "package.json"].
Proof. reflexivity. Qed.

Example empty_patterns_test :
  names (listing [])
  = ["src"; "node_modules"; ".git"; "nested"; ".env"; ".env.local";
     "package.json"].
Proof. reflexivity. Qed.

End ExcludeFacts.

(* ------------------------------------------------------------------ *)
(** ** Sorting *)

Module SortFacts.
Import JsArray.

Section Comparator.
Context {A : Type} (compareFn : A -> A -> Z).

(** [a] may stand before [b]. *)
Definition before (a b : A) : Prop := (compareFn a b <= 0)%Z.

Lemma insert_perm (x : A) (l : list A) :
  Permutation (insert compareFn x l) (x :: l).
Proof.
  induction l as [|y l IH]; simpl; [reflexivity|].
  destruct (compareFn x y <=? 0)%Z; [reflexivity|].
  rewrite IH. apply perm_swap.
Qed.

Lemma sort_perm (l : list A) : Permutation (sort compareFn l) l.
Proof.
  induction l as [|x l IH]; simpl; [reflexivity|].
  rewrite insert_perm. now constructor.
Qed.

(** A consistent comparator, as [Array.prototype.sort] asks for. *)
Hypothesis before_total : forall a b, before a b \/ before b a.
Hypothesis before_trans : forall a b c, before a b -> before b c -> before a c.

Lemma insert_sorted (x : A) (l : list A) :
  StronglySorted before l -> StronglySorted before (insert compareFn x l).
Proof.
  induction 1 as [|y l Hl IH Hy]; simpl.
  - repeat constructor.
  - destruct (Z.leb_spec (compareFn x y) 0) as [Hxy|Hxy].
    + constructor; [now constructor|].
      constructor; [exact Hxy|].
      eapply Forall_impl; [|exact Hy]. intros z Hz. now apply before_trans with y.
    + constructor; [exact IH|].
      apply (Permutation_Forall (Permutation_sym (insert_perm x l))).
      constructor; [|exact Hy].
      destruct (before_total x y) as [H|H]; [unfold before in H; lia | exact H].
Qed.

Lemma sort_sorted (l : list A) : StronglySorted before (sort compareFn l).
Proof.
  induction l as [|x l IH]; simpl; [constructor | now apply insert_sorted].
Qed.
End Comparator.

End SortFacts.

(* ------------------------------------------------------------------ *)
(** ** The directory walk *)

Module WalkFacts.
Import ListFiles.
Local Open Scope Z_scope.

(** Every value the state object has held, the most recent first. *)
Definition allStates (b : Budget) : list TraversalState :=
  state b :: past b.

(** The two assignments the walk makes to its state object:
    [state.truncated = true], and [state.count++] while the flag is down
    and the count is below the limit. *)
Inductive assignment (s : TraversalState) : TraversalState -> Prop :=
| assign_truncated :
    assignment s {| count := count s; limit := limit s; truncated := true |}
| assign_count :
    truncated s = false -> count s < limit s ->
    assignment s {| count := count s + 1; limit := limit s;
                    truncated := truncated s |}.

(** [b'] is [b] after some assignments of the walk. *)
Inductive Steps (b : Budget) : Budget -> Prop :=
| steps_none : Steps b b
| steps_write b' s :
    Steps b b' -> assignment (state b') s -> Steps b (write b' s).

Lemma Steps_trans a b c : Steps a b -> Steps b c -> Steps a c.
Proof. induction 2; [assumption | now constructor]. Qed.

Lemma Steps_setTruncated b : Steps b (setTruncated b).
Proof. unfold setTruncated. repeat constructor. Qed.

Lemma Steps_incrementCount b :
  truncated (state b) = false -> limitReached b = false ->
  Steps b (incrementCount b).
Proof.
  unfold limitReached, incrementCount. intros Ht Hl.
  apply Z.leb_gt in Hl. constructor; [constructor | now constructor].
Qed.

Definition withinLimit (s : TraversalState) : Prop := count s <= limit s.

(** Once a state has the flag up, every later state has the same count
    and the flag up. *)
Definition frozenAfterTruncation (states : list TraversalState) : Prop :=
  forall newer s older,
    states = (newer ++ s :: older)%list ->
    truncated s = true ->
    Forall (fun s' => count s' = count s /\ truncated s' = true) newer.

Lemma assignment_withinLimit s s' :
  assignment s s' -> withinLimit s -> withinLimit s'.
Proof. unfold withinLimit. destruct 1; simpl; lia. Qed.

Lemma assignment_limit s s' : assignment s s' -> limit s' = limit s.
Proof. now destruct 1. Qed.

Lemma assignment_frozen s s' :
  assignment s s' -> truncated s = true ->
  count s' = count s /\ truncated s' = true.
Proof. destruct 1; simpl; intros; [auto | congruence]. Qed.

Lemma Steps_withinLimit b b' :
  Steps b b' -> Forall withinLimit (allStates b) ->
  Forall withinLimit (allStates b').
Proof.
  induction 1 as [|b' s _ IH Ha]; intros Hb; [assumption|].
  specialize (IH Hb). unfold allStates in *. simpl.
  constructor; [|exact IH].
  inversion IH; subst. eapply assignment_withinLimit; eauto.
Qed.

Lemma Steps_limit b b' (n : Z) :
  Steps b b' -> Forall (fun s => limit s = n) (allStates b) ->
  Forall (fun s => limit s = n) (allStates b').
Proof.
  induction 1 as [|b' s _ IH Ha]; intros Hb; [assumption|].
  specialize (IH Hb). unfold allStates in *. simpl.
  constructor; [|exact IH].
  inversion IH; subst. now rewrite (assignment_limit _ _ Ha).
Qed.

Lemma Steps_frozen b b' :
  Steps b b' -> frozenAfterTruncation (allStates b) ->
  frozenAfterTruncation (allStates b').
Proof.
  induction 1 as [|b' s _ IH Ha]; intros Hb; [assumption|].
  specialize (IH Hb). unfold allStates in *. simpl.
  intros newer t older Heq Ht.
  destruct newer as [|s0 newer]; [constructor|].
  simpl in Heq. injection Heq as <- Heq.
  pose proof (IH newer t older Heq Ht) as Hnewer.
  constructor; [|exact Hnewer].
  destruct newer as [|s1 newer]; simpl in Heq.
  - injection Heq as E _. rewrite E in Ha. now apply assignment_frozen.
  - injection Heq as E _. rewrite E in Ha.
    inversion Hnewer as [|? ? [Hc Htr] _]; subst.
    destruct (assignment_frozen _ _ Ha Htr). split; congruence.
Qed.

Lemma treeSize_app (l1 l2 : list DirectoryItem) :
  treeSize (l1 ++ l2) = treeSize l1 + treeSize l2.
Proof. induction l1; simpl; lia. Qed.

Lemma itemSize_children n d sub e :
  itemSize (mkItem n d (Some sub) e) = 1 + treeSize sub.
Proof.
  reflexivity.
Qed.

Lemma treeSize_insert (compareFn : DirectoryItem -> DirectoryItem -> Z) x l :
  treeSize (JsArray.insert compareFn x l) = itemSize x + treeSize l.
Proof.
  induction l as [|y l IH]; simpl; [reflexivity|].
  destruct (compareFn x y <=? 0); simpl; lia.
Qed.

Lemma treeSize_sort (compareFn : DirectoryItem -> DirectoryItem -> Z) l :
  treeSize (JsArray.sort compareFn l) = treeSize l.
Proof.
  induction l as [|x l IH]; simpl; [reflexivity|].
  rewrite treeSize_insert. lia.
Qed.

Section Walk.
Variable localeCompare : string -> string -> Z.

Abbreviation walk := (readDirectoryRecursive localeCompare).
Abbreviation loop := (processEntries localeCompare).

(** What one iteration does with its entry once it has been counted. *)
Definition visit (dirPath : string) (nested : bool) (entry : Fs.Node)
           (b : Budget) : DirectoryItem * Budget :=
  if Fs.isDirectory entry && nested then
    match walk (Path.join [dirPath; Fs.name entry]) entry nested b with
    | (Ok sub, b) => (mkItem (Fs.name entry) true (Some sub) None, b)
    | (Throw e, b) =>
        (mkItem (Fs.name entry) true None (Some (errorMessage e)), b)
    end
  else (mkItem (Fs.name entry) (Fs.isDirectory entry) None None, b).

Lemma walk_dir dirPath name entries nested b :
  walk dirPath (Fs.Dir name entries) nested b
  = if truncated (state b) || limitReached b then (Ok [], setTruncated b)
    else
      let '(items, b') := loop dirPath nested entries [] b in
      (Ok (JsArray.sort (compareItems localeCompare) items), b').
Proof. reflexivity. Qed.

Lemma walk_unreadable dirPath name err nested b :
  walk dirPath (Fs.Unreadable name err) nested b
  = if truncated (state b) || limitReached b then (Ok [], setTruncated b)
    else (Throw (readdirFailure dirPath err), b).
Proof. reflexivity. Qed.

Lemma walk_file dirPath name nested b :
  walk dirPath (Fs.File name) nested b
  = if truncated (state b) || limitReached b then (Ok [], setTruncated b)
    else (Throw (readdirFailure dirPath Fs.ENOTDIR), b).
Proof. reflexivity. Qed.

Lemma loop_cons dirPath nested entry rest items b :
  loop dirPath nested (entry :: rest) items b
  = if limitReached b then (items, setTruncated b)
    else
      let '(item, b2) := visit dirPath nested entry (incrementCount b) in
      if truncated (state b2) then ((items ++ [item])%list, b2)
      else loop dirPath nested rest (items ++ [item])%list b2.
Proof. reflexivity. Qed.

(** *** The budget along a walk *)

(** A call leaves the state object as some assignments of the walk
    made it, and returns as many items as it counted. *)
Definition accounted (node : Fs.Node) : Prop :=
  forall dirPath nested b,
    let r := walk dirPath node nested b in
    Steps b (snd r)
    /\ match fst r with
       | Ok items => treeSize items = count (state (snd r)) - count (state b)
       | Throw _ => snd r = b
       end.

Lemma accounted_entry_test b :
  truncated (state b) || limitReached b = false ->
  truncated (state b) = false /\ limitReached b = false.
Proof. now intros H%orb_false_iff. Qed.

Lemma visit_accounted dirPath nested entry b :
  accounted entry ->
  let r := visit dirPath nested entry b in
  Steps b (snd r) /\ itemSize (fst r) = 1 + count (state (snd r)) - count (state b).
Proof.
  intros Hentry. unfold visit.
  destruct (Fs.isDirectory entry && nested).
  - specialize (Hentry (Path.join [dirPath; Fs.name entry]) nested b).
    destruct (walk (Path.join [dirPath; Fs.name entry]) entry nested b)
      as [[sub|e] b2]; cbn [fst snd] in *; destruct Hentry as [Hs Hr].
    + split; [exact Hs|]. rewrite itemSize_children. lia.
    + subst b2. split; [apply steps_none | cbn [itemSize]; lia].
  - cbn [fst snd]. split; [apply steps_none | cbn [itemSize]; lia].
Qed.

Lemma loop_accounted dirPath nested entries :
  list_all Fs.Node accounted entries ->
  forall items b,
    truncated (state b) = false ->
    let r := loop dirPath nested entries items b in
    Steps b (snd r)
    /\ treeSize (fst r) = treeSize items + count (state (snd r)) - count (state b).
Proof.
  induction 1 as [|entry Hentry rest _ IH]; intros items b Htr.
  - cbn. split; [apply steps_none | lia].
  - rewrite loop_cons.
    destruct (limitReached b) eqn:Hlim.
    + cbn. split; [apply Steps_setTruncated | lia].
    + pose proof (Steps_incrementCount b Htr Hlim) as Hinc.
      pose proof (visit_accounted dirPath nested entry (incrementCount b) Hentry)
        as Hvisit.
      assert (Hcount : count (state (incrementCount b)) = count (state b) + 1)
        by reflexivity.
      destruct (visit dirPath nested entry (incrementCount b)) as [item b2].
      cbn [fst snd] in Hvisit. destruct Hvisit as [Hs Hsize].
      assert (Hone : treeSize (items ++ [item]) = treeSize items + itemSize item).
      { rewrite treeSize_app. cbn [treeSize]. lia. }
      destruct (truncated (state b2)) eqn:Htr2.
      * cbn [fst snd]. split; [eapply Steps_trans; eauto | lia].
      * specialize (IH (items ++ [item])%list b2 Htr2).
        destruct (loop dirPath nested rest (items ++ [item])%list b2)
          as [items' b3]. cbn [fst snd] in *. destruct IH as [Hs3 Hsize3].
        split; [|lia].
        eapply Steps_trans; [exact Hinc|]. eapply Steps_trans; eauto.
Qed.

Lemma walk_accounted node : accounted node.
Proof.
  induction node as [name|name entries IH|name err]; intros dirPath nested b.
  - rewrite walk_file.
    destruct (truncated (state b) || limitReached b); cbn.
    + split; [apply Steps_setTruncated | lia].
    + split; [apply steps_none | reflexivity].
  - rewrite walk_dir.
    destruct (truncated (state b) || limitReached b) eqn:Htest.
    + cbn. split; [apply Steps_setTruncated | lia].
    + apply accounted_entry_test in Htest. destruct Htest as [Htr _].
      pose proof (loop_accounted dirPath nested entries IH [] b Htr) as H.
      destruct (loop dirPath nested entries [] b) as [items b'].
      cbn [fst snd] in *.
      destruct H as [Hs Hsize]. split; [exact Hs|].
      rewrite treeSize_sort, Hsize. cbn [treeSize]. lia.
  - rewrite walk_unreadable.
    destruct (truncated (state b) || limitReached b); cbn.
    + split; [apply Steps_setTruncated | lia].
    + split; [apply steps_none | reflexivity].
Qed.

(** The item of an entry that is not descended into. *)
Definition plainItem (entry : Fs.Node) : DirectoryItem :=
  mkItem (Fs.name entry) (Fs.isDirectory entry) None None.

(** A flat listing with budget to spare has every entry, in the
    order [fs.readdir] gave them. *)
Lemma loop_flat dirPath entries :
  forall items b,
    truncated (state b) = false ->
    count (state b) + Z.of_nat (length entries) <= limit (state b) ->
    fst (loop dirPath false entries items b)
    = (items ++ map plainItem entries)%list.
Proof.
  induction entries as [|entry rest IH]; intros items b Htr Hroom.
  - cbn. now rewrite app_nil_r.
  - rewrite loop_cons.
    assert (Hlim : limitReached b = false).
    { unfold limitReached. apply Z.leb_gt. cbn [length] in Hroom. lia. }
    rewrite Hlim. unfold visit. rewrite andb_false_r.
    change (truncated (state (incrementCount b))) with (truncated (state b)).
    rewrite Htr, IH.
    + now rewrite <- app_assoc.
    + exact Htr.
    + cbn [length] in Hroom. cbn. lia.
Qed.

Definition freshState (maxEntries : Z) : Budget :=
  fresh {| count := 0; limit := maxEntries; truncated := false |}.

Lemma fresh_frozen (s : TraversalState) :
  truncated s = false -> frozenAfterTruncation (allStates (fresh s)).
Proof.
  intros Hs newer t older Heq Ht. unfold allStates, fresh in Heq. simpl in Heq.
  destruct newer as [|x newer]; [constructor|].
  destruct newer; discriminate.
Qed.

Lemma listFilesLogic_walk cwd st fs input absolutePath :
  State.resolvePath cwd st (path input) = Ok absolutePath ->
  listFilesLogic localeCompare cwd st fs input
  = match walk absolutePath (fs absolutePath) (includeNested input)
            (freshState (maxEntries input)) with
    | (Ok items, b) =>
        Ok {| items := items;
              requestedPath := path input;
              resolvedPath := absolutePath;
              itemCount := count (state b);
              truncatedFlag := truncated (state b) |}
    | (Throw e, _) => Throw e
    end.
Proof. intros H. unfold listFilesLogic. now rewrite H. Qed.

(** C6.  In one [listFilesLogic] call the state object never holds a
    count above its limit; once it holds the flag [truncated], its
    count stays as it is; the call returns that count, which is the
    number of items of the returned tree at all levels, so no entry is
    in the tree that was not counted before the flag went up.  A call
    entered with the flag up returns the empty list, and a loop whose
    entry comes back with the flag up ends with that entry, whatever
    entries are left.  With a limit of 2 a directory of five files
    gives count 2 and [truncated]. *)
Theorem traversal_budget cwd st fs input absolutePath :
  0 < maxEntries input ->
  State.resolvePath cwd st (path input) = Ok absolutePath ->
  let r := walk absolutePath (fs absolutePath) (includeNested input)
             (freshState (maxEntries input)) in
  Forall (fun s => count s <= limit s /\ limit s = maxEntries input)
         (allStates (snd r))
  /\ frozenAfterTruncation (allStates (snd r))
  /\ (forall out,
        listFilesLogic localeCompare cwd st fs input = Ok out ->
        itemCount out = count (state (snd r))
        /\ truncatedFlag out = truncated (state (snd r))
        /\ itemCount out <= maxEntries input
        /\ treeSize (items out) = itemCount out)
  /\ (forall dirPath node nested b,
        truncated (state b) = true ->
        walk dirPath node nested b = (Ok [], setTruncated b))
  /\ (forall dirPath nested entry rest items b,
        limitReached b = false ->
        let v := visit dirPath nested entry (incrementCount b) in
        truncated (state (snd v)) = true ->
        loop dirPath nested (entry :: rest) items b
        = ((items ++ [fst v])%list, snd v))
  /\ (forall name n1 n2 n3 n4 n5,
        maxEntries input = 2 ->
        fs absolutePath
        = Fs.Dir name [Fs.File n1; Fs.File n2; Fs.File n3; Fs.File n4;
                       Fs.File n5] ->
        exists out,
          listFilesLogic localeCompare cwd st fs input = Ok out
          /\ itemCount out = 2 /\ truncatedFlag out = true).
Proof.
  intros Hmax Hresolve r.
  pose proof (walk_accounted (fs absolutePath) absolutePath
                (includeNested input) (freshState (maxEntries input)))
    as [Hsteps Hsize].
  fold r in Hsteps, Hsize.
  assert (Hlimit : Forall (fun s => limit s = maxEntries input)
                     (allStates (snd r))).
  { eapply Steps_limit; [exact Hsteps|]. repeat constructor. }
  assert (Hwithin : Forall withinLimit (allStates (snd r))).
  { eapply Steps_withinLimit; [exact Hsteps|].
    repeat constructor. unfold withinLimit. simpl. lia. }
  split; [|split; [|split; [|split; [|split]]]].
  - apply Forall_forall. intros s Hs. rewrite Forall_forall in Hlimit, Hwithin.
    split; [apply (Hwithin s Hs) | apply (Hlimit s Hs)].
  - eapply Steps_frozen; [exact Hsteps | now apply fresh_frozen].
  - intros out Hout.
    rewrite (listFilesLogic_walk _ _ _ _ _ Hresolve) in Hout. fold r in Hout.
    inversion Hwithin as [|s0 l Hw0 _ Heq]. inversion Hlimit as [|s1 l1 Hl0 _ Heq1].
    unfold withinLimit in Hw0.
    destruct r as [[items|e] b']; [|discriminate].
    cbn [fst snd] in *. injection Hout as <-. cbn.
    repeat split; [lia | rewrite Hsize; cbn; lia].
  - intros dirPath node nested b Htr.
    destruct node; [rewrite walk_file | rewrite walk_dir | rewrite walk_unreadable];
      now rewrite Htr.
  - intros dirPath nested entry rest items b Hlim v Htr.
    rewrite loop_cons, Hlim. fold v.
    destruct v as [item b2]. cbn [fst snd] in *. now rewrite Htr.
  - intros name n1 n2 n3 n4 n5 Htwo Hfs.
    rewrite (listFilesLogic_walk _ _ _ _ _ Hresolve), Hfs, Htwo.
    eexists. repeat split.
Qed.

End Walk.

(** A directory of five files below the sandbox. *)
Definition fiveFiles (_ : string) : Fs.Node :=
  Fs.Dir "d" [Fs.File "1"; Fs.File "2"; Fs.File "3"; Fs.File "4"; Fs.File "5"].

Definition twoOfFive : ListFilesInput :=
  {| path := "/sandbox/d"; includeNested := false; maxEntries := 2 |}.

Lemma traversal_budget_witness :
  exists out,
    listFilesLogic (fun _ _ => 0) "/srv" ResolverFacts.sandboxed fiveFiles twoOfFive
    = Ok out
    /\ itemCount out = 2 /\ truncatedFlag out = true.
Proof.
  assert (Hmax : 0 < maxEntries twoOfFive) by (simpl; lia).
  assert (Hres : State.resolvePath "/srv" ResolverFacts.sandboxed (path twoOfFive)
                 = Ok "/sandbox/d") by reflexivity.
  destruct (traversal_budget (fun _ _ => 0) "/srv" ResolverFacts.sandboxed
              fiveFiles twoOfFive "/sandbox/d" Hmax Hres)
    as (_ & _ & _ & _ & _ & Hfive).
  apply (Hfive "d" "1" "2" "3" "4" "5"); reflexivity.
Defined.

End WalkFacts.

(* ------------------------------------------------------------------ *)
(** ** The order of a listing *)

Module OrderFacts.
Import ListFiles WalkFacts.
Local Open Scope Z_scope.

(** A collation by code units: one [localeCompare] a host may have. *)
Definition byCodeUnit (a b : string) : Z :=
  match String.compare a b with
  | Lt => -1
  | Eq => 0
  | Gt => 1
  end.

Lemma byCodeUnit_le (a b : string) :
  byCodeUnit a b <= 0 <-> a = b \/ String_as_OT.lt a b.
Proof.
  unfold byCodeUnit.
  pose proof (String_as_OT.cmp_eq a b) as He.
  pose proof (String_as_OT.cmp_lt a b) as Hl.
  pose proof (String_as_OT.cmp_lt b a) as Hg.
  pose proof (String_as_OT.cmp_antisym b a) as Ha.
  unfold String_as_OT.cmp in *.
  destruct (String.compare a b) eqn:Hc; split; intros H; try lia.
  - left. now apply He.
  - right. now apply Hl.
  - exfalso. simpl in Ha. apply Hg in Ha. destruct H as [->|H].
    + now apply (String_as_OT.lt_not_eq b b).
    + apply (String_as_OT.lt_not_eq a a); [|reflexivity].
      now apply String_as_OT.lt_trans with b.
Qed.

Lemma byCodeUnit_total (a b : string) :
  byCodeUnit a b <= 0 \/ byCodeUnit b a <= 0.
Proof.
  unfold byCodeUnit. rewrite (String.compare_antisym a b).
  destruct (String.compare b a); simpl; lia.
Qed.

Lemma byCodeUnit_trans (a b c : string) :
  byCodeUnit a b <= 0 -> byCodeUnit b c <= 0 -> byCodeUnit a c <= 0.
Proof.
  rewrite !byCodeUnit_le. intros [->|Hab] [->|Hbc]; auto.
  right. now apply String_as_OT.lt_trans with b.
Qed.

Section Order.
Variable localeCompare : string -> string -> Z.

Abbreviation walk := (readDirectoryRecursive localeCompare).
Abbreviation loop := (processEntries localeCompare).

(** [a] may stand before [b] in a listing: a directory before a
    file, and two of a kind by their names. *)
Definition listedBefore (a b : DirectoryItem) : Prop :=
  (isDirectory a = true /\ isDirectory b = false)
  \/ (isDirectory a = isDirectory b
      /\ localeCompare (name a) (name b) <= 0).

(** Every level below the item is in listing order. *)
Fixpoint itemOrdered (i : DirectoryItem) : Prop :=
  match i with
  | mkItem _ _ (Some sub) _ =>
      StronglySorted listedBefore sub
      /\ (fix each (l : list DirectoryItem) : Prop :=
            match l with
            | [] => True
            | x :: rest => itemOrdered x /\ each rest
            end) sub
  | mkItem _ _ None _ => True
  end.

(** A level and every level below it are in listing order. *)
Definition levelOrdered (l : list DirectoryItem) : Prop :=
  StronglySorted listedBefore l /\ Forall itemOrdered l.

Lemma itemOrdered_children n d sub e :
  itemOrdered (mkItem n d (Some sub) e) <-> levelOrdered sub.
Proof.
  unfold levelOrdered. cbn [itemOrdered].
  assert (H : (fix each (l : list DirectoryItem) : Prop :=
                 match l with
                 | [] => True
                 | x :: rest => itemOrdered x /\ each rest
                 end) sub <-> Forall itemOrdered sub).
  { induction sub as [|x sub IH].
    - split; constructor.
    - split.
      + intros [Hx Hrest]. constructor; [exact Hx | now apply IH].
      + intros Hall. inversion Hall; subst. split; [assumption | now apply IH]. }
  tauto.
Qed.

Lemma compareItems_listedBefore a b :
  compareItems localeCompare a b <= 0 <-> listedBefore a b.
Proof.
  unfold compareItems, listedBefore.
  destruct (isDirectory a), (isDirectory b); simpl; split; intros H;
    try lia; try tauto;
    try (destruct H as [[? ?]|[? ?]]; first [discriminate | assumption | lia]).
Qed.

Hypothesis localeCompare_total :
  forall a b, localeCompare a b <= 0 \/ localeCompare b a <= 0.
Hypothesis localeCompare_trans :
  forall a b c,
    localeCompare a b <= 0 -> localeCompare b c <= 0 -> localeCompare a c <= 0.

Lemma compareItems_total a b :
  SortFacts.before (compareItems localeCompare) a b
  \/ SortFacts.before (compareItems localeCompare) b a.
Proof.
  unfold SortFacts.before, compareItems.
  destruct (isDirectory a), (isDirectory b); simpl;
    first [apply localeCompare_total | lia].
Qed.

Lemma compareItems_trans a b c :
  SortFacts.before (compareItems localeCompare) a b ->
  SortFacts.before (compareItems localeCompare) b c ->
  SortFacts.before (compareItems localeCompare) a c.
Proof.
  unfold SortFacts.before, compareItems.
  destruct (isDirectory a), (isDirectory b), (isDirectory c); simpl;
    first [apply localeCompare_trans | lia].
Qed.

Lemma sort_listedBefore (l : list DirectoryItem) :
  StronglySorted listedBefore (JsArray.sort (compareItems localeCompare) l).
Proof.
  pose proof (SortFacts.sort_sorted (compareItems localeCompare)
                compareItems_total compareItems_trans l) as H.
  induction H as [|x l' _ IH Hx]; constructor; [exact IH|].
  eapply Forall_impl; [|exact Hx].
  intros y Hy. now apply compareItems_listedBefore.
Qed.

Lemma sort_levelOrdered (l : list DirectoryItem) :
  Forall itemOrdered l ->
  levelOrdered (JsArray.sort (compareItems localeCompare) l).
Proof.
  intros H. split; [apply sort_listedBefore|].
  apply (Permutation_Forall (Permutation_sym (SortFacts.sort_perm _ l)) H).
Qed.

(** Whatever a call returns is in listing order at every level. *)
Definition ordered (node : Fs.Node) : Prop :=
  forall dirPath nested b items,
    fst (walk dirPath node nested b) = Ok items -> levelOrdered items.

Lemma visit_ordered dirPath nested entry b :
  ordered entry -> itemOrdered (fst (visit localeCompare dirPath nested entry b)).
Proof.
  intros Hentry. unfold visit.
  destruct (Fs.isDirectory entry && nested); [|exact I].
  specialize (Hentry (Path.join [dirPath; Fs.name entry]) nested b).
  destruct (walk (Path.join [dirPath; Fs.name entry]) entry nested b)
    as [[sub|e] b2]; cbn [fst] in *; [|exact I].
  apply itemOrdered_children. now apply Hentry.
Qed.

Lemma loop_ordered dirPath nested entries :
  list_all Fs.Node ordered entries ->
  forall items b,
    Forall itemOrdered items ->
    Forall itemOrdered (fst (loop dirPath nested entries items b)).
Proof.
  induction 1 as [|entry Hentry rest _ IH]; intros items b Hitems.
  - exact Hitems.
  - rewrite loop_cons.
    destruct (limitReached b); [exact Hitems|].
    pose proof (visit_ordered dirPath nested entry (incrementCount b) Hentry)
      as Hvisit.
    destruct (visit localeCompare dirPath nested entry (incrementCount b))
      as [item b2]. cbn [fst] in Hvisit.
    assert (Hmore : Forall itemOrdered (items ++ [item])).
    { apply Forall_app. split; [exact Hitems | now constructor]. }
    destruct (truncated (state b2)); [exact Hmore | now apply IH].
Qed.

Lemma walk_ordered node : ordered node.
Proof.
  induction node as [name|name entries IH|name err];
    intros dirPath nested b items.
  - rewrite walk_file.
    destruct (truncated (state b) || limitReached b); cbn [fst];
      [|discriminate].
    intros [= <-]. split; constructor.
  - rewrite walk_dir.
    destruct (truncated (state b) || limitReached b); cbn [fst].
    + intros [= <-]. split; constructor.
    + pose proof (loop_ordered dirPath nested entries IH [] b (Forall_nil _))
        as Hloop.
      destruct (loop dirPath nested entries [] b) as [collected b'].
      cbn [fst] in *. intros [= <-]. now apply sort_levelOrdered.
  - rewrite walk_unreadable.
    destruct (truncated (state b) || limitReached b); cbn [fst];
      [|discriminate].
    intros [= <-]. split; constructor.
Qed.

(** C7.  Every level of the tree a listing returns has its directories
    before its files, and each of the two groups in the order of the
    names; [b.txt], [a.txt] and the directory [subdir] are listed as
    [subdir], [a.txt], [b.txt]. *)
Theorem listing_order :
  (forall dirPath node nested b items,
      fst (walk dirPath node nested b) = Ok items -> levelOrdered items)
  /\ (0 < localeCompare "b.txt" "a.txt" ->
      forall dirPath dir sub maxEntries,
        3 <= maxEntries ->
        exists items,
          fst (walk dirPath
                 (Fs.Dir dir [Fs.File "b.txt"; Fs.File "a.txt";
                              Fs.Dir "subdir" sub])
                 false (freshState maxEntries)) = Ok items
          /\ map name items = ["subdir"; "a.txt"; "b.txt"]).
Proof.
  split.
  - intros dirPath node. apply walk_ordered.
  - intros Hba dirPath dir sub maxEntries Hmax.
    rewrite walk_dir.
    assert (Htest : truncated (state (freshState maxEntries))
                    || limitReached (freshState maxEntries) = false).
    { unfold limitReached. cbn. apply Z.leb_gt. lia. }
    rewrite Htest.
    pose proof (loop_flat localeCompare dirPath
                  [Fs.File "b.txt"; Fs.File "a.txt"; Fs.Dir "subdir" sub]
                  [] (freshState maxEntries) eq_refl) as Hflat.
    destruct (loop dirPath false _ [] (freshState maxEntries))
      as [collected b'].
    cbn [fst] in *. rewrite Hflat by (cbn; lia).
    eexists. split; [reflexivity|].
    assert (Hleb : (localeCompare "b.txt" "a.txt" <=? 0) = false)
      by (apply Z.leb_gt; lia).
    unfold plainItem, compareItems. cbn -[Z.leb].
    change (1 <=? 0) with false. cbn -[Z.leb].
    change (1 <=? 0) with false. cbn -[Z.leb].
    now rewrite Hleb.
Qed.

End Order.

Lemma listing_order_witness :
  exists items,
    fst (readDirectoryRecursive byCodeUnit "/sandbox/d"
           (Fs.Dir "d" [Fs.File "b.txt"; Fs.File "a.txt"; Fs.Dir "subdir" []])
           false (freshState 50)) = Ok items
    /\ map name items = ["subdir"; "a.txt"; "b.txt"].
Proof.
  destruct (listing_order byCodeUnit byCodeUnit_total byCodeUnit_trans)
    as [_ Hexample].
  apply Hexample; [reflexivity | lia].
Defined.

End OrderFacts.

(* ------------------------------------------------------------------ *)
(** ** Read failures *)

Module FailureFacts.
Import ListFiles WalkFacts.
Local Open Scope Z_scope.

Lemma errorMessage_readdirFailure dirPath err :
  errorMessage (readdirFailure dirPath err) = message (readdirFailure dirPath err).
Proof. destruct err; reflexivity. Qed.

(** The item of a directory whose listing failed. *)
Definition failedItem (dirPath name : string) (err : Fs.ReaddirError)
  : DirectoryItem :=
  mkItem name true None
         (Some (message (readdirFailure (Path.join [dirPath; name]) err))).

(** The number of entries at and below a node, the node included. *)
Fixpoint weight (node : Fs.Node) : Z :=
  match node with
  | Fs.Dir _ entries =>
      1 + (fix sum (l : list Fs.Node) : Z :=
             match l with
             | [] => 0
             | e :: rest => weight e + sum rest
             end) entries
  | Fs.File _ | Fs.Unreadable _ _ => 1
  end.

Fixpoint weights (entries : list Fs.Node) : Z :=
  match entries with
  | [] => 0
  | e :: rest => weight e + weights rest
  end.

Lemma weight_dir name entries :
  weight (Fs.Dir name entries) = 1 + weights entries.
Proof. reflexivity. Qed.

Lemma weight_positive node : 1 <= weight node.
Proof.
  induction node as [name|name entries IH|name err]; cbn [weight]; try lia.
  change ((fix sum (l : list Fs.Node) : Z :=
             match l with
             | [] => 0
             | e :: rest => weight e + sum rest
             end) entries) with (weights entries).
  induction IH as [|entry Hentry rest _ IHrest]; cbn [weights]; lia.
Qed.

Lemma weights_not_negative entries : 0 <= weights entries.
Proof.
  induction entries as [|entry rest IH]; cbn [weights]; [lia|].
  pose proof (weight_positive entry). lia.
Qed.

Section Walk.
Variable localeCompare : string -> string -> Z.

Abbreviation walk := (readDirectoryRecursive localeCompare).
Abbreviation loop := (processEntries localeCompare).
Abbreviation visit := (WalkFacts.visit localeCompare).

(** What a recursive listing is to show for an entry of the directory
    [dirPath]: a file as it is; a directory with the listing of its own
    entries, sorted; a directory that cannot be read with the message of
    the error and without children. *)
Fixpoint listed (dirPath : string) (entry : Fs.Node) {struct entry}
  : DirectoryItem :=
  match entry with
  | Fs.File name => mkItem name false None None
  | Fs.Dir name entries =>
      mkItem name true
        (Some (JsArray.sort (compareItems localeCompare)
                 ((fix each (l : list Fs.Node) : list DirectoryItem :=
                     match l with
                     | [] => []
                     | e :: rest =>
                         listed (Path.join [dirPath; name]) e :: each rest
                     end) entries)))
        None
  | Fs.Unreadable name err => failedItem dirPath name err
  end.

Lemma listed_dir dirPath name entries :
  listed dirPath (Fs.Dir name entries)
  = mkItem name true
      (Some (JsArray.sort (compareItems localeCompare)
               (map (listed (Path.join [dirPath; name])) entries)))
      None.
Proof. reflexivity. Qed.

Lemma walk_root_test maxEntries :
  0 < maxEntries ->
  truncated (state (freshState maxEntries))
  || limitReached (freshState maxEntries) = false.
Proof. intros H. unfold limitReached. cbn. apply Z.leb_gt. lia. Qed.

(** A readable directory is listed, whatever cannot be read below. *)
Lemma walk_dir_returns dirPath name entries nested b :
  exists items, fst (walk dirPath (Fs.Dir name entries) nested b) = Ok items.
Proof.
  rewrite walk_dir.
  destruct (truncated (state b) || limitReached b); [now eexists|].
  destruct (loop dirPath nested entries [] b). now eexists.
Qed.

(** One iteration on an entry, once counted, while the budget lasts
    for the entry and all that is below it. *)
Definition listedWithin (entry : Fs.Node) : Prop :=
  forall dirPath b,
    truncated (state b) = false ->
    count (state b) + (weight entry - 1) < limit (state b) ->
    let r := visit dirPath true entry b in
    fst r = listed dirPath entry
    /\ truncated (state (snd r)) = false
    /\ limit (state (snd r)) = limit (state b)
    /\ count (state (snd r)) = count (state b) + (weight entry - 1).

Lemma loop_listed dirPath entries :
  list_all Fs.Node listedWithin entries ->
  forall items b,
    truncated (state b) = false ->
    count (state b) + weights entries < limit (state b) ->
    let r := loop dirPath true entries items b in
    fst r = (items ++ map (listed dirPath) entries)%list
    /\ truncated (state (snd r)) = false
    /\ limit (state (snd r)) = limit (state b)
    /\ count (state (snd r)) = count (state b) + weights entries.
Proof.
  induction 1 as [|entry Hentry rest _ IH]; intros items b Htr Hroom.
  - cbn. rewrite app_nil_r. repeat split; [exact Htr | lia].
  - cbn [weights] in Hroom.
    pose proof (weight_positive entry) as Hw.
    pose proof (weights_not_negative rest) as Hrest.
    rewrite loop_cons.
    assert (Hlim : limitReached b = false)
      by (unfold limitReached; apply Z.leb_gt; lia).
    rewrite Hlim.
    assert (Hcount : count (state (incrementCount b)) = count (state b) + 1)
      by reflexivity.
    assert (Hlimit : limit (state (incrementCount b)) = limit (state b))
      by reflexivity.
    assert (Htr1 : truncated (state (incrementCount b)) = false) by exact Htr.
    assert (Hroom1 : count (state (incrementCount b)) + (weight entry - 1)
                     < limit (state (incrementCount b))) by lia.
    pose proof (Hentry dirPath (incrementCount b) Htr1 Hroom1) as Hvisit.
    cbv zeta in Hvisit.
    destruct (WalkFacts.visit localeCompare dirPath true entry
                (incrementCount b)) as [item b2].
    cbn [fst snd] in Hvisit. destruct Hvisit as (-> & Htr2 & Hlimit2 & Hcount2).
    rewrite Htr2.
    assert (Hroom2 : count (state b2) + weights rest < limit (state b2)) by lia.
    pose proof (IH (items ++ [listed dirPath entry])%list b2 Htr2 Hroom2)
      as Hloop.
    cbv zeta in Hloop |- *.
    destruct (processEntries localeCompare dirPath true rest
                (items ++ [listed dirPath entry])%list b2) as [items' b3].
    cbn [fst snd] in *. destruct Hloop as (-> & Htr3 & Hlimit3 & Hcount3).
    cbn [map weights]. rewrite <- app_assoc. cbn [app].
    repeat split; [exact Htr3 | lia | lia].
Qed.

Lemma visit_listed entry : listedWithin entry.
Proof.
  induction entry as [name|name entries IH|name err]; intros dirPath b Htr Hroom.
  - cbn. repeat split; first [assumption | lia].
  - rewrite weight_dir in Hroom.
    pose proof (weights_not_negative entries) as Hw.
    unfold WalkFacts.visit. cbn [Fs.isDirectory andb Fs.name].
    rewrite walk_dir.
    assert (Hlim : limitReached b = false)
      by (unfold limitReached; apply Z.leb_gt; lia).
    rewrite Htr, Hlim. cbn [orb].
    assert (Hroom' : count (state b) + weights entries < limit (state b))
      by lia.
    pose proof (loop_listed (Path.join [dirPath; name]) entries IH [] b Htr
                  Hroom') as Hloop.
    cbv zeta in Hloop.
    destruct (processEntries localeCompare (Path.join [dirPath; name]) true
                entries [] b) as [items b'].
    cbn [fst snd app] in *. destruct Hloop as (-> & Htr' & Hlimit' & Hcount').
    rewrite listed_dir, weight_dir. repeat split; [exact Htr' | lia | lia].
  - unfold WalkFacts.visit. cbn [Fs.isDirectory andb Fs.name].
    rewrite walk_unreadable.
    assert (Hlim : limitReached b = false)
      by (unfold limitReached; apply Z.leb_gt; cbn [weight] in Hroom; lia).
    rewrite Htr, Hlim. cbn [orb fst snd].
    rewrite errorMessage_readdirFailure. cbn [weight listed].
    repeat split; first [assumption | lia].
Qed.

(** A directory read within the budget: every entry is listed. *)
Lemma walk_listed dirPath name entries b :
  truncated (state b) = false ->
  count (state b) + weights entries < limit (state b) ->
  let r := walk dirPath (Fs.Dir name entries) true b in
  fst r = Ok (JsArray.sort (compareItems localeCompare)
                (map (listed dirPath) entries))
  /\ truncated (state (snd r)) = false
  /\ count (state (snd r)) = count (state b) + weights entries.
Proof.
  intros Htr Hroom.
  pose proof (weights_not_negative entries) as Hw.
  rewrite walk_dir.
  assert (Hlim : limitReached b = false)
    by (unfold limitReached; apply Z.leb_gt; lia).
  rewrite Htr, Hlim. cbn [orb].
  assert (Hall : list_all Fs.Node listedWithin entries).
  { clear. induction entries as [|e rest IH]; constructor;
      [apply visit_listed | exact IH]. }
  pose proof (loop_listed dirPath entries Hall [] b Htr Hroom) as Hloop.
  cbv zeta in Hloop |- *.
  destruct (processEntries localeCompare dirPath true entries [] b)
    as [items b'].
  cbn [fst snd app] in *. destruct Hloop as (-> & Htr' & _ & Hcount').
  repeat split; assumption.
Qed.

Lemma listed_unreadable dirPath name err :
  let item := listed dirPath (Fs.Unreadable name err) in
  ListFiles.name item = name
  /\ isDirectory item = true
  /\ children item = None
  /\ error item
     = Some (message (readdirFailure (Path.join [dirPath; name]) err)).
Proof. repeat split. Qed.


End Walk.

(** A directory with an unreadable subdirectory between a file and a
    subdirectory that can be read. *)
Definition partlyUnreadable (_ : string) : Fs.Node :=
  Fs.Dir "d"
    [ Fs.File "a.txt";
      Fs.Unreadable "locked" (Fs.OtherError "EACCES: permission denied");
      Fs.Dir "open" [Fs.File "z.txt"; Fs.Unreadable "gone" Fs.ENOENT] ].

Definition listAll : ListFilesInput :=
  {| path := "/sandbox/d"; includeNested := true; maxEntries := 50 |}.


End FailureFacts.

(* ================================================================== *)
(** * The rate limiter (src/utils/security/rateLimiter.ts)

    [Date.now()] is an argument of the operations that read the clock;
    times and counts are integers.  The [Map] of entries keeps its keys in
    the order they were first set. *)

Module RateLimiter.
Local Open Scope Z_scope.

Record RateLimitConfig : Type := mkConfig {
  windowMs : Z;
  maxRequests : Z;
  skipInDevelopment : bool;
  keyGenerator : option (string -> string)
}.

Record RateLimitEntry : Type := mkEntry {
  count : Z;
  resetTime : Z
}.

(** [Map<string, RateLimitEntry>] *)
Definition Limits : Type := list (string * RateLimitEntry).

(** [limits.get(key)] *)
Fixpoint get (limits : Limits) (key : string) : option RateLimitEntry :=
  match limits with
  | [] => None
  | (k, e) :: rest => if (k =? key)%string then Some e else get rest key
  end.

(** [limits.set(key, entry)] *)
Fixpoint set (limits : Limits) (key : string) (entry : RateLimitEntry)
  : Limits :=
  match limits with
  | [] => [(key, entry)]
  | (k, e) :: rest =>
      if (k =? key)%string then (key, entry) :: rest
      else (k, e) :: set rest key entry
  end.

(** The data of the [McpError] with code [RATE_LIMITED] that [check]
    throws; its message is the configured template with the wait time
    put in. *)
Record RateLimited : Type := mkRateLimited {
  waitTimeSeconds : Z;
  key : string;
  limit : Z;
  limitWindowMs : Z
}.

(** [Math.ceil(ms / 1000)] for an integer [ms]. *)
Definition ceilSeconds (ms : Z) : Z := - ((- ms) / 1000).

Definition limitKeyOf (config : RateLimitConfig) (key : string) : string :=
  match keyGenerator config with
  | Some generate => generate key
  | None => key
  end.

(** [check(key, context)] at time [now] in the environment
    [environment]: the entries afterwards, and the error if one is
    thrown. *)
Definition check (config : RateLimitConfig) (environment : string) (now : Z)
           (limits : Limits) (key : string) : Limits * option RateLimited :=
  if skipInDevelopment config && (environment =? "development")%string
  then (limits, None)
  else
    let limitKey := limitKeyOf config key in
    let startWindow :=
      (set limits limitKey {| count := 1; resetTime := now + windowMs config |},
       None) in
    match get limits limitKey with
    | None => startWindow
    | Some entry =>
        if resetTime entry <=? now then startWindow
        else if maxRequests config <=? count entry then
          (limits,
           Some {| waitTimeSeconds := ceilSeconds (resetTime entry - now);
                   key := limitKey;
                   limit := maxRequests config;
                   limitWindowMs := windowMs config |})
        else
          (set limits limitKey
               {| count := count entry + 1; resetTime := resetTime entry |},
           None)
    end.

(** [cleanupExpiredEntries()] at time [now]. *)
Definition cleanupExpiredEntries (now : Z) (limits : Limits) : Limits :=
  filter (fun '(_, entry) => negb (resetTime entry <=? now)) limits.

(** [reset()]; [dispose()] clears the entries in the same way. *)
Definition reset (limits : Limits) : Limits := [].

(** The fields a [Partial<RateLimitConfig>] carries, [None] for a field
    it leaves out. *)
Record ConfigUpdate : Type := mkUpdate {
  newWindowMs : option Z;
  newMaxRequests : option Z;
  newSkipInDevelopment : option bool;
  newKeyGenerator : option (option (string -> string))
}.

(** The configuration after [configure(update)]:
    [{ ...this.config, ...update }]. *)
Definition configure (config : RateLimitConfig) (update : ConfigUpdate)
  : RateLimitConfig :=
  {| windowMs :=
       match newWindowMs update with Some v => v | None => windowMs config end;
     maxRequests :=
       match newMaxRequests update with
       | Some v => v
       | None => maxRequests config
       end;
     skipInDevelopment :=
       match newSkipInDevelopment update with
       | Some v => v
       | None => skipInDevelopment config
       end;
     keyGenerator :=
       match newKeyGenerator update with
       | Some v => v
       | None => keyGenerator config
       end |}.

Record Status : Type := mkStatus {
  current : Z;
  statusLimit : Z;
  remaining : Z;
  statusResetTime : Z
}.

(** [getStatus(key)] *)
Definition getStatus (config : RateLimitConfig) (limits : Limits)
           (key : string) : option Status :=
  match get limits key with
  | None => None
  | Some entry =>
      Some {| current := count entry;
              statusLimit := maxRequests config;
              remaining := Z.max 0 (maxRequests config - count entry);
              statusResetTime := resetTime entry |}
  end.

(** Successive [check] calls for one key at the given times; the
    outcome of each ([true] when it returned) and the entries at the end. *)
Fixpoint checks (config : RateLimitConfig) (environment : string)
         (limits : Limits) (key : string) (times : list Z)
  : list bool * Limits :=
  match times with
  | [] => ([], limits)
  | now :: later =>
      let '(limits, thrown) := check config environment now limits key in
      let '(outcomes, limits) := checks config environment limits key later in
      (match thrown with None => true | Some _ => false end :: outcomes, limits)
  end.

End RateLimiter.

Module RateLimiterFacts.
Import RateLimiter.
Local Open Scope Z_scope.

(** The keys of the map are distinct. *)
Definition wellKeyed (limits : Limits) : Prop := NoDup (map fst limits).

(** The check is in force: not skipped for development. *)
Definition enforced (config : RateLimitConfig) (environment : string) : Prop :=
  skipInDevelopment config && (environment =? "development")%string = false.

Lemma get_set_same limits key entry : get (set limits key entry) key = Some entry.
Proof.
  induction limits as [|[k e] rest IH]; simpl.
  - now rewrite String.eqb_refl.
  - destruct (String.eqb_spec k key) as [->|N]; simpl.
    + now rewrite String.eqb_refl.
    + apply String.eqb_neq in N. now rewrite N.
Qed.

Lemma get_set_other limits key entry other :
  other <> key -> get (set limits key entry) other = get limits other.
Proof.
  intros Hother. induction limits as [|[k e] rest IH]; simpl.
  - destruct (String.eqb_spec key other) as [E|_]; [congruence | reflexivity].
  - destruct (String.eqb_spec k key) as [->|N]; simpl.
    + destruct (String.eqb_spec key other) as [E|_]; [congruence | reflexivity].
    + destruct (k =? other)%string; [reflexivity | exact IH].
Qed.

Lemma keys_set limits key entry :
  forall k, In k (map fst (set limits key entry)) <-> k = key \/ In k (map fst limits).
Proof.
  induction limits as [|[k0 e0] rest IH]; intros k; simpl.
  - intuition.
  - destruct (String.eqb_spec k0 key) as [->|N]; simpl.
    + intuition.
    + rewrite IH. intuition.
Qed.

Lemma wellKeyed_set limits key entry :
  wellKeyed limits -> wellKeyed (set limits key entry).
Proof.
  unfold wellKeyed. induction limits as [|[k e] rest IH]; simpl; intros H.
  - repeat constructor. intros [].
  - inversion H as [|? ? Hnotin Hrest]; subst.
    destruct (String.eqb_spec k key) as [->|N]; simpl.
    + now constructor.
    + constructor; [|now apply IH].
      rewrite keys_set. intros [E|Hin]; [congruence | contradiction].
Qed.

Lemma keys_cleanup now limits k :
  In k (map fst (cleanupExpiredEntries now limits)) -> In k (map fst limits).
Proof.
  unfold cleanupExpiredEntries.
  induction limits as [|[k0 e0] rest IH]; simpl; [trivial|].
  destruct (negb (resetTime e0 <=? now)); simpl; intuition.
Qed.

Lemma wellKeyed_cleanup now limits :
  wellKeyed limits -> wellKeyed (cleanupExpiredEntries now limits).
Proof.
  unfold wellKeyed, cleanupExpiredEntries.
  induction limits as [|[k e] rest IH]; simpl; intros H; [constructor|].
  inversion H as [|? ? Hnotin Hrest]; subst.
  destruct (negb (resetTime e <=? now)); simpl; [|now apply IH].
  constructor; [|now apply IH].
  intros Hin. apply Hnotin. now apply (keys_cleanup now).
Qed.

Lemma get_absent limits key : ~ In key (map fst limits) -> get limits key = None.
Proof.
  induction limits as [|[k e] rest IH]; simpl; intros H; [reflexivity|].
  destruct (String.eqb_spec k key) as [->|N]; [exfalso; auto|].
  apply IH. auto.
Qed.

(** What the map answers after a cleanup: the entry it had, unless that
    had expired. *)
Lemma get_cleanup now limits key :
  wellKeyed limits ->
  get (cleanupExpiredEntries now limits) key
  = match get limits key with
    | Some entry => if resetTime entry <=? now then None else Some entry
    | None => None
    end.
Proof.
  unfold wellKeyed.
  induction limits as [|[k e] rest IH]; simpl; intros H; [reflexivity|].
  inversion H as [|? ? Hnotin Hrest]; subst.
  destruct (String.eqb_spec k key) as [->|N].
  - destruct (resetTime e <=? now) eqn:Hexp; simpl.
    + apply get_absent. intros Hin. apply Hnotin. now apply (keys_cleanup now).
    + now rewrite String.eqb_refl.
  - destruct (resetTime e <=? now); simpl.
    + now apply IH.
    + apply String.eqb_neq in N. rewrite N. now apply IH.
Qed.

Lemma ceilSeconds_bounds (ms : Z) :
  0 < ms ->
  1 <= ceilSeconds ms
  /\ ms <= 1000 * ceilSeconds ms
  /\ 1000 * (ceilSeconds ms - 1) < ms.
Proof.
  intros Hpos. unfold ceilSeconds.
  pose proof (Z.div_mod (- ms) 1000 ltac:(lia)) as Hdm.
  pose proof (Z.mod_pos_bound (- ms) 1000 ltac:(lia)) as Hmod.
  lia.
Qed.

(** The number of calls that returned. *)
Definition allowed (outcomes : list bool) : Z :=
  Z.of_nat (length (filter (fun returned => returned) outcomes)).

Lemma check_enforced config environment now limits key :
  enforced config environment ->
  check config environment now limits key
  = let limitKey := limitKeyOf config key in
    let startWindow :=
      (set limits limitKey {| count := 1; resetTime := now + windowMs config |},
       None) in
    match get limits limitKey with
    | None => startWindow
    | Some entry =>
        if resetTime entry <=? now then startWindow
        else if maxRequests config <=? count entry then
          (limits,
           Some {| waitTimeSeconds := ceilSeconds (resetTime entry - now);
                   key := limitKey;
                   limit := maxRequests config;
                   limitWindowMs := windowMs config |})
        else
          (set limits limitKey
               {| count := count entry + 1; resetTime := resetTime entry |},
           None)
    end.
Proof. intros H. unfold check. now rewrite H. Qed.

(** Calls inside the window of an entry: they return until the count
    has reached the limit, and are refused from then on. *)
Lemma checks_in_window config environment key :
  enforced config environment ->
  forall times limits entry,
    get limits (limitKeyOf config key) = Some entry ->
    Forall (fun now => now < resetTime entry) times ->
    allowed (fst (checks config environment limits key times))
    = Z.min (Z.of_nat (length times))
            (Z.max 0 (maxRequests config - count entry)).
Proof.
  intros Henf. induction times as [|now later IH]; intros limits entry Hget Hin.
  - cbn. lia.
  - inversion Hin as [|? ? Hnow Hlater]; subst.
    cbn [checks]. rewrite (check_enforced _ _ _ _ _ Henf). cbn zeta. rewrite Hget.
    destruct (Z.leb_spec (resetTime entry) now) as [Hexp|_]; [lia|].
    destruct (Z.leb_spec (maxRequests config) (count entry)) as [Hfull|Hroom].
    + specialize (IH limits entry Hget Hlater).
      destruct (checks config environment limits key later) as [outcomes limits'].
      cbn [fst] in *. unfold allowed in *. cbn [filter]. rewrite IH.
      cbn [length]. lia.
    + pose proof (get_set_same limits (limitKeyOf config key)
                    {| count := count entry + 1; resetTime := resetTime entry |})
        as Hget'.
      specialize (IH _ _ Hget' Hlater).
      destruct (checks config environment
                  (set limits (limitKeyOf config key)
                     {| count := count entry + 1; resetTime := resetTime entry |})
                  key later) as [outcomes limits'].
      cbn [fst count resetTime] in *. unfold allowed in *. cbn [filter length].
      rewrite Nat2Z.inj_succ, IH. cbn [length]. lia.
Qed.


Definition perMinute : RateLimitConfig :=
  {| windowMs := 60000; maxRequests := 2; skipInDevelopment := false;
     keyGenerator := None |}.


(** X2.  When [check] throws, the entries are as they were, the wait
    time it reports is at least one second and is the least number of
    whole seconds that reaches the end of the window, and a call made
    that long afterwards (or later) returns and opens a new window. *)
Theorem wait_time_suffices config environment now limits key err :
  snd (check config environment now limits key) = Some err ->
  fst (check config environment now limits key) = limits
  /\ 1 <= waitTimeSeconds err
  /\ (exists entry,
        get limits (limitKeyOf config key) = Some entry
        /\ resetTime entry <= now + 1000 * waitTimeSeconds err
        /\ now + 1000 * (waitTimeSeconds err - 1) < resetTime entry)
  /\ (forall later,
        now + 1000 * waitTimeSeconds err <= later ->
        check config environment later limits key
        = (set limits (limitKeyOf config key)
               {| count := 1; resetTime := later + windowMs config |}, None)).
Proof.
  unfold check.
  destruct (skipInDevelopment config && (environment =? "development")%string);
    [discriminate|].
  cbn zeta.
  destruct (get limits (limitKeyOf config key)) as [entry|] eqn:Hget;
    [|discriminate].
  destruct (Z.leb_spec (resetTime entry) now) as [|Hopen]; [discriminate|].
  destruct (maxRequests config <=? count entry); [|discriminate].
  cbn [fst snd]. intros [= <-]. cbn [waitTimeSeconds].
  destruct (ceilSeconds_bounds (resetTime entry - now) ltac:(lia)) as (H1 & H2 & H3).
  split; [reflexivity|]. split; [exact H1|]. split.
  - exists entry. repeat split; lia.
  - intros later Hlater.
    destruct (Z.leb_spec (resetTime entry) later); [reflexivity | lia].
Qed.

Definition exhausted : Limits :=
  [("client", {| count := 2; resetTime := 61000 |})].

Lemma wait_time_suffices_witness :
  fst (check perMinute "production" 2500 exhausted "client") = exhausted
  /\ 1 <= 59
  /\ (exists entry,
        get exhausted (limitKeyOf perMinute "client") = Some entry
        /\ resetTime entry <= 2500 + 1000 * 59
        /\ 2500 + 1000 * (59 - 1) < resetTime entry)
  /\ (forall later,
        2500 + 1000 * 59 <= later ->
        check perMinute "production" later exhausted "client"
        = (set exhausted (limitKeyOf perMinute "client")
               {| count := 1; resetTime := later + windowMs perMinute |},
           None)).
Proof.
  apply (wait_time_suffices perMinute "production" 2500 exhausted "client"
           {| waitTimeSeconds := 59; key := "client"; limit := 2;
              limitWindowMs := 60000 |}).
  reflexivity.
Defined.

(** X3.  A call for one key leaves the entry of every other key as it
    was. *)
Theorem check_other_keys config environment now limits key other :
  other <> limitKeyOf config key ->
  get (fst (check config environment now limits key)) other = get limits other.
Proof.
  intros Hother. unfold check.
  destruct (skipInDevelopment config && (environment =? "development")%string);
    [reflexivity|].
  cbn zeta.
  destruct (get limits (limitKeyOf config key)) as [entry|];
    [|now apply get_set_other].
  destruct (resetTime entry <=? now); [now apply get_set_other|].
  destruct (maxRequests config <=? count entry);
    [reflexivity | now apply get_set_other].
Qed.

Lemma check_other_keys_witness :
  get (fst (check perMinute "production" 70000 exhausted "visitor")) "client"
  = get exhausted "client".
Proof.
  apply (check_other_keys perMinute "production" 70000 exhausted "visitor" "client").
  discriminate.
Defined.

(** X4.  Removing the expired entries changes nothing for the calls that
    follow: a call at that time or later has the same outcome, and leaves
    the same entry for its key, as without the cleanup. *)
Theorem cleanup_transparent config environment cleaned now limits key :
  enforced config environment ->
  wellKeyed limits ->
  cleaned <= now ->
  snd (check config environment now (cleanupExpiredEntries cleaned limits) key)
  = snd (check config environment now limits key)
  /\ get (fst (check config environment now
                 (cleanupExpiredEntries cleaned limits) key))
         (limitKeyOf config key)
     = get (fst (check config environment now limits key))
           (limitKeyOf config key).
Proof.
  intros Henf Hkeys Hlater.
  rewrite !(check_enforced _ _ _ _ _ Henf). cbn zeta.
  rewrite (get_cleanup cleaned limits _ Hkeys).
  destruct (get limits (limitKeyOf config key)) as [entry|] eqn:Hget.
  - destruct (Z.leb_spec (resetTime entry) cleaned) as [Hgone|Hkept].
    + destruct (Z.leb_spec (resetTime entry) now); [|lia].
      cbn [fst snd]. now rewrite !get_set_same.
    + destruct (resetTime entry <=? now).
      * cbn [fst snd]. now rewrite !get_set_same.
      * destruct (maxRequests config <=? count entry); cbn [fst snd].
        -- split; [reflexivity|].
           rewrite (get_cleanup cleaned limits _ Hkeys), Hget.
           destruct (Z.leb_spec (resetTime entry) cleaned); [lia | reflexivity].
        -- now rewrite !get_set_same.
  - cbn [fst snd]. now rewrite !get_set_same.
Qed.

Definition twoClients : Limits :=
  [("old", {| count := 2; resetTime := 5000 |});
   ("client", {| count := 1; resetTime := 61000 |})].

Lemma cleanup_transparent_witness :
  snd (check perMinute "production" 7000 (cleanupExpiredEntries 6000 twoClients) "old")
  = snd (check perMinute "production" 7000 twoClients "old")
  /\ get (fst (check perMinute "production" 7000
                 (cleanupExpiredEntries 6000 twoClients) "old"))
         (limitKeyOf perMinute "old")
     = get (fst (check perMinute "production" 7000 twoClients "old"))
           (limitKeyOf perMinute "old").
Proof.
  apply (cleanup_transparent perMinute "production" 6000 7000 twoClients "old").
  - reflexivity.
  - unfold wellKeyed. cbn. repeat constructor; cbn; intuition discriminate.
  - lia.
Defined.

(** What a limiter can hold: its configuration and its entries after
    the constructor and any calls of [check], [configure], [reset] and of
    the cleanup on its timer; [peak] is the largest [maxRequests] the
    limiter has had since its entries were last cleared. *)
Inductive reachable (environment : string)
  : Z -> RateLimitConfig -> Limits -> Prop :=
| reach_new config : reachable environment (maxRequests config) config []
| reach_check peak config limits now key :
    reachable environment peak config limits ->
    reachable environment peak config
      (fst (check config environment now limits key))
| reach_cleanup peak config limits now :
    reachable environment peak config limits ->
    reachable environment peak config (cleanupExpiredEntries now limits)
| reach_reset peak config limits :
    reachable environment peak config limits ->
    reachable environment (maxRequests config) config (reset limits)
| reach_configure peak config limits update :
    reachable environment peak config limits ->
    reachable environment
      (Z.max peak (maxRequests (configure config update)))
      (configure config update) limits.

Definition countsBounded (bound : Z) (limits : Limits) : Prop :=
  forall key entry,
    get limits key = Some entry ->
    1 <= count entry <= Z.max 1 bound.

Lemma countsBounded_set bound limits key entry :
  countsBounded bound limits ->
  1 <= count entry <= Z.max 1 bound ->
  countsBounded bound (set limits key entry).
Proof.
  intros Hall Hentry k e.
  destruct (String.eqb_spec k key) as [->|N].
  - rewrite get_set_same. now intros [= <-].
  - rewrite (get_set_other _ _ _ _ N). exact (Hall k e).
Qed.

Lemma reachable_invariant environment peak config limits :
  reachable environment peak config limits ->
  wellKeyed limits /\ maxRequests config <= peak /\ countsBounded peak limits.
Proof.
  induction 1 as [config
                  |peak config limits now key _ (Hkeys & Hpeak & Hcounts)
                  |peak config limits now _ (Hkeys & Hpeak & Hcounts)
                  |peak config limits _ _
                  |peak config limits update _ (Hkeys & Hpeak & Hcounts)].
  - split; [constructor|]. split; [lia|]. intros k e H; discriminate H.
  - split; [|split; [exact Hpeak|]]; unfold check;
      destruct (skipInDevelopment config
                && (environment =? "development")%string);
      try assumption; cbn zeta.
    + destruct (get limits (limitKeyOf config key)) as [entry|];
        [|now apply wellKeyed_set].
      destruct (resetTime entry <=? now); [now apply wellKeyed_set|].
      destruct (maxRequests config <=? count entry); cbn [fst];
        [assumption | now apply wellKeyed_set].
    + destruct (get limits (limitKeyOf config key)) as [entry|] eqn:Hget;
        [|apply countsBounded_set; [exact Hcounts | cbn; lia]].
      destruct (resetTime entry <=? now);
        [apply countsBounded_set; [exact Hcounts | cbn; lia]|].
      destruct (Z.leb_spec (maxRequests config) (count entry)) as [|Hroom];
        cbn [fst]; [exact Hcounts|].
      apply countsBounded_set; [exact Hcounts|].
      pose proof (Hcounts _ _ Hget). cbn. lia.
  - split; [now apply wellKeyed_cleanup|]. split; [exact Hpeak|].
    intros k e. rewrite (get_cleanup now limits k Hkeys).
    destruct (get limits k) as [entry|] eqn:Hget; [|discriminate].
    destruct (resetTime entry <=? now); [discriminate|].
    intros [= <-]. exact (Hcounts _ _ Hget).
  - split; [constructor|]. split; [lia|]. intros k e H; discriminate H.
  - split; [exact Hkeys|]. split; [lia|].
    intros k e Hget. specialize (Hcounts k e Hget). lia.
Qed.


(** Two calls under a limit of 2, then the limit lowered to 1. *)
Definition lowered : RateLimitConfig :=
  configure perMinute
    {| newWindowMs := None; newMaxRequests := Some 1;
       newSkipInDevelopment := None; newKeyGenerator := None |}.

Definition twoCalls : Limits :=
  fst (check perMinute "production" 2000
         (fst (check perMinute "production" 1000 [] "client")) "client").


(** After [configure] a count can stand above the limit in force. *)
Example status_above_limit :
  getStatus lowered twoCalls "client"
  = Some {| current := 2; statusLimit := 1; remaining := 0;
            statusResetTime := 61000 |}.
Proof. reflexivity. Qed.

End RateLimiterFacts.

(* ================================================================== *)
(** * Redaction for logging ([sanitizeForLogging], [redactSensitiveFields],
      [setSensitiveFields] of the [Sanitization] class)

    The values are the ones [structuredClone] copies without failing and
    the redaction tells apart: primitives, arrays and plain objects.
    [key.toLowerCase()] is a parameter. *)

Scheme All for prod.

Module Redaction.

Inductive Json : Type :=
| JNull
| JBool (b : bool)
| JNumber (n : Z)
| JString (s : string)
| JArray (items : list Json)
| JObject (fields : list (string * Json)).

(** [s.includes(sub)] *)
Fixpoint includes (s sub : string) : bool :=
  String.prefix sub s
  || match s with
     | String _ rest => includes rest sub
     | EmptyString => false
     end.

Definition REDACTED : Json := JString "[REDACTED]".

(** The initial value of [sensitiveFields]. *)
Definition defaultSensitiveFields : list string :=
  ["password"; "token"; "secret"; "key"; "apiKey"; "auth"; "credential";
   "jwt"; "ssn"; "credit"; "card"; "cvv"; "authorization"].

(** [[...new Set(l)]]: the first occurrence of each element, in order. *)
Fixpoint unique (seen l : list string) : list string :=
  match l with
  | [] => []
  | x :: rest =>
      if existsb (String.eqb x) seen then unique seen rest
      else x :: unique (x :: seen) rest
  end.

Section Fields.
Variable toLowerCase : string -> string.
Variable sensitiveFields : list string.

(** [sensitiveFields.some(field => key.toLowerCase().includes(field))] *)
Definition isSensitive (key : string) : bool :=
  let lowerKey := toLowerCase key in
  existsb (fun field => includes lowerKey field) sensitiveFields.

(** [redactSensitiveFields(obj)]: the value [obj] holds afterwards. *)
Fixpoint redactSensitiveFields (obj : Json) : Json :=
  match obj with
  | JArray items =>
      JArray ((fix each (l : list Json) : list Json :=
                 match l with
                 | [] => []
                 | item :: rest => redactSensitiveFields item :: each rest
                 end) items)
  | JObject fields =>
      JObject ((fix each (l : list (string * Json)) : list (string * Json) :=
                  match l with
                  | [] => []
                  | (key, value) :: rest =>
                      (key, if isSensitive key then REDACTED
                            else redactSensitiveFields value) :: each rest
                  end) fields)
  | primitive => primitive
  end.

(** [sanitizeForLogging(input)] *)
Definition sanitizeForLogging (input : Json) : Json :=
  match input with
  | JArray _ | JObject _ => redactSensitiveFields input
  | primitive => primitive
  end.

(** [setSensitiveFields(fields)]: the new value of [sensitiveFields]. *)
Definition setSensitiveFields (fields : list string) : list string :=
  unique [] (sensitiveFields ++ map toLowerCase fields).

End Fields.

End Redaction.

Module RedactionFacts.
Import Redaction.

Section Fields.
Variable toLowerCase : string -> string.
Variable sensitiveFields : list string.

Abbreviation sensitive := (isSensitive toLowerCase sensitiveFields).
Abbreviation redact := (redactSensitiveFields toLowerCase sensitiveFields).

(** No object at any depth holds a value other than the placeholder under
    a sensitive key. *)
Fixpoint redacted (v : Json) : Prop :=
  match v with
  | JArray items =>
      (fix each (l : list Json) : Prop :=
         match l with
         | [] => True
         | item :: rest => redacted item /\ each rest
         end) items
  | JObject fields =>
      (fix each (l : list (string * Json)) : Prop :=
         match l with
         | [] => True
         | (key, value) :: rest =>
             (if sensitive key then value = REDACTED else redacted value)
             /\ each rest
         end) fields
  | _ => True
  end.

Definition fieldRedacted (field : string * Json) : Prop :=
  if sensitive (fst field) then snd field = REDACTED else redacted (snd field).

Lemma redacted_array items : redacted (JArray items) <-> Forall redacted items.
Proof.
  cbn [redacted]. induction items as [|item rest IH].
  - split; constructor.
  - split.
    + intros [H Hrest]. constructor; [exact H | now apply IH].
    + intros H. inversion H; subst. split; [assumption | now apply IH].
Qed.

Lemma redacted_object fields :
  redacted (JObject fields) <-> Forall fieldRedacted fields.
Proof.
  cbn [redacted]. induction fields as [|[key value] rest IH].
  - split; constructor.
  - split.
    + intros [H Hrest]. constructor; [exact H | now apply IH].
    + intros H. inversion H; subst. split; [assumption | now apply IH].
Qed.

Lemma redact_array items : redact (JArray items) = JArray (map redact items).
Proof. reflexivity. Qed.

Definition redactField (field : string * Json) : string * Json :=
  (fst field, if sensitive (fst field) then REDACTED else redact (snd field)).

Lemma redact_object fields :
  redact (JObject fields) = JObject (map redactField fields).
Proof.
  cbn [redactSensitiveFields]. f_equal.
  induction fields as [|[key value] rest IH]; [reflexivity | now rewrite IH].
Qed.

Lemma redact_redacted v : redacted (redact v).
Proof.
  induction v as [| | | |items IH|fields IH]; try exact I.
  - rewrite redact_array. apply redacted_array.
    induction IH as [|item Hitem rest _ IHrest]; simpl; constructor; assumption.
  - rewrite redact_object. apply redacted_object.
    induction IH as [|[key value] Hfield rest _ IHrest]; simpl; constructor;
      [|assumption].
    unfold fieldRedacted, redactField. cbn [fst snd].
    destruct (sensitive key) eqn:Hs; rewrite ?Hs; [reflexivity|].
    now inversion Hfield.
Qed.

Lemma redact_fixed v : redacted v -> redact v = v.
Proof.
  induction v as [| | | |items IH|fields IH]; try reflexivity.
  - rewrite redacted_array, redact_array. intros Hall. f_equal.
    induction IH as [|item Hitem rest _ IHrest]; [reflexivity|].
    inversion Hall; subst. simpl. rewrite Hitem, IHrest; auto.
  - rewrite redacted_object, redact_object. intros Hall. f_equal.
    induction IH as [|[key value] Hfield rest _ IHrest]; [reflexivity|].
    inversion Hall as [|? ? Hone Hrest]; subst. simpl. rewrite IHrest by assumption.
    f_equal. unfold redactField, fieldRedacted in *. cbn [fst snd] in *.
    destruct (sensitive key); [now rewrite Hone|].
    inversion Hfield as [? Hkey ? Hvalue]. now rewrite Hvalue.
Qed.

Lemma sanitizeForLogging_redact v :
  sanitizeForLogging toLowerCase sensitiveFields v = redact v.
Proof. now destruct v. Qed.

(** X6.  In what [sanitizeForLogging] returns, no object at any depth
    holds anything but the placeholder under a key whose lower-case form
    contains a sensitive field name. *)
Theorem sanitizeForLogging_redacted (input : Json) :
  redacted (sanitizeForLogging toLowerCase sensitiveFields input).
Proof. rewrite sanitizeForLogging_redact. apply redact_redacted. Qed.

(** X7.  [sanitizeForLogging] returns a value without sensitive data as
    it is, so sanitizing twice gives what sanitizing once gives. *)
Theorem sanitizeForLogging_idempotent (input : Json) :
  (redacted input ->
   sanitizeForLogging toLowerCase sensitiveFields input = input)
  /\ sanitizeForLogging toLowerCase sensitiveFields
       (sanitizeForLogging toLowerCase sensitiveFields input)
     = sanitizeForLogging toLowerCase sensitiveFields input.
Proof.
  split.
  - intros H. rewrite sanitizeForLogging_redact. now apply redact_fixed.
  - rewrite !sanitizeForLogging_redact. apply redact_fixed, redact_redacted.
Qed.

Lemma unique_In seen l x :
  In x (unique seen l) <-> In x l /\ ~ In x seen.
Proof.
  revert seen. induction l as [|y rest IH]; intros seen; simpl; [tauto|].
  destruct (existsb (String.eqb y) seen) eqn:Hseen.
  - apply existsb_exists in Hseen. destruct Hseen as (z & Hz & Heq).
    apply String.eqb_eq in Heq. subst z.
    rewrite IH. split; [tauto|]. intros [[->|H] Hn]; tauto.
  - assert (Hy : ~ In y seen).
    { intros Hin. apply Bool.not_true_iff_false in Hseen. apply Hseen.
      apply existsb_exists. exists y. split; [exact Hin | apply String.eqb_refl]. }
    simpl. rewrite IH. simpl. split.
    + intros [->|[H Hn]]; [tauto|]. split; [tauto|]. intros Hin. apply Hn. now right.
    + intros [[->|H] Hn]; [now left|].
      destruct (String.eqb_spec y x) as [->|N]; [now left|].
      right. split; [exact H|]. intros [E|Hin]; [congruence | tauto].
Qed.

Lemma unique_NoDup seen l : NoDup (unique seen l).
Proof.
  revert seen. induction l as [|y rest IH]; intros seen; simpl; [constructor|].
  destruct (existsb (String.eqb y) seen); [apply IH|].
  constructor; [|apply IH].
  rewrite unique_In. intros [_ Hn]. apply Hn. now left.
Qed.

Lemma isSensitive_In fields key field :
  In field fields ->
  includes (toLowerCase key) field = true ->
  isSensitive toLowerCase fields key = true.
Proof.
  intros Hin Hinc. unfold isSensitive. apply existsb_exists. now exists field.
Qed.

(** X8.  After [setSensitiveFields] the list has no duplicates, every
    key that was sensitive still is, and so is every key whose lower-case
    form contains the lower-case form of one of the added names. *)
Theorem setSensitiveFields_extends (fields : list string) :
  let extended := setSensitiveFields toLowerCase sensitiveFields fields in
  NoDup extended
  /\ (forall key, sensitive key = true ->
                  isSensitive toLowerCase extended key = true)
  /\ (forall field key,
        In field fields ->
        includes (toLowerCase key) (toLowerCase field) = true ->
        isSensitive toLowerCase extended key = true).
Proof.
  unfold setSensitiveFields. cbn zeta. split; [apply unique_NoDup|]. split.
  - intros key Hs. unfold isSensitive in Hs. apply existsb_exists in Hs.
    destruct Hs as (field & Hin & Hinc).
    apply (isSensitive_In _ key field); [|exact Hinc].
    apply unique_In. split; [apply in_or_app; now left | tauto].
  - intros field key Hin Hinc.
    apply (isSensitive_In _ key (toLowerCase field)); [|exact Hinc].
    apply unique_In. split; [|tauto].
    apply in_or_app. right. now apply in_map.
Qed.

End Fields.

(** Lower case for the letters A to Z. *)
Definition lowerAscii (c : ascii) : ascii :=
  let n := nat_of_ascii c in
  if ((65 <=? n) && (n <=? 90))%nat then ascii_of_nat (n + 32) else c.

Definition toLowerAscii (s : string) : string :=
  JsString.mapChars lowerAscii s.

Definition request : Json :=
  JObject [ ("path", JString "/srv/a.txt");
            ("Authorization", JString "Bearer abc");
            ("nested", JArray [JObject [("apiKey", JString "k"); ("n", JNumber 1)]]) ].

Lemma sanitizeForLogging_idempotent_witness :
  sanitizeForLogging toLowerAscii defaultSensitiveFields
    (sanitizeForLogging toLowerAscii defaultSensitiveFields request)
  = sanitizeForLogging toLowerAscii defaultSensitiveFields request.
Proof.
  apply (sanitizeForLogging_idempotent toLowerAscii defaultSensitiveFields request).
Defined.

Example sanitizeForLogging_request :
  sanitizeForLogging toLowerAscii defaultSensitiveFields request
  = JObject [ ("path", JString "/srv/a.txt");
              ("Authorization", REDACTED);
              ("nested", JArray [JObject [("apiKey", REDACTED); ("n", JNumber 1)]]) ].
Proof. reflexivity. Qed.

Lemma setSensitiveFields_extends_witness :
  isSensitive toLowerAscii
    (setSensitiveFields toLowerAscii defaultSensitiveFields ["Session"])
    "sessionId" = true.
Proof.
  destruct (setSensitiveFields_extends toLowerAscii defaultSensitiveFields ["Session"])
    as (_ & _ & Hadded).
  apply (Hadded "Session"); [now left | reflexivity].
Defined.

End RedactionFacts.

(* ================================================================== *)
(** * What normalization keeps of a path *)

Module NormalizeFacts.
Import Path.

Lemma includesChar_app c a b :
  JsString.includesChar c (a ++ b)
  = JsString.includesChar c a || JsString.includesChar c b.
Proof. induction a as [|d a IH]; simpl; [reflexivity | now rewrite IH, orb_assoc]. Qed.

Lemma includesChar_concat c sep l :
  JsString.includesChar c (String.concat sep l) = true ->
  JsString.includesChar c sep = true
  \/ exists s, In s l /\ JsString.includesChar c s = true.
Proof.
  induction l as [|x l IH]; simpl; [discriminate|].
  destruct l as [|y l].
  - intros H. right. exists x. auto.
  - rewrite !includesChar_app, !orb_true_iff. intros [H|[H|H]].
    + right. exists x. auto.
    + now left.
    + destruct (IH H) as [Hs|(s & Hin & Hs)]; [now left|].
      right. exists s. split; [now right | exact Hs].
Qed.

Lemma split_chars c p seg :
  In seg (split p) -> JsString.includesChar c seg = true ->
  JsString.includesChar c p = true.
Proof.
  revert seg. induction p as [|d p IH]; simpl; intros seg Hin Hc.
  - destruct Hin as [<-|[]]. discriminate.
  - destruct (isPosixPathSeparator d).
    + destruct Hin as [<-|Hin]; [discriminate|].
      rewrite (IH seg Hin Hc). apply orb_true_r.
    + destruct (split p) as [|first rest] eqn:Hsplit.
      * destruct Hin as [<-|[]]. simpl in Hc. rewrite orb_false_r in Hc.
        now rewrite Hc.
      * destruct Hin as [<-|Hin].
        -- simpl in Hc. apply orb_true_iff in Hc. destruct Hc as [Hc|Hc].
           ++ now rewrite Hc.
           ++ rewrite (IH first (or_introl eq_refl) Hc). apply orb_true_r.
        -- rewrite (IH seg (or_intror Hin) Hc). apply orb_true_r.
Qed.

Lemma pushSegment_In allow stack seg s :
  In s (pushSegment allow stack seg) -> s = ".." \/ s = seg \/ In s stack.
Proof.
  unfold pushSegment.
  destruct (seg =? EmptyString); [auto|].
  destruct (seg =? "."); [auto|].
  destruct (seg =? "..").
  - destruct stack as [|top below].
    + destruct allow; simpl; intuition.
    + destruct (top =? ".."); [destruct allow|]; simpl; intuition.
  - simpl. intuition.
Qed.

Lemma fold_pushSegment_In allow segs stack s :
  In s (fold_left (pushSegment allow) segs stack) ->
  s = ".." \/ In s segs \/ In s stack.
Proof.
  revert stack. induction segs as [|seg segs IH]; intros stack; simpl; [auto|].
  intros H. destruct (IH _ H) as [E|[Hin|Hin]]; [auto | auto |].
  destruct (pushSegment_In _ _ _ _ Hin) as [E|[E|Hs]]; auto.
Qed.

Lemma normalizeSegments_In allow segs s :
  In s (normalizeSegments allow segs) -> s = ".." \/ In s segs.
Proof.
  unfold normalizeSegments. rewrite <- in_rev. intros H.
  destruct (fold_pushSegment_In _ _ _ _ H) as [E|[Hin|[]]]; auto.
Qed.

Lemma includesChar_cons c d s :
  JsString.includesChar c (String d s)
  = Ascii.eqb d c || JsString.includesChar c s.
Proof. reflexivity. Qed.

Lemma includesChar_nil c : JsString.includesChar c EmptyString = false.
Proof. reflexivity. Qed.

(** A character of a string made of separators and dots. *)
Lemma includesChar_dots c (lit : string) :
  (lit = "." \/ lit = "/" \/ lit = "./" \/ lit = "..") ->
  JsString.includesChar c lit = true ->
  c = "/"%char \/ c = "."%char.
Proof.
  intros [ -> | [ -> | [ -> | -> ] ] ];
    rewrite ?includesChar_cons, ?includesChar_nil, ?orb_false_r, ?orb_true_iff;
    intros H; repeat (destruct H as [H|H]);
    apply Ascii.eqb_eq in H; subst; auto.
Qed.

(** A character of [normalizeString p] is a separator, a dot, or a
    character of [p]. *)
Lemma normalizeString_chars c p allow :
  JsString.includesChar c (normalizeString p allow) = true ->
  c = "/"%char \/ c = "."%char \/ JsString.includesChar c p = true.
Proof.
  unfold normalizeString. intros H.
  destruct (includesChar_concat _ _ _ H) as [Hsep|(s & Hin & Hs)].
  - destruct (includesChar_dots c "/") as [E|E]; auto.
  - destruct (normalizeSegments_In _ _ _ Hin) as [->|Hsplit].
    + destruct (includesChar_dots c "..") as [E|E]; auto 6.
    + right. right. eapply split_chars; eauto.
Qed.

Lemma normalize_chars c p :
  JsString.includesChar c (normalize p) = true ->
  c = "/"%char \/ c = "."%char \/ JsString.includesChar c p = true.
Proof.
  unfold normalize.
  assert (Hlit : forall lit : string,
             (lit = "." \/ lit = "/" \/ lit = "./" \/ lit = "..") ->
             JsString.includesChar c lit = true ->
             c = "/"%char \/ c = "."%char \/ JsString.includesChar c p = true).
  { intros lit Hl H. destruct (includesChar_dots c lit Hl H); auto. }
  destruct (p =? EmptyString); [apply Hlit; auto|].
  destruct (normalizeString p (negb (isAbsolute p)) =? EmptyString).
  { destruct (isAbsolute p); [|destruct (JsString.endsWithChar "/" p)];
      apply Hlit; auto. }
  assert (Hq : forall tail : string,
             (tail = EmptyString \/ tail = "/") ->
             JsString.includesChar c
               (normalizeString p (negb (isAbsolute p)) ++ tail) = true ->
             c = "/"%char \/ c = "."%char \/ JsString.includesChar c p = true).
  { intros tail Htail H. rewrite includesChar_app in H.
    apply orb_true_iff in H. destruct H as [H|H].
    - eapply normalizeString_chars; eauto.
    - destruct Htail as [ -> | -> ]; [discriminate | apply (Hlit "/"); auto]. }
  destruct (JsString.endsWithChar "/" p); destruct (isAbsolute p) eqn:Habs;
    rewrite ?includesChar_app, ?orb_true_iff.
  - intros [H|[H|H]]; [apply (Hlit "/"); auto | | apply (Hlit "/"); auto].
    eapply normalizeString_chars; eauto.
  - intros [H|H]; [|apply (Hlit "/"); auto].
    eapply normalizeString_chars; eauto.
  - intros [H|H]; [apply (Hlit "/"); auto|].
    eapply normalizeString_chars; eauto.
  - intros H. eapply normalizeString_chars; eauto.
Qed.

Lemma replaceBackslashes_null s :
  JsString.includesChar JsString.NUL (JsString.replaceBackslashes s)
  = JsString.includesChar JsString.NUL s.
Proof.
  unfold JsString.replaceBackslashes.
  induction s as [|c s IH]; simpl; [reflexivity|]. rewrite IH. f_equal.
  unfold JsString.backslashToSlash.
  destruct (Ascii.eqb_spec c "\") as [->|_]; reflexivity.
Qed.

(** Normalizing puts no null byte into a path. *)
Lemma normalizeInput_null toPosix input :
  JsString.includesChar JsString.NUL input = false ->
  JsString.includesChar JsString.NUL (Sanitization.normalizeInput toPosix input)
  = false.
Proof.
  intros Hin. unfold Sanitization.normalizeInput.
  assert (Hn : JsString.includesChar JsString.NUL (normalize input) = false).
  { destruct (JsString.includesChar JsString.NUL (normalize input)) eqn:H;
      [|reflexivity].
    destruct (normalize_chars _ _ H) as [E|[E|E]];
      [discriminate E | discriminate E | congruence]. }
  destruct toPosix; [now rewrite replaceBackslashes_null | exact Hn].
Qed.

Lemma normalize_not_empty p : normalize p <> EmptyString.
Proof.
  unfold normalize.
  destruct (p =? EmptyString); [discriminate|].
  destruct (String.eqb_spec (normalizeString p (negb (isAbsolute p))) EmptyString)
    as [E|N].
  - destruct (isAbsolute p); [|destruct (JsString.endsWithChar "/" p)]; discriminate.
  - destruct (JsString.endsWithChar "/" p); destruct (isAbsolute p);
      try discriminate; [|exact N].
    destruct (normalizeString p (negb false)); [congruence | discriminate].
Qed.

Lemma fold_pushSegment_not_empty allow segs :
  forall stack,
    Forall (fun x => x <> EmptyString) stack ->
    Forall (fun x => x <> EmptyString) (fold_left (pushSegment allow) segs stack).
Proof.
  induction segs as [|seg segs IH]; intros stack Hst; simpl; [exact Hst|].
  apply IH. unfold pushSegment.
  destruct (String.eqb_spec seg EmptyString) as [|Hne]; [exact Hst|].
  destruct (seg =? "."); [exact Hst|].
  destruct (seg =? "..").
  - destruct stack as [|top below].
    + destruct allow; repeat constructor; discriminate.
    + inversion Hst; subst.
      destruct (top =? ".."); [destruct allow|]; auto.
      constructor; [discriminate | exact Hst].
  - now constructor.
Qed.

(** The segments [normalizeString] keeps are not empty and hold no
    separator. *)
Lemma normalizeSegments_plain allow p :
  Forall PathFacts.plain (normalizeSegments allow (split p)).
Proof.
  apply Forall_forall. intros s Hin. split.
  - unfold normalizeSegments in Hin. rewrite <- in_rev in Hin.
    pose proof (fold_pushSegment_not_empty allow (split p) [] (Forall_nil _))
      as Hall.
    rewrite Forall_forall in Hall. now apply Hall.
  - apply normalizeSegments_In in Hin. destruct Hin as [->|Hsplit]; [reflexivity|].
    pose proof (PathFacts.split_no_separator p) as Hall.
    rewrite Forall_forall in Hall. now apply Hall.
Qed.

Lemma isAbsolute_app_not_empty (q tail : string) :
  q <> EmptyString -> isAbsolute (q ++ tail) = isAbsolute q.
Proof. destruct q; [congruence | reflexivity]. Qed.

(** [path.normalize] keeps a path absolute or relative as it was. *)
Lemma normalize_isAbsolute p : isAbsolute (normalize p) = isAbsolute p.
Proof.
  unfold normalize.
  destruct (String.eqb_spec p EmptyString) as [->|Hp]; [reflexivity|].
  destruct (String.eqb_spec (normalizeString p (negb (isAbsolute p))) EmptyString)
    as [E|N].
  - destruct (isAbsolute p); [reflexivity|].
    destruct (JsString.endsWithChar "/" p); reflexivity.
  - destruct (isAbsolute p) eqn:Habs.
    + destruct (JsString.endsWithChar "/" p); reflexivity.
    + assert (Hq : isAbsolute (normalizeString p (negb false)) = false).
      { unfold normalizeString.
        apply PathFacts.concat_plain_not_absolute, normalizeSegments_plain. }
      destruct (JsString.endsWithChar "/" p); [|exact Hq].
      now rewrite isAbsolute_app_not_empty.
Qed.

End NormalizeFacts.

(* ================================================================== *)
(** * The session state: what [ServerState] keeps and returns *)

Module StateFacts.
Import Sanitization State.

Lemma replaceBackslashes_isAbsolute p :
  Path.isAbsolute p = true ->
  Path.isAbsolute (JsString.replaceBackslashes p) = true.
Proof.
  destruct p as [|c p]; [discriminate|]. simpl.
  unfold JsString.backslashToSlash, Path.isPosixPathSeparator.
  destruct (Ascii.eqb_spec c "/") as [->|]; [reflexivity | discriminate].
Qed.

Lemma normalizeInput_isAbsolute toPosix p :
  Path.isAbsolute p = true ->
  Path.isAbsolute (normalizeInput toPosix p) = true.
Proof.
  intros H. unfold normalizeInput.
  assert (Hn : Path.isAbsolute (Path.normalize p) = true)
    by now rewrite NormalizeFacts.normalize_isAbsolute.
  destruct toPosix; [now apply replaceBackslashes_isAbsolute | exact Hn].
Qed.

Lemma isAbsolute_not_empty p : Path.isAbsolute p = true -> p <> EmptyString.
Proof. destruct p; [discriminate | discriminate]. Qed.

(** What the sanitizer of this class does with an absolute path. *)
Lemma sanitizePath_absolute cwd input :
  Path.isAbsolute input = true ->
  sanitizePath cwd input absolutePosix
  = if JsString.includesChar JsString.NUL input
    then Throw (validationError "Path contains null byte, which is disallowed.")
    else Ok {| sanitizedPath := normalizeInput true input;
               originalInput := input;
               wasAbsolute := true;
               convertedToRelative := false;
               optionsUsed := effectiveOptions cwd absolutePosix |}.
Proof.
  intros Habs. unfold sanitizePath.
  destruct (String.eqb_spec input EmptyString) as [E|_];
    [now apply isAbsolute_not_empty in E|].
  destruct (JsString.includesChar JsString.NUL input); [reflexivity|].
  cbn [effectiveOptions absolutePosix rootDir toPosix allowAbsolute orFalse
       JsString.truthy].
  rewrite (normalizeInput_isAbsolute true input Habs).
  rewrite NormalizeFacts.normalize_isAbsolute, Habs.
  cbn [negb bind]. now rewrite (normalizeInput_isAbsolute true input Habs).
Qed.

(** X9.  [setDefaultFilesystemPath] succeeds exactly for an absolute path
    without a null byte; it then stores the normalized path, which is
    absolute again and has no null byte, and leaves the base directory as it
    was.  For any other path it throws [VALIDATION_ERROR]. *)
Theorem setDefaultFilesystemPath_outcome cwd st newPath :
  (Path.isAbsolute newPath = true ->
   JsString.includesChar JsString.NUL newPath = false ->
   setDefaultFilesystemPath cwd st newPath
   = Ok {| defaultFilesystemPath := Some (normalizeInput true newPath);
           fsBaseDirectory := fsBaseDirectory st |}
   /\ Path.isAbsolute (normalizeInput true newPath) = true
   /\ JsString.includesChar JsString.NUL (normalizeInput true newPath) = false)
  /\ (Path.isAbsolute newPath = false
      \/ JsString.includesChar JsString.NUL newPath = true ->
      exists e, setDefaultFilesystemPath cwd st newPath = Throw e
                /\ code e = VALIDATION_ERROR).
Proof.
  unfold setDefaultFilesystemPath. split.
  - intros Habs Hnul. rewrite Habs. cbn [negb].
    rewrite (sanitizePath_absolute cwd newPath Habs), Hnul.
    cbn [bind sanitizedPath]. repeat split.
    + now apply normalizeInput_isAbsolute.
    + now apply NormalizeFacts.normalizeInput_null.
  - intros H. destruct (Path.isAbsolute newPath) eqn:Habs; cbn [negb].
    + destruct H as [H|H]; [discriminate|].
      rewrite (sanitizePath_absolute cwd newPath Habs), H.
      eexists. split; reflexivity.
    + eexists. split; reflexivity.
Qed.

Lemma setDefaultFilesystemPath_outcome_witness :
  setDefaultFilesystemPath "/srv" (mkState None (Some "/sandbox")) "/sandbox//work/./"
  = Ok {| defaultFilesystemPath := Some (normalizeInput true "/sandbox//work/./");
          fsBaseDirectory := Some "/sandbox" |}
  /\ Path.isAbsolute (normalizeInput true "/sandbox//work/./") = true
  /\ JsString.includesChar JsString.NUL (normalizeInput true "/sandbox//work/./")
     = false.
Proof.
  destruct (setDefaultFilesystemPath_outcome "/srv" (mkState None (Some "/sandbox"))
              "/sandbox//work/./") as [Hok _].
  apply Hok; reflexivity.
Defined.

(** The default path, when there is one, is absolute. *)
Definition defaultAbsolute (st : ServerState) : Prop :=
  forall def, defaultFilesystemPath st = Some def -> Path.isAbsolute def = true.

Lemma truthy_Some o s : JsString.truthy o = Some s -> o = Some s.
Proof.
  destruct o as [t|]; simpl; [|discriminate].
  destruct (t =? EmptyString); [discriminate | congruence].
Qed.

Lemma join_isAbsolute def requestedPath :
  Path.isAbsolute def = true ->
  Path.isAbsolute (Path.join [def; requestedPath]) = true.
Proof.
  intros Habs. unfold Path.join. cbn [filter].
  destruct (String.eqb_spec def EmptyString) as [E|_];
    [now apply isAbsolute_not_empty in E|].
  cbn [negb].
  destruct (requestedPath =? EmptyString); cbn [negb];
    rewrite NormalizeFacts.normalize_isAbsolute; cbn [String.concat];
    [exact Habs|].
  rewrite NormalizeFacts.isAbsolute_app_not_empty; [exact Habs|].
  now apply isAbsolute_not_empty.
Qed.

Lemma candidatePath_isAbsolute st requestedPath absolutePath :
  defaultAbsolute st ->
  candidatePath st requestedPath = Ok absolutePath ->
  Path.isAbsolute absolutePath = true.
Proof.
  intros Hdef. unfold candidatePath.
  destruct (Path.isAbsolute requestedPath) eqn:Habs; [now intros [= <-]|].
  destruct (JsString.truthy (defaultFilesystemPath st)) as [def|] eqn:Ht;
    [|discriminate].
  intros [= <-]. apply join_isAbsolute, Hdef. now apply truthy_Some.
Qed.

(** [resolvePath] once the candidate is known. *)
Lemma resolvePath_of_candidate cwd st requestedPath absolutePath :
  defaultAbsolute st ->
  candidatePath st requestedPath = Ok absolutePath ->
  resolvePath cwd st requestedPath
  = if JsString.includesChar JsString.NUL absolutePath
    then Throw (validationError "Path contains null byte, which is disallowed.")
    else
      match JsString.truthy (fsBaseDirectory st) with
      | Some base =>
          if outsideBase base (normalizeInput true absolutePath)
          then Throw (accessDenied requestedPath)
          else Ok (normalizeInput true absolutePath)
      | None => Ok (normalizeInput true absolutePath)
      end.
Proof.
  intros Hdef Hc. unfold resolvePath. rewrite Hc. cbn [bind].
  unfold sanitizeAndConfine.
  rewrite (sanitizePath_absolute cwd absolutePath
             (candidatePath_isAbsolute _ _ _ Hdef Hc)).
  destruct (JsString.includesChar JsString.NUL absolutePath); reflexivity.
Qed.

Lemma resolvePath_no_candidate cwd st requestedPath e :
  candidatePath st requestedPath = Throw e ->
  resolvePath cwd st requestedPath = Throw e.
Proof. intros Hc. unfold resolvePath. now rewrite Hc. Qed.

(** X10.  While the default path is absolute, [resolvePath] is this
    function of its candidate (the requested path if absolute, else the
    default joined with it): without candidate it throws the missing-default
    error; a candidate with a null byte is rejected; a candidate outside an
    active base directory is refused with [FORBIDDEN]; otherwise the
    normalized candidate is returned. *)
Theorem resolvePath_closed_form cwd st requestedPath :
  defaultAbsolute st ->
  resolvePath cwd st requestedPath
  = match candidatePath st requestedPath with
    | Throw e => Throw e
    | Ok absolutePath =>
        if JsString.includesChar JsString.NUL absolutePath
        then Throw (validationError "Path contains null byte, which is disallowed.")
        else
          match JsString.truthy (fsBaseDirectory st) with
          | Some base =>
              if outsideBase base (normalizeInput true absolutePath)
              then Throw (accessDenied requestedPath)
              else Ok (normalizeInput true absolutePath)
          | None => Ok (normalizeInput true absolutePath)
          end
    end.
Proof.
  intros Hdef. unfold resolvePath.
  destruct (candidatePath st requestedPath) as [absolutePath|e] eqn:Hc;
    [|reflexivity].
  cbn [bind]. unfold sanitizeAndConfine.
  rewrite (sanitizePath_absolute cwd absolutePath
             (candidatePath_isAbsolute _ _ _ Hdef Hc)).
  destruct (JsString.includesChar JsString.NUL absolutePath); reflexivity.
Qed.

Lemma resolvePath_closed_form_witness :
  resolvePath "/srv" ResolverFacts.sandboxed "a\b/../c.txt"
  = Ok "/sandbox/work/c.txt".
Proof.
  rewrite (resolvePath_closed_form "/srv" ResolverFacts.sandboxed "a\b/../c.txt").
  - reflexivity.
  - intros def [= <-]. reflexivity.
Defined.

(** The states a session can be in. *)
Inductive reachable (cwd : string) : ServerState -> Prop :=
| reach_init configured : reachable cwd (init cwd configured)
| reach_set st newPath st' :
    reachable cwd st ->
    setDefaultFilesystemPath cwd st newPath = Ok st' ->
    reachable cwd st'
| reach_clear st :
    reachable cwd st -> reachable cwd (clearDefaultFilesystemPath st).

(** What a successful [setDefaultFilesystemPath] was given and stores. *)
Lemma setDefaultFilesystemPath_stored cwd st newPath st' :
  setDefaultFilesystemPath cwd st newPath = Ok st' ->
  Path.isAbsolute newPath = true
  /\ defaultFilesystemPath st' = Some (normalizeInput true newPath).
Proof.
  unfold setDefaultFilesystemPath.
  destruct (Path.isAbsolute newPath) eqn:Habs; cbn [negb]; [|discriminate].
  rewrite (sanitizePath_absolute cwd newPath Habs).
  destruct (JsString.includesChar JsString.NUL newPath); [discriminate|].
  cbn [bind sanitizedPath]. intros [= <-]. now split.
Qed.

Lemma reachable_defaultAbsolute cwd st : reachable cwd st -> defaultAbsolute st.
Proof.
  induction 1 as [configured|st newPath st' _ IH Hset|st _ IH].
  - intros def H. discriminate H.
  - apply setDefaultFilesystemPath_stored in Hset as [Habs Hstored].
    intros def Hdef. rewrite Hstored in Hdef.
    assert (E : def = normalizeInput true newPath) by congruence.
    rewrite E. now apply normalizeInput_isAbsolute.
  - intros def H. discriminate H.
Qed.

(** X11.  In every state a session can reach, a path that [resolvePath]
    returns is absolute and has no null byte, and an error it throws has
    the code [VALIDATION_ERROR], or [FORBIDDEN] when a base directory is
    active. *)
Theorem resolvePath_results cwd st requestedPath :
  reachable cwd st ->
  (forall p, resolvePath cwd st requestedPath = Ok p ->
     Path.isAbsolute p = true
     /\ JsString.includesChar JsString.NUL p = false)
  /\ (forall e, resolvePath cwd st requestedPath = Throw e ->
        code e = VALIDATION_ERROR
        \/ (code e = FORBIDDEN
            /\ exists base, JsString.truthy (fsBaseDirectory st) = Some base)).
Proof.
  intros Hreach.
  pose proof (reachable_defaultAbsolute _ _ Hreach) as Hdef.
  destruct (candidatePath st requestedPath) as [absolutePath|e0] eqn:Hc;
    [rewrite (resolvePath_of_candidate cwd _ _ _ Hdef Hc)
    |rewrite (resolvePath_no_candidate cwd _ _ _ Hc)].
  - pose proof (candidatePath_isAbsolute _ _ _ Hdef Hc) as Habs.
    destruct (JsString.includesChar JsString.NUL absolutePath) eqn:Hnul.
    + split; [discriminate|]. intros e [= <-]. now left.
    + assert (Hgood : Path.isAbsolute (normalizeInput true absolutePath) = true
                      /\ JsString.includesChar JsString.NUL
                           (normalizeInput true absolutePath) = false).
      { split; [now apply normalizeInput_isAbsolute
               | now apply NormalizeFacts.normalizeInput_null]. }
      destruct (JsString.truthy (fsBaseDirectory st)) as [base|].
      * destruct (outsideBase base (normalizeInput true absolutePath)).
        -- split; [discriminate|]. intros e [= <-]. right. split; eauto.
        -- split; [now intros p [= <-] | discriminate].
      * split; [now intros p [= <-] | discriminate].
  - split; [discriminate|]. intros e [= <-]. left.
    unfold candidatePath in Hc.
    destruct (Path.isAbsolute requestedPath); [discriminate|].
    destruct (JsString.truthy (defaultFilesystemPath st)); [discriminate|].
    now injection Hc as <-.
Qed.

Lemma resolvePath_results_witness :
  (forall p, resolvePath "/srv" (init "/srv" (Some "/sandbox")) "/sandbox/a" = Ok p ->
     Path.isAbsolute p = true
     /\ JsString.includesChar JsString.NUL p = false)
  /\ (forall e, resolvePath "/srv" (init "/srv" (Some "/sandbox")) "/sandbox/a"
                = Throw e ->
        code e = VALIDATION_ERROR
        \/ (code e = FORBIDDEN
            /\ exists base,
                 JsString.truthy (fsBaseDirectory (init "/srv" (Some "/sandbox")))
                 = Some base)).
Proof.
  apply (resolvePath_results "/srv" (init "/srv" (Some "/sandbox")) "/sandbox/a").
  apply reach_init.
Defined.

Lemma outsideBase_relative base p :
  Path.isAbsolute base = false ->
  Path.isAbsolute p = true ->
  outsideBase base p = true.
Proof.
  intros Hbase Hp. unfold outsideBase.
  pose proof (NormalizeFacts.normalize_isAbsolute base) as Hnb.
  pose proof (NormalizeFacts.normalize_isAbsolute p) as Hnp.
  pose proof (NormalizeFacts.normalize_not_empty base) as Hne.
  rewrite Hbase in Hnb. rewrite Hp in Hnp.
  destruct (Path.normalize base) as [|b nb]; [congruence|].
  destruct (Path.normalize p) as [|c np]; [discriminate|].
  simpl in Hnb, Hnp. unfold JsString.startsWith. simpl.
  unfold Path.isPosixPathSeparator in *.
  apply Ascii.eqb_eq in Hnp. subst c.
  destruct (ascii_dec b "/") as [->|Hdiff]; [discriminate|].
  rewrite Ascii.eqb_sym, Hnb. reflexivity.
Qed.

(** X12.  While the base directory in force is a relative path, as the
    constructor leaves it for a relative configured value inside the
    working directory, no request is granted: [resolvePath] throws for
    every requested path. *)
Theorem relative_base_refuses_all cwd st base requestedPath :
  defaultAbsolute st ->
  JsString.truthy (fsBaseDirectory st) = Some base ->
  Path.isAbsolute base = false ->
  exists e, resolvePath cwd st requestedPath = Throw e.
Proof.
  intros Hdef Hbase Hrel.
  destruct (candidatePath st requestedPath) as [absolutePath|e0] eqn:Hc;
    [rewrite (resolvePath_of_candidate cwd _ _ _ Hdef Hc)
    |rewrite (resolvePath_no_candidate cwd _ _ _ Hc); now eexists].
  destruct (JsString.includesChar JsString.NUL absolutePath); [now eexists|].
  rewrite Hbase, outsideBase_relative; [now eexists | exact Hrel|].
  apply normalizeInput_isAbsolute.
  now apply (candidatePath_isAbsolute st requestedPath).
Qed.

Lemma relative_base_refuses_all_witness :
  fsBaseDirectory (init "/srv" (Some "data")) = Some "data"
  /\ exists e, resolvePath "/srv" (init "/srv" (Some "data")) "/srv/data/a.txt"
               = Throw e.
Proof.
  split; [reflexivity|].
  apply (relative_base_refuses_all "/srv" (init "/srv" (Some "data")) "data"
           "/srv/data/a.txt").
  - intros def H. discriminate H.
  - reflexivity.
  - reflexivity.
Defined.

End StateFacts.

(* ================================================================== *)
(** * The file tools (src/mcp-server/tools/*/*Logic.ts)

    Each tool resolves its path with [resolvePath] and then calls
    [fs/promises].  What the filesystem answers is an argument: the
    environment gives the answer of each primitive from the calls made
    before it and the arguments of the call.  A tool yields the calls it
    made, in order, and what it returned or threw. *)

Module FsApi.

(** [error.code] of a filesystem error, as far as the tools look at it. *)
Inductive Errno : Type := ENOENT | EISDIR | ENOTEMPTY | OtherErrno.

Record FsError : Type := mkFsError {
  errno : Errno;
  errorText : string
}.

(** The two questions the tools ask of [fs.Stats]. *)
Record Stats : Type := mkStats {
  statIsDirectory : bool;
  statIsFile : bool
}.

Inductive FsCall : Type :=
| ReadFile (path : string)
| Stat (path : string)
| Access (path : string)
| Mkdir (path : string) (recursive : bool)
| WriteFile (path content : string)
| Unlink (path : string)
| Rm (path : string)
| Rmdir (path : string)
| Rename (source destination : string).

Record Environment : Type := mkEnvironment {
  readFile : list FsCall -> string -> FsError + string;
  stat : list FsCall -> string -> FsError + Stats;
  access : list FsCall -> string -> option FsError;
  mkdir : list FsCall -> string -> bool -> option FsError;
  writeFile : list FsCall -> string -> string -> option FsError;
  unlink : list FsCall -> string -> option FsError;
  rm : list FsCall -> string -> option FsError;
  rmdir : list FsCall -> string -> option FsError;
  rename : list FsCall -> string -> string -> option FsError;
  (** [Buffer.byteLength(content, 'utf8')] *)
  byteLength : string -> Z
}.

(** What a [catch] block holds: an [McpError] thrown by the tool itself,
    or an error of the filesystem. *)
Inductive Exception : Type :=
| OfTool (e : McpError)
| OfFs (e : FsError).

(** [error.code === 'ENOENT'] *)
Definition isENOENT (error : Exception) : bool :=
  match error with
  | OfFs e => match errno e with ENOENT => true | _ => false end
  | OfTool _ => false
  end.

(** [error.message] *)
Definition messageOf (error : Exception) : string :=
  match error with
  | OfFs e => errorText e
  | OfTool e => message e
  end.

(** [error.message || 'Unknown I/O error'] *)
Definition messageOrUnknown (error : Exception) : string :=
  if messageOf error =? EmptyString then "Unknown I/O error"
  else messageOf error.

End FsApi.

Module PathMore.

Definition isSlash (c : ascii) : bool := Ascii.eqb c "/".

Fixpoint dropWhile (f : ascii -> bool) (l : list ascii) : list ascii :=
  match l with
  | c :: rest => if f c then dropWhile f rest else l
  | [] => []
  end.

(** [path.dirname(p)]: the scan from the end skips the trailing
    separators and the last segment, and stops at the separator before
    it. *)
Definition dirname (p : string) : string :=
  match p with
  | EmptyString => "."
  | String first others =>
      let hasRoot := isSlash first in
      let backwards := rev (list_ascii_of_string others) in
      let lastSegmentOn := dropWhile isSlash backwards in
      match dropWhile (fun c => negb (isSlash c)) lastSegmentOn with
      | [] => if hasRoot then "/" else "."
      | _ :: before =>
          match before with
          | [] => if hasRoot then "//" else String first EmptyString
          | _ => String first (string_of_list_ascii (rev before))
          end
      end
  end.

End PathMore.

Example dirname_doc :
  PathMore.dirname "/foo/bar/baz/asdf/quux" = "/foo/bar/baz/asdf"
  /\ PathMore.dirname "/a" = "/"
  /\ PathMore.dirname "/" = "/"
  /\ PathMore.dirname "////" = "/"
  /\ PathMore.dirname "//a" = "//"
  /\ PathMore.dirname "a" = "."
  /\ PathMore.dirname EmptyString = "."
  /\ PathMore.dirname "/a/b/" = "/a"
  /\ PathMore.dirname "a/b" = "a"
  /\ PathMore.dirname "foo//bar" = "foo/"
  /\ PathMore.dirname "/a/b//c//" = "/a/b/".
Proof. repeat split; reflexivity. Qed.

Module Tools.
Import FsApi.

Definition mcpError (c : BaseErrorCode) (msg : string) : McpError :=
  {| code := c; message := msg |}.

(** The outer [catch] of the write, create and move tools: an [McpError]
    is thrown again, anything else becomes an [INTERNAL_ERROR]. *)
Definition rethrowOrInternal (what : string) (error : Exception) : McpError :=
  match error with
  | OfTool e => e
  | OfFs _ => mcpError INTERNAL_ERROR (what ++ messageOrUnknown error)
  end.

Section Session.
Variable env : Environment.
Variable cwd : string.
Variable st : State.ServerState.

(** *** readFileLogic *)

Record ReadFileOutput : Type := mkReadFileOutput { content : string }.

Definition readFileLogic (requestedPath : string)
  : list FsCall * result ReadFileOutput :=
  match State.resolvePath cwd st requestedPath with
  | Throw e => ([], Throw e)
  | Ok absolutePath =>
      ([ReadFile absolutePath],
       match readFile env [] absolutePath with
       | inr text => Ok {| content := text |}
       | inl error =>
           match errno error with
           | ENOENT =>
               Throw (mcpError NOT_FOUND
                        ("File not found at resolved path: " ++ absolutePath))
           | EISDIR =>
               Throw (mcpError VALIDATION_ERROR
                        ("Resolved path is a directory, not a file: "
                         ++ absolutePath))
           | _ =>
               Throw (mcpError INTERNAL_ERROR
                        ("Failed to read file: " ++ messageOrUnknown (OfFs error)))
           end
       end)
  end.

(** *** writeFileLogic *)

Record WriteFileOutput : Type := mkWriteFileOutput {
  writeMessage : string;
  writtenPath : string;
  bytesWritten : Z
}.

Definition writeFileLogic (requestedPath text : string)
  : list FsCall * result WriteFileOutput :=
  match State.resolvePath cwd st requestedPath with
  | Throw e => ([], Throw e)
  | Ok absolutePath =>
      let failed (log : list FsCall) (error : Exception) :=
        (log, @Throw WriteFileOutput
                (rethrowOrInternal "Failed to write file: " error)) in
      let log1 := [Stat absolutePath] in
      (* what leaves the inner try and its catch *)
      let statThrows : option Exception :=
        match stat env [] absolutePath with
        | inr stats =>
            if statIsDirectory stats then
              (* thrown in the try, seen by the catch, thrown again *)
              Some (OfTool (mcpError VALIDATION_ERROR
                      ("Cannot write file. Path exists and is a directory: "
                       ++ absolutePath)))
            else None
        | inl error => if isENOENT (OfFs error) then None else Some (OfFs error)
        end in
      match statThrows with
      | Some error => failed log1 error
      | None =>
          let dirName := PathMore.dirname absolutePath in
          let log2 := (log1 ++ [Mkdir dirName true])%list in
          match mkdir env log1 dirName true with
          | Some error => failed log2 (OfFs error)
          | None =>
              let log3 := (log2 ++ [WriteFile absolutePath text])%list in
              match writeFile env log2 absolutePath text with
              | Some error => failed log3 (OfFs error)
              | None =>
                  (log3,
                   Ok {| writeMessage :=
                           "Successfully wrote content to " ++ absolutePath;
                         writtenPath := absolutePath;
                         bytesWritten := byteLength env text |})
              end
          end
      end
  end.

(** *** deleteFileLogic *)

Record DeleteFileOutput : Type := mkDeleteFileOutput {
  deleteMessage : string;
  deletedPath : string
}.

(** The [catch] of the two delete tools: [ENOENT] becomes [NOT_FOUND]. *)
Definition deleteFailure (what notFound : string) (notEmpty : option string)
           (error : Exception) : McpError :=
  match error with
  | OfTool e => e
  | OfFs e =>
      match errno e, notEmpty with
      | ENOENT, _ => mcpError NOT_FOUND notFound
      | ENOTEMPTY, Some msg => mcpError VALIDATION_ERROR msg
      | _, _ => mcpError INTERNAL_ERROR (what ++ messageOrUnknown error)
      end
  end.

Definition deleteFileLogic (requestedPath : string)
  : list FsCall * result DeleteFileOutput :=
  match State.resolvePath cwd st requestedPath with
  | Throw e => ([], Throw e)
  | Ok absolutePath =>
      let failed (log : list FsCall) (error : Exception) :=
        (log, @Throw DeleteFileOutput
                (deleteFailure "Failed to delete file: "
                   ("File not found at path: " ++ absolutePath) None error)) in
      let log1 := [Stat absolutePath] in
      match stat env [] absolutePath with
      | inl error => failed log1 (OfFs error)
      | inr stats =>
          if negb (statIsFile stats) then
            failed log1 (OfTool (mcpError VALIDATION_ERROR
                                   ("Path is not a file: " ++ absolutePath)))
          else
            let log2 := (log1 ++ [Unlink absolutePath])%list in
            match unlink env log1 absolutePath with
            | Some error => failed log2 (OfFs error)
            | None =>
                (log2,
                 Ok {| deleteMessage :=
                         "Successfully deleted file: " ++ absolutePath;
                       deletedPath := absolutePath |})
            end
      end
  end.

(** *** createDirectoryLogic *)

Record CreateDirectoryOutput : Type := mkCreateDirectoryOutput {
  createMessage : string;
  createdPath : string;
  parentsCreated : bool
}.

Definition createDirectoryLogic (requestedPath : string) (create_parents : bool)
  : list FsCall * result CreateDirectoryOutput :=
  match State.resolvePath cwd st requestedPath with
  | Throw e => ([], Throw e)
  | Ok absolutePath =>
      let failed (log : list FsCall) (error : Exception) :=
        (log, @Throw CreateDirectoryOutput
                (rethrowOrInternal "Failed to create directory: " error)) in
      let log1 := [Stat absolutePath] in
      let create :=
        let log2 := (log1 ++ [Mkdir absolutePath create_parents])%list in
        match mkdir env log1 absolutePath create_parents with
        | Some error => failed log2 (OfFs error)
        | None =>
            (log2,
             Ok {| createMessage :=
                     "Successfully created directory: " ++ absolutePath
                     ++ (if create_parents
                         then " (including parents if needed)"
                         else EmptyString);
                   createdPath := absolutePath;
                   parentsCreated := create_parents |})
        end in
      match stat env [] absolutePath with
      | inr stats =>
          if statIsDirectory stats then
            (log1,
             Ok {| createMessage := "Directory already exists: " ++ absolutePath;
                   createdPath := absolutePath;
                   parentsCreated := false |})
          else
            failed log1
              (OfTool (mcpError VALIDATION_ERROR
                         ("Path already exists but is not a directory: "
                          ++ absolutePath)))
      | inl error =>
          if isENOENT (OfFs error) then create else failed log1 (OfFs error)
      end
  end.

(** *** deleteDirectoryLogic *)

Record DeleteDirectoryOutput : Type := mkDeleteDirectoryOutput {
  deleteDirectoryMessage : string;
  deletedDirectory : string;
  wasRecursive : bool
}.

Definition deleteDirectoryLogic (requestedPath : string) (recursive : bool)
  : list FsCall * result DeleteDirectoryOutput :=
  match State.resolvePath cwd st requestedPath with
  | Throw e => ([], Throw e)
  | Ok absolutePath =>
      let failed (log : list FsCall) (error : Exception) :=
        (log, @Throw DeleteDirectoryOutput
                (deleteFailure "Failed to delete directory: "
                   ("Directory not found at path: " ++ absolutePath)
                   (if recursive then None
                    else Some ("Directory not empty: " ++ absolutePath
                               ++ ". Use recursive=true to delete non-empty directories."))
                   error)) in
      let log1 := [Stat absolutePath] in
      match stat env [] absolutePath with
      | inl error =>
          if isENOENT (OfFs error) then
            failed log1 (OfTool (mcpError NOT_FOUND
                                   ("Directory not found at path: " ++ absolutePath)))
          else failed log1 (OfFs error)
      | inr stats =>
          if negb (statIsDirectory stats) then
            failed log1 (OfTool (mcpError VALIDATION_ERROR
                                   ("Path is not a directory: " ++ absolutePath)))
          else
            let removal := if recursive then Rm absolutePath
                           else Rmdir absolutePath in
            let log2 := (log1 ++ [removal])%list in
            match (if recursive then rm env log1 absolutePath
                   else rmdir env log1 absolutePath) with
            | Some error => failed log2 (OfFs error)
            | None =>
                (log2,
                 Ok {| deleteDirectoryMessage :=
                         "Successfully deleted directory: " ++ absolutePath
                         ++ (if recursive then " (recursively)" else " (empty)");
                       deletedDirectory := absolutePath;
                       wasRecursive := recursive |})
            end
      end
  end.

(** *** movePathLogic *)

Record MovePathOutput : Type := mkMovePathOutput {
  moveMessage : string;
  sourcePath : string;
  destinationPath : string
}.

Definition movePathLogic (source_path destination_path : string)
  : list FsCall * result MovePathOutput :=
  match State.resolvePath cwd st source_path with
  | Throw e => ([], Throw e)
  | Ok absoluteSourcePath =>
      match State.resolvePath cwd st destination_path with
      | Throw e => ([], Throw e)
      | Ok absoluteDestPath =>
          if absoluteSourcePath =? absoluteDestPath then
            ([], Throw (mcpError VALIDATION_ERROR
                          "Source and destination paths cannot be the same."))
          else
            let failed (log : list FsCall) (error : Exception) :=
              (log, @Throw MovePathOutput
                      (rethrowOrInternal "Failed to move path: " error)) in
            let log1 := [Access absoluteSourcePath] in
            match access env [] absoluteSourcePath with
            | Some accessError =>
                failed log1
                  (OfTool
                     (if isENOENT (OfFs accessError) then
                        mcpError NOT_FOUND
                          ("Source path not found: " ++ absoluteSourcePath)
                      else
                        mcpError INTERNAL_ERROR
                          ("Cannot access source path: "
                           ++ errorText accessError)))
            | None =>
                let destDir := PathMore.dirname absoluteDestPath in
                let log2 := (log1 ++ [Access destDir])%list in
                match access env log1 destDir with
                | Some _ =>
                    failed log2
                      (OfTool (mcpError VALIDATION_ERROR
                         ("Destination directory does not exist or is inaccessible: "
                          ++ destDir)))
                | None =>
                    let log3 := (log2 ++ [Access absoluteDestPath])%list in
                    (* the exception that reaches the catch of the third try *)
                    let destAccessError : Exception :=
                      match access env log2 absoluteDestPath with
                      | None =>
                          OfTool (mcpError VALIDATION_ERROR
                            ("Destination path already exists: "
                             ++ absoluteDestPath ++ ". Cannot overwrite."))
                      | Some error => OfFs error
                      end in
                    if negb (isENOENT destAccessError) then
                      failed log3
                        (OfTool (mcpError INTERNAL_ERROR
                           ("Error checking destination path: "
                            ++ messageOf destAccessError)))
                    else
                      let log4 :=
                        (log3 ++ [Rename absoluteSourcePath absoluteDestPath])%list in
                      match rename env log3 absoluteSourcePath absoluteDestPath with
                      | Some error => failed log4 (OfFs error)
                      | None =>
                          (log4,
                           Ok {| moveMessage :=
                                   "Successfully moved " ++ absoluteSourcePath
                                   ++ " to " ++ absoluteDestPath;
                                 sourcePath := absoluteSourcePath;
                                 destinationPath := absoluteDestPath |})
                      end
                end
            end
      end
  end.

End Session.

End Tools.

(* ------------------------------------------------------------------ *)
(** ** The tools and the filesystem *)

Module ToolFacts.
Import FsApi Tools State.

(** One invocation of a tool of the server. *)
Inductive Request : Type :=
| ReadFileRequest (path : string)
| WriteFileRequest (path content : string)
| DeleteFileRequest (path : string)
| CreateDirectoryRequest (path : string) (create_parents : bool)
| DeleteDirectoryRequest (path : string) (recursive : bool)
| MovePathRequest (source_path destination_path : string).

(** The paths of a request, in the order the tool resolves them. *)
Definition requestedPaths (r : Request) : list string :=
  match r with
  | ReadFileRequest p | WriteFileRequest p _ | DeleteFileRequest p
  | CreateDirectoryRequest p _ | DeleteDirectoryRequest p _ => [p]
  | MovePathRequest s d => [s; d]
  end.

Definition thrown {A : Type} (r : result A) : option McpError :=
  match r with
  | Throw e => Some e
  | Ok _ => None
  end.

Definition observe {A : Type} (run : list FsCall * result A)
  : list FsCall * option McpError :=
  (fst run, thrown (snd run)).

(** The filesystem calls of a request and the error it ends with. *)
Definition run (env : Environment) (cwd : string) (st : ServerState)
           (r : Request) : list FsCall * option McpError :=
  match r with
  | ReadFileRequest p => observe (readFileLogic env cwd st p)
  | WriteFileRequest p text => observe (writeFileLogic env cwd st p text)
  | DeleteFileRequest p => observe (deleteFileLogic env cwd st p)
  | CreateDirectoryRequest p parents =>
      observe (createDirectoryLogic env cwd st p parents)
  | DeleteDirectoryRequest p recursive =>
      observe (deleteDirectoryLogic env cwd st p recursive)
  | MovePathRequest s d => observe (movePathLogic env cwd st s d)
  end.

(** The first error of [resolvePath] over a list of paths. *)
Fixpoint firstFailure (cwd : string) (st : ServerState) (l : list string)
  : option McpError :=
  match l with
  | [] => None
  | p :: rest =>
      match resolvePath cwd st p with
      | Throw e => Some e
      | Ok _ => firstFailure cwd st rest
      end
  end.

(** The paths a filesystem call is given. *)
Definition paths (c : FsCall) : list string :=
  match c with
  | ReadFile p | Stat p | Access p | Mkdir p _ | WriteFile p _
  | Unlink p | Rm p | Rmdir p => [p]
  | Rename s d => [s; d]
  end.

(** The calls that may be given the parent of a resolved path. *)
Definition parentCall (c : FsCall) : bool :=
  match c with
  | Mkdir _ true | Access _ => true
  | _ => false
  end.

Lemma isENOENT_fs e : isENOENT (OfFs e) = true <-> errno e = ENOENT.
Proof. simpl. destruct (errno e); split; congruence. Qed.

Lemma isENOENT_tool e : isENOENT (OfTool e) = false.
Proof. reflexivity. Qed.

Lemma resolvePath_withinBase cwd st requestedPath q base :
  resolvePath cwd st requestedPath = Ok q ->
  JsString.truthy (fsBaseDirectory st) = Some base ->
  ResolverFacts.withinBase base q.
Proof.
  intros Hq Hbase.
  destruct (ResolverFacts.resolvePath_inv _ _ _ _ Hq)
    as (a & info & _ & Hs & -> & Hconf).
  rewrite (ResolverFacts.sanitizeAndConfine_sanitized _ _ _ _ _ Hs), Hbase
    in Hconf.
  destruct (outsideBase base (Sanitization.sanitizedPath info)) eqn:Hout;
    [discriminate|].
  now apply ResolverFacts.outsideBase_false.
Qed.

(** Splits on every [match] and [if] of the goal. *)
Ltac branches :=
  repeat match goal with
         | |- context [match ?x with _ => _ end] => destruct x eqn:?
         | |- context [if ?x then _ else _] => destruct x eqn:?
         end.

(** X13.  Resolution comes before the filesystem: when [resolvePath]
    refuses a path of a request, the tool makes no filesystem call and
    fails with that error of [resolvePath]; with two paths, the error of
    the source takes precedence. *)
Theorem tools_resolve_first env cwd st request e :
  firstFailure cwd st (requestedPaths request) = Some e ->
  run env cwd st request = ([], Some e).
Proof.
  destruct request; cbn [requestedPaths firstFailure run];
    unfold readFileLogic, writeFileLogic, deleteFileLogic,
      createDirectoryLogic, deleteDirectoryLogic, movePathLogic;
    repeat match goal with
           | |- context [resolvePath cwd st ?p] =>
               destruct (resolvePath cwd st p) eqn:?
           end;
    intros H; try discriminate; injection H as <-; reflexivity.
Qed.

Definition silent : Environment :=
  {| readFile := fun _ _ => inr "hello";
     stat := fun _ _ => inr {| statIsDirectory := false; statIsFile := true |};
     access := fun _ _ => None;
     mkdir := fun _ _ _ => None;
     writeFile := fun _ _ _ => None;
     unlink := fun _ _ => None;
     rm := fun _ _ => None;
     rmdir := fun _ _ => None;
     rename := fun _ _ _ => None;
     byteLength := fun s => Z.of_nat (String.length s) |}.

Lemma tools_resolve_first_witness :
  run silent "/srv" ResolverFacts.sandboxed
      (MovePathRequest "../../etc/passwd" "/tmp/x")
  = ([], Some (accessDenied "../../etc/passwd")).
Proof.
  apply (tools_resolve_first silent "/srv" ResolverFacts.sandboxed
           (MovePathRequest "../../etc/passwd" "/tmp/x")).
  reflexivity.
Defined.

(** Every call of a log is one of the listed calls. *)
Ltac each_call H :=
  cbn [observe fst snd app In] in H;
  repeat match type of H with
         | _ \/ _ => destruct H as [H|H]
         | False => destruct H
         end.

(** X14.  The tools touch nothing but what [resolvePath] returned: every
    path given to a filesystem call is the resolved form of a requested
    path, or the parent ([path.dirname]) of one in a recursive [mkdir] or
    an [access] check; with a base directory active each such resolved
    path lies within it. *)
Theorem tools_touch_resolved_paths env cwd st request call p :
  In call (fst (run env cwd st request)) ->
  In p (paths call) ->
  exists requestedPath q,
    In requestedPath (requestedPaths request)
    /\ resolvePath cwd st requestedPath = Ok q
    /\ (p = q \/ (p = PathMore.dirname q /\ parentCall call = true))
    /\ (forall base,
          JsString.truthy (fsBaseDirectory st) = Some base ->
          ResolverFacts.withinBase base q).
Proof.
  assert (Hfound : forall requestedPath q,
             In requestedPath (requestedPaths request) ->
             resolvePath cwd st requestedPath = Ok q ->
             (p = q \/ (p = PathMore.dirname q /\ parentCall call = true)) ->
             exists requestedPath q,
               In requestedPath (requestedPaths request)
               /\ resolvePath cwd st requestedPath = Ok q
               /\ (p = q \/ (p = PathMore.dirname q /\ parentCall call = true))
               /\ (forall base,
                     JsString.truthy (fsBaseDirectory st) = Some base ->
                     ResolverFacts.withinBase base q)).
  { intros r q Hin Hq Hp. exists r, q. repeat split; auto.
    intros base. now apply (resolvePath_withinBase cwd st r). }
  destruct request; cbn [run observe requestedPaths] in *;
    unfold readFileLogic, writeFileLogic, deleteFileLogic,
      createDirectoryLogic, deleteDirectoryLogic, movePathLogic;
    repeat match goal with
           | |- context [resolvePath cwd st ?r] =>
               let q := fresh "q" in
               let Hq := fresh "Hq" in
               destruct (resolvePath cwd st r) as [q|?] eqn:Hq
           end;
    branches; intros Hcall Hp; each_call Hcall; subst call;
    cbn [paths In] in Hp;
    repeat match type of Hp with
           | _ \/ _ => destruct Hp as [Hp|Hp]
           | False => destruct Hp
           end; subst p;
    first [ eapply Hfound; [left; reflexivity | eassumption | auto; fail]
          | eapply Hfound; [right; left; reflexivity | eassumption | auto; fail] ].
Qed.

Lemma tools_touch_resolved_paths_witness :
  exists requestedPath q,
    In requestedPath (requestedPaths (WriteFileRequest "notes/a.txt" "x"))
    /\ resolvePath "/srv" ResolverFacts.sandboxed requestedPath = Ok q
    /\ ("/sandbox/work/notes" = q
        \/ ("/sandbox/work/notes" = PathMore.dirname q
            /\ parentCall (Mkdir "/sandbox/work/notes" true) = true))
    /\ (forall base,
          JsString.truthy (fsBaseDirectory ResolverFacts.sandboxed) = Some base ->
          ResolverFacts.withinBase base q).
Proof.
  apply (tools_touch_resolved_paths silent "/srv" ResolverFacts.sandboxed
           (WriteFileRequest "notes/a.txt" "x")
           (Mkdir "/sandbox/work/notes" true) "/sandbox/work/notes").
  - right; left; reflexivity.
  - left; reflexivity.
Defined.

(** A filesystem on which nothing exists yet. *)
Definition empty : Environment :=
  {| readFile := fun _ _ => inl {| errno := ENOENT; errorText := "no such file" |};
     stat := fun _ _ => inl {| errno := ENOENT; errorText := "no such file" |};
     access := fun _ _ => Some {| errno := ENOENT; errorText := "no such file" |};
     mkdir := fun _ _ _ => None;
     writeFile := fun _ _ _ => None;
     unlink := fun _ _ => None;
     rm := fun _ _ => None;
     rmdir := fun _ _ => None;
     rename := fun _ _ _ => None;
     byteLength := fun s => Z.of_nat (String.length s) |}.

(** The parent in X14 is needed: writing to the base directory itself,
    when it does not exist, creates directories from its parent on. *)
Example writeFile_at_base :
  fst (writeFileLogic empty "/srv" ResolverFacts.sandboxed "/sandbox" "x")
  = [Stat "/sandbox"; Mkdir "/" true; WriteFile "/sandbox" "x"].
Proof. reflexivity. Qed.

Ltac unfold_tools :=
  unfold readFileLogic, writeFileLogic, deleteFileLogic,
    createDirectoryLogic, deleteDirectoryLogic, movePathLogic.

Ltac resolved :=
  repeat match goal with
         | |- context [resolvePath ?cwd ?st ?r] =>
             let q := fresh "q" in
             let Hq := fresh "Hq" in
             destruct (resolvePath cwd st r) as [q|?] eqn:Hq
         end.

(** Splits on every [match] and [if] of a hypothesis. *)
Ltac branches_in H :=
  repeat match type of H with
         | context [match ?x with _ => _ end] => destruct x eqn:?
         | context [if ?x then _ else _] => destruct x eqn:?
         end.

(** A call found in a log is the listed call of the same kind. *)
Ltac this_call H :=
  each_call H; try discriminate H; injection H as H; subst.

(** X15.  No tool changes the filesystem before its checks have passed.
    [writeFile] is called only after [stat] failed with [ENOENT] or
    reported something that is not a directory, and [mkdir] of the parent
    succeeded; [unlink] only after [stat] reported a file; [rm] and
    [rmdir] only after [stat] reported a directory, [rm] exactly when
    [recursive] is set; [mkdir] of [createDirectoryLogic] only after
    [stat] failed with [ENOENT]; [rename] only for two different resolved
    paths, after [access] succeeded on the source and on the parent of
    the destination and failed with [ENOENT] on the destination. *)
Theorem mutation_guards env cwd st :
  (forall requestedPath text q written,
      In (WriteFile q written)
         (fst (writeFileLogic env cwd st requestedPath text)) ->
      resolvePath cwd st requestedPath = Ok q /\ written = text
      /\ match stat env [] q with
         | inr stats => statIsDirectory stats = false
         | inl e => errno e = ENOENT
         end
      /\ mkdir env [Stat q] (PathMore.dirname q) true = None)
  /\ (forall requestedPath q,
        In (Unlink q) (fst (deleteFileLogic env cwd st requestedPath)) ->
        resolvePath cwd st requestedPath = Ok q
        /\ exists stats, stat env [] q = inr stats /\ statIsFile stats = true)
  /\ (forall requestedPath recursive q call,
        In call (fst (deleteDirectoryLogic env cwd st requestedPath recursive)) ->
        call = Rm q \/ call = Rmdir q ->
        resolvePath cwd st requestedPath = Ok q
        /\ call = (if recursive then Rm q else Rmdir q)
        /\ exists stats,
             stat env [] q = inr stats /\ statIsDirectory stats = true)
  /\ (forall requestedPath create_parents q recursive,
        In (Mkdir q recursive)
           (fst (createDirectoryLogic env cwd st requestedPath create_parents)) ->
        resolvePath cwd st requestedPath = Ok q /\ recursive = create_parents
        /\ exists e, stat env [] q = inl e /\ errno e = ENOENT)
  /\ (forall source_path destination_path source destination,
        In (Rename source destination)
           (fst (movePathLogic env cwd st source_path destination_path)) ->
        resolvePath cwd st source_path = Ok source
        /\ resolvePath cwd st destination_path = Ok destination
        /\ source <> destination
        /\ access env [] source = None
        /\ access env [Access source] (PathMore.dirname destination) = None
        /\ exists e,
             access env [Access source; Access (PathMore.dirname destination)]
                    destination = Some e
             /\ errno e = ENOENT).
Proof.
  repeat apply conj.
  - intros requestedPath text q written H. unfold writeFileLogic in H.
    destruct (resolvePath cwd st requestedPath) as [q0|] eqn:Hq;
      [|destruct H].
    branches_in H; this_call H; repeat split; auto.
    all: match goal with
         | Hs : match stat _ _ _ with _ => _ end = None |- _ =>
             destruct (stat env [] q) as [e|stats];
             [destruct (isENOENT (OfFs e)) eqn:Hcode; [|discriminate Hs];
              now apply isENOENT_fs
             |now destruct (statIsDirectory stats)]
         end.
  - intros requestedPath q H. unfold deleteFileLogic in H.
    destruct (resolvePath cwd st requestedPath) as [q0|] eqn:Hq;
      [|destruct H].
    branches_in H; this_call H.
    all: split; [reflexivity|]; eexists; split; [eassumption|];
      now apply negb_false_iff.
  - intros requestedPath recursive q call H Hcall.
    unfold deleteDirectoryLogic in H.
    destruct (resolvePath cwd st requestedPath) as [q0|] eqn:Hq;
      [|destruct H].
    branches_in H; destruct Hcall; subst call; this_call H.
    all: repeat split; eexists; split; [eassumption|];
      now apply negb_false_iff.
  - intros requestedPath create_parents q recursive H.
    unfold createDirectoryLogic in H.
    destruct (resolvePath cwd st requestedPath) as [q0|] eqn:Hq;
      [|destruct H].
    branches_in H; this_call H.
    all: repeat split; eexists; split; [eassumption|]; now apply isENOENT_fs.
  - intros source_path destination_path source destination H.
    unfold movePathLogic in H.
    destruct (resolvePath cwd st source_path) as [q|] eqn:Hq; [|destruct H].
    destruct (resolvePath cwd st destination_path) as [q0|] eqn:Hq0;
      [|destruct H].
    destruct (q =? q0) eqn:Hsame; [destruct H|].
    apply String.eqb_neq in Hsame.
    branches_in H; this_call H.
    all: repeat split; auto.
    all: match goal with
         | Hc : negb (isENOENT _) = false |- _ =>
             cbn [app] in Hc;
             destruct (access env [Access source;
                                   Access (PathMore.dirname destination)]
                              destination) as [e|];
             [|discriminate Hc];
             exists e; split; [reflexivity|];
             apply negb_false_iff in Hc; now apply isENOENT_fs
         end.
Qed.

(** A filesystem that holds the file [/sandbox/work/a.txt] and the
    directories above it, and nothing else. *)
Definition exists_ (p : string) : bool :=
  (p =? "/sandbox/work/a.txt") || (p =? "/sandbox/work") || (p =? "/sandbox").

Definition missing : FsError :=
  {| errno := ENOENT; errorText := "no such file or directory" |}.

Definition oneFile : Environment :=
  {| readFile := fun _ p =>
       if p =? "/sandbox/work/a.txt" then inr "hello" else inl missing;
     stat := fun _ p =>
       if p =? "/sandbox/work/a.txt"
       then inr {| statIsDirectory := false; statIsFile := true |}
       else if exists_ p
            then inr {| statIsDirectory := true; statIsFile := false |}
            else inl missing;
     access := fun _ p => if exists_ p then None else Some missing;
     mkdir := fun _ _ _ => None;
     writeFile := fun _ _ _ => None;
     unlink := fun _ _ => None;
     rm := fun _ _ => None;
     rmdir := fun _ _ => None;
     rename := fun _ _ _ => None;
     byteLength := fun s => Z.of_nat (String.length s) |}.

(** Each of the changes of X15 does happen. *)
Example mutations_happen :
  run oneFile "/srv" ResolverFacts.sandboxed (WriteFileRequest "a.txt" "bye")
  = ([Stat "/sandbox/work/a.txt"; Mkdir "/sandbox/work" true;
      WriteFile "/sandbox/work/a.txt" "bye"], None)
  /\ run oneFile "/srv" ResolverFacts.sandboxed (DeleteFileRequest "a.txt")
     = ([Stat "/sandbox/work/a.txt"; Unlink "/sandbox/work/a.txt"], None)
  /\ run oneFile "/srv" ResolverFacts.sandboxed
         (DeleteDirectoryRequest "/sandbox/work" true)
     = ([Stat "/sandbox/work"; Rm "/sandbox/work"], None)
  /\ run oneFile "/srv" ResolverFacts.sandboxed
         (DeleteDirectoryRequest "/sandbox/work" false)
     = ([Stat "/sandbox/work"; Rmdir "/sandbox/work"], None)
  /\ run oneFile "/srv" ResolverFacts.sandboxed
         (CreateDirectoryRequest "new/dir" true)
     = ([Stat "/sandbox/work/new/dir"; Mkdir "/sandbox/work/new/dir" true],
        None)
  /\ run oneFile "/srv" ResolverFacts.sandboxed
         (MovePathRequest "a.txt" "b.txt")
     = ([Access "/sandbox/work/a.txt"; Access "/sandbox/work";
         Access "/sandbox/work/b.txt";
         Rename "/sandbox/work/a.txt" "/sandbox/work/b.txt"], None).
Proof. repeat split; reflexivity. Qed.

(** X16.  Moving onto a destination that exists is refused without a
    [rename], and the refusal is an [INTERNAL_ERROR]: the
    [VALIDATION_ERROR] thrown after the successful [access] is caught by
    the [catch] of the same [try], whose test [code !== 'ENOENT'] it
    passes, and is replaced there. *)
Theorem movePath_existing_destination
        env cwd st source_path destination_path source destination :
  resolvePath cwd st source_path = Ok source ->
  resolvePath cwd st destination_path = Ok destination ->
  source <> destination ->
  access env [] source = None ->
  access env [Access source] (PathMore.dirname destination) = None ->
  access env [Access source; Access (PathMore.dirname destination)]
         destination = None ->
  movePathLogic env cwd st source_path destination_path
  = ([Access source; Access (PathMore.dirname destination);
      Access destination],
     Throw (mcpError INTERNAL_ERROR
              ("Error checking destination path: "
               ++ "Destination path already exists: " ++ destination
               ++ ". Cannot overwrite."))).
Proof.
  intros Hs Hd Hne Hsource Hparent Hdest. unfold movePathLogic.
  rewrite Hs, Hd. apply String.eqb_neq in Hne. rewrite Hne, Hsource.
  cbn [app]. rewrite Hparent, Hdest. reflexivity.
Qed.

Lemma movePath_existing_destination_witness :
  movePathLogic oneFile "/srv" ResolverFacts.sandboxed "a.txt" "/sandbox/work"
  = ([Access "/sandbox/work/a.txt"; Access (PathMore.dirname "/sandbox/work");
      Access "/sandbox/work"],
     Throw (mcpError INTERNAL_ERROR
              ("Error checking destination path: "
               ++ "Destination path already exists: " ++ "/sandbox/work"
               ++ ". Cannot overwrite."))).
Proof.
  apply (movePath_existing_destination oneFile "/srv" ResolverFacts.sandboxed
           "a.txt" "/sandbox/work" "/sandbox/work/a.txt" "/sandbox/work").
  - reflexivity.
  - reflexivity.
  - discriminate.
  - reflexivity.
  - reflexivity.
  - reflexivity.
Defined.

End ToolFacts.

(* ------------------------------------------------------------------ *)
(** ** [updateFileLogic] (tools/updateFile) *)

From Stdlib Require Import DecimalString.

Module JsText.

(** [s.indexOf(search)], [None] for [-1]. *)
Fixpoint indexOf (search s : string) : option nat :=
  if String.prefix search s then Some 0%nat
  else match s with
       | EmptyString => None
       | String _ rest => option_map S (indexOf search rest)
       end.

(** [s.substring(start, end)] for [start <= end]. *)
Definition substring (start end_ : nat) (s : string) : string :=
  String.substring start (end_ - start) s.

(** [s.substring(start)] *)
Definition substringFrom (start : nat) (s : string) : string :=
  String.substring start (String.length s - start) s.

(** The scan of [s.split(sep)] for a separator that is not empty:
    [skip] characters of a separator just found are still to be passed
    over; the result is the piece being read and the pieces after it. *)
Fixpoint splitScan (sep : string) (skip : nat) (s : string)
  : string * list string :=
  match s with
  | EmptyString => (EmptyString, [])
  | String c rest =>
      match skip with
      | S k => splitScan sep k rest
      | O =>
          if String.prefix sep s then
            let (piece, pieces) := splitScan sep (String.length sep - 1) rest in
            (EmptyString, piece :: pieces)
          else
            let (piece, pieces) := splitScan sep 0 rest in
            (String c piece, pieces)
      end
  end.

(** [s.split(sep)]; an empty separator splits between all characters. *)
Definition split (sep s : string) : list string :=
  if sep =? EmptyString then
    map (fun c => String c EmptyString) (list_ascii_of_string s)
  else
    let (piece, pieces) := splitScan sep 0 s in piece :: pieces.

(** [parts.join(sep)] *)
Definition join (sep : string) (parts : list string) : string :=
  String.concat sep parts.

(** [`${n}`] for an integer. *)
Definition show (n : Z) : string := NilZero.string_of_int (Z.to_int n).

End JsText.

Example split_doc :
  JsText.split "," "a,b,,c" = ["a"; "b"; EmptyString; "c"]
  /\ JsText.split "ab" "abab" = [EmptyString; EmptyString; EmptyString]
  /\ JsText.split "aa" "aaa" = [EmptyString; "a"]
  /\ JsText.split "x" EmptyString = [EmptyString]
  /\ JsText.split "x" "abc" = ["abc"]
  /\ JsText.split EmptyString "abc" = ["a"; "b"; "c"]
  /\ JsText.join "-" ["a"; "b"; "c"] = "a-b-c"
  /\ JsText.indexOf "bc" "abcbc" = Some 1%nat
  /\ JsText.indexOf "x" "abc" = None
  /\ JsText.substring 1 3 "abcd" = "bc"
  /\ JsText.substringFrom 2 "abcd" = "cd"
  /\ JsText.show 12 = "12".
Proof. repeat split; reflexivity. Qed.

Module UpdateFile.
Import FsApi Tools.

Record DiffBlock : Type := mkDiffBlock {
  search : string;
  replace : string
}.

Record UpdateFileInput : Type := mkUpdateFileInput {
  path : string;
  blocks : list DiffBlock;
  useRegex : bool;
  replaceAll : bool
}.

Record UpdateFileOutput : Type := mkUpdateFileOutput {
  updateMessage : string;
  updatedPath : string;
  outputBlocksApplied : Z;
  outputBlocksFailed : Z
}.

(** The variables of the loop over the blocks. *)
Record Progress : Type := mkProgress {
  updatedContent : string;
  blocksApplied : Z;
  blocksFailed : Z;
  totalReplacementsMade : Z
}.

Section Engine.

(** The regular expressions of the host: [new RegExp(pattern, flags)]
    gives a value or the message of a [SyntaxError];
    [content.match(regex)] gives [null] or an array, of which the loop
    reads the length; [content.replace(regex, replacement)]. *)
Variable regex : Type.
Variable RegExp : string -> bool -> string + regex.
Variable matchLength : regex -> string -> option Z.
Variable replaceRegex : regex -> string -> string -> string.

(** The [try] block of one iteration, on block number [i]: the new
    content and [replacementsInBlock] when [blockMadeChange]. *)
Definition applyBlock (useRegex replaceAll : bool) (i : nat)
           (block : DiffBlock) (content : string)
  : result (option (string * Z)) :=
  if useRegex then
    match RegExp (search block) replaceAll with
    | inl syntaxError =>
        Throw (mcpError VALIDATION_ERROR
                 ("Invalid regular expression pattern in block "
                  ++ JsText.show (Z.of_nat i + 1) ++ ": "
                  ++ State.quote ++ search block ++ State.quote
                  ++ ". Error: " ++ syntaxError))
    | inr r =>
        match matchLength r content with
        | Some matches =>
            if (0 <? matches)%Z
            then Ok (Some (replaceRegex r content (replace block), matches))
            else Ok None
        | None => Ok None
        end
    end
  else if replaceAll then
    let parts := JsText.split (search block) content in
    if (1 <? Z.of_nat (length parts))%Z
    then Ok (Some (JsText.join (replace block) parts,
                   Z.of_nat (length parts) - 1))%Z
    else Ok None
  else
    match JsText.indexOf (search block) content with
    | Some index =>
        Ok (Some (JsText.substring 0 index content ++ replace block
                  ++ JsText.substringFrom
                       (index + String.length (search block)) content,
                  1%Z))
    | None => Ok None
    end.

(** The loop over the blocks, from block number [i] on. *)
Fixpoint applyBlocks (useRegex replaceAll : bool) (i : nat)
         (blocks : list DiffBlock) (p : Progress) : result Progress :=
  match blocks with
  | [] => Ok p
  | block :: rest =>
      match applyBlock useRegex replaceAll i block (updatedContent p) with
      | Throw e => Throw e
      | Ok (Some (content, replacementsInBlock)) =>
          applyBlocks useRegex replaceAll (S i) rest
            {| updatedContent := content;
               blocksApplied := blocksApplied p + 1;
               blocksFailed := blocksFailed p;
               totalReplacementsMade :=
                 totalReplacementsMade p + replacementsInBlock |}
      | Ok None =>
          applyBlocks useRegex replaceAll (S i) rest
            {| updatedContent := updatedContent p;
               blocksApplied := blocksApplied p;
               blocksFailed := blocksFailed p + 1;
               totalReplacementsMade := totalReplacementsMade p |}
      end
  end.

Definition start (currentContent : string) : Progress :=
  {| updatedContent := currentContent;
     blocksApplied := 0;
     blocksFailed := 0;
     totalReplacementsMade := 0 |}.

Definition failedSuffix (p : Progress) : string :=
  JsText.show (blocksFailed p) ++ " block(s) failed (search criteria not found).".

Definition updateFileLogic (env : Environment) (cwd : string)
           (st : State.ServerState) (input : UpdateFileInput)
  : list FsCall * result UpdateFileOutput :=
  match State.resolvePath cwd st (path input) with
  | Throw e => ([], Throw e)
  | Ok absolutePath =>
      let failed (log : list FsCall) (error : Exception) :=
        (log, @Throw UpdateFileOutput
                (rethrowOrInternal "Failed to update file: " error)) in
      let log1 := [ReadFile absolutePath] in
      match readFile env [] absolutePath with
      | inl readError =>
          if isENOENT (OfFs readError) then
            failed log1
              (OfTool (mcpError NOT_FOUND
                         ("File not found at path: " ++ absolutePath
                          ++ ". Cannot update a non-existent file.")))
          else failed log1 (OfFs readError)
      | inr currentContent =>
          match applyBlocks (useRegex input) (replaceAll input) 0
                            (blocks input) (start currentContent) with
          | Throw e => failed log1 (OfTool e)
          | Ok p =>
              if (0 <? totalReplacementsMade p)%Z then
                let log2 :=
                  (log1 ++ [WriteFile absolutePath (updatedContent p)])%list in
                match writeFile env log1 absolutePath (updatedContent p) with
                | Some error => failed log2 (OfFs error)
                | None =>
                    (log2,
                     Ok {| updateMessage :=
                             "Successfully updated file " ++ absolutePath
                             ++ ". Made "
                             ++ JsText.show (totalReplacementsMade p)
                             ++ " replacement(s) across "
                             ++ JsText.show (blocksApplied p)
                             ++ " block(s). " ++ failedSuffix p;
                           updatedPath := absolutePath;
                           outputBlocksApplied := blocksApplied p;
                           outputBlocksFailed := blocksFailed p |})
                end
              else
                (log1,
                 Ok {| updateMessage :=
                         "No changes applied to file " ++ absolutePath ++ ". "
                         ++ failedSuffix p;
                       updatedPath := absolutePath;
                       outputBlocksApplied := 0;
                       outputBlocksFailed := blocksFailed p |})
          end
      end
  end.

End Engine.

End UpdateFile.

Module UpdateFileFacts.
Import FsApi Tools UpdateFile.

(** *** Strings *)

Lemma prefix_app a s :
  String.prefix a s = true <-> exists post, s = a ++ post.
Proof.
  revert s. induction a as [|c a IH]; intros s.
  - split; [intros _; now exists s | intros _; now destruct s].
  - destruct s as [|d s]; simpl.
    + split; [discriminate | intros [post H]; discriminate].
    + destruct (Ascii.ascii_dec c d) as [->|Hne].
      * rewrite IH. split; intros [post H]; exists post.
        -- now rewrite H.
        -- now injection H.
      * split; [discriminate|]. intros [post H]. injection H as H _.
        congruence.
Qed.

Lemma append_assoc (a b c : string) : (a ++ b) ++ c = a ++ b ++ c.
Proof. induction a as [|x a IH]; simpl; [reflexivity | now rewrite IH]. Qed.

Lemma append_length (a b : string) :
  String.length (a ++ b) = (String.length a + String.length b)%nat.
Proof. induction a as [|x a IH]; simpl; [reflexivity | now rewrite IH]. Qed.

Lemma append_empty_r (a : string) : a ++ EmptyString = a.
Proof. induction a as [|x a IH]; simpl; [reflexivity | now rewrite IH]. Qed.

Lemma substring_prefix (a b : string) :
  String.substring 0 (String.length a) (a ++ b) = a.
Proof.
  induction a as [|x a IH]; simpl.
  - now destruct b.
  - now rewrite IH.
Qed.

Lemma substring_all (s : string) :
  String.substring 0 (String.length s) s = s.
Proof. induction s as [|x s IH]; simpl; [reflexivity | now rewrite IH]. Qed.

Lemma substring_skip (a b : string) n m :
  String.substring (String.length a + n) m (a ++ b) = String.substring n m b.
Proof. induction a as [|x a IH]; simpl; [reflexivity | exact IH]. Qed.

Lemma substringFrom_app (a b : string) :
  JsText.substringFrom (String.length a) (a ++ b) = b.
Proof.
  unfold JsText.substringFrom. rewrite append_length.
  replace (String.length a + String.length b - String.length a)%nat
    with (String.length b) by lia.
  rewrite <- (Nat.add_0_r (String.length a)) at 1.
  rewrite substring_skip. apply substring_all.
Qed.

(** [search] occurs in [s] after [pre]. *)
Definition occursAt (search s pre post : string) : Prop :=
  s = pre ++ search ++ post.

(** No occurrence starts further left. *)
Definition leftmost (search s pre : string) : Prop :=
  forall pre' post',
    occursAt search s pre' post' ->
    (String.length pre <= String.length pre')%nat.

Lemma indexOf_Some search s i :
  JsText.indexOf search s = Some i ->
  exists pre post,
    occursAt search s pre post /\ String.length pre = i
    /\ leftmost search s pre.
Proof.
  revert i. induction s as [|c s IH]; intros i; cbn [JsText.indexOf].
  - destruct (String.prefix search EmptyString) eqn:Hp; [|discriminate].
    intros [= <-]. apply prefix_app in Hp as [post Hp].
    exists EmptyString, post. repeat split; auto.
    intros pre' post' _. simpl. lia.
  - destruct (String.prefix search (String c s)) eqn:Hp.
    + intros [= <-]. apply prefix_app in Hp as [post Hp].
      exists EmptyString, post. repeat split; auto.
      intros pre' post' _. simpl. lia.
    + destruct (JsText.indexOf search s) as [j|] eqn:Hj; [|discriminate].
      intros [= <-]. destruct (IH j eq_refl) as (pre & post & Hocc & Hlen & Hleft).
      exists (String c pre), post. repeat split.
      * unfold occursAt in *. simpl. now rewrite <- Hocc.
      * simpl. now rewrite Hlen.
      * intros pre' post' Hocc'. unfold occursAt in Hocc'.
        destruct pre' as [|d pre'].
        -- simpl in Hocc'.
           assert (String.prefix search (String c s) = true)
             by (apply prefix_app; now exists post').
           congruence.
        -- simpl in Hocc'. injection Hocc' as _ Hocc'.
           specialize (Hleft pre' post' Hocc'). simpl. lia.
Qed.

Lemma indexOf_None search s :
  JsText.indexOf search s = None ->
  forall pre post, ~ occursAt search s pre post.
Proof.
  induction s as [|c s IH]; cbn [JsText.indexOf].
  - destruct (String.prefix search EmptyString) eqn:Hp; [discriminate|].
    intros _ pre post Hocc. unfold occursAt in Hocc.
    destruct pre; [|discriminate].
    assert (String.prefix search EmptyString = true)
      by (apply prefix_app; now exists post).
    congruence.
  - destruct (String.prefix search (String c s)) eqn:Hp; [discriminate|].
    destruct (JsText.indexOf search s) as [j|] eqn:Hj; [discriminate|].
    intros _ pre post Hocc. unfold occursAt in Hocc.
    destruct pre as [|d pre].
    + assert (String.prefix search (String c s) = true)
        by (apply prefix_app; now exists post).
      congruence.
    + simpl in Hocc. injection Hocc as _ Hocc.
      exact (IH eq_refl pre post Hocc).
Qed.

(** Two leftmost occurrences are the same occurrence. *)
Lemma app_same_length (a b c d : string) :
  a ++ b = c ++ d -> String.length a = String.length c -> a = c /\ b = d.
Proof.
  revert c. induction a as [|x a IH]; intros [|y c]; simpl;
    try discriminate; auto.
  intros [= -> H] [= Hlen]. destruct (IH c H Hlen). now subst.
Qed.

(** *** [split] and [join] *)

Fixpoint dropChars (k : nat) (s : string) : string :=
  match k, s with
  | S k', String _ rest => dropChars k' rest
  | _, _ => s
  end.

Lemma dropChars_app (a b : string) : dropChars (String.length a) (a ++ b) = b.
Proof.
  induction a as [|x a IH]; simpl; [now destruct b | exact IH].
Qed.

Lemma concat_cons sep c piece pieces :
  String.concat sep (String c piece :: pieces)
  = String c (String.concat sep (piece :: pieces)).
Proof. destruct pieces; reflexivity. Qed.

(** What was scanned is what the pieces give back when joined. *)
Lemma splitScan_join sep s :
  sep <> EmptyString ->
  forall k,
    JsText.join sep (fst (JsText.splitScan sep k s)
                     :: snd (JsText.splitScan sep k s))
    = dropChars k s.
Proof.
  intros Hsep. unfold JsText.join.
  induction s as [|c s IH]; intros k.
  - now destruct k.
  - destruct k as [|k]; cbn [JsText.splitScan dropChars]; [|apply IH].
    destruct (String.prefix sep (String c s)) eqn:Hp.
    + specialize (IH (String.length sep - 1)%nat).
      destruct (JsText.splitScan sep (String.length sep - 1) s)
        as [piece pieces].
      cbn [fst snd] in *.
      change (String.concat sep (EmptyString :: piece :: pieces))
        with (EmptyString ++ sep ++ String.concat sep (piece :: pieces)).
      rewrite IH. cbn [append].
      apply prefix_app in Hp as [post Hp].
      destruct sep as [|d sep]; [congruence|].
      simpl in Hp. injection Hp as <- ->.
      cbn [String.length]. rewrite Nat.sub_succ, Nat.sub_0_r.
      rewrite dropChars_app. reflexivity.
    + specialize (IH 0%nat).
      destruct (JsText.splitScan sep 0 s) as [piece pieces].
      cbn [fst snd] in *. rewrite concat_cons, IH.
      now destruct s.
Qed.

Lemma join_singletons (l : list ascii) :
  JsText.join EmptyString (map (fun c => String c EmptyString) l)
  = string_of_list_ascii l.
Proof.
  unfold JsText.join. induction l as [|c l IH]; [reflexivity|].
  cbn [map string_of_list_ascii]. rewrite <- IH.
  destruct l; reflexivity.
Qed.

(** [s.split(sep).join(sep)] is [s]. *)
Lemma split_join sep s : JsText.join sep (JsText.split sep s) = s.
Proof.
  unfold JsText.split.
  destruct (String.eqb_spec sep EmptyString) as [->|Hsep].
  - rewrite join_singletons. apply string_of_list_ascii_of_string.
  - pose proof (splitScan_join sep s Hsep 0) as H.
    destruct (JsText.splitScan sep 0 s) as [piece pieces].
    cbn [fst snd] in H. rewrite H. now destruct s.
Qed.

Fixpoint totalLength (parts : list string) : nat :=
  match parts with
  | [] => 0
  | x :: rest => String.length x + totalLength rest
  end.

Lemma join_length sep piece pieces :
  String.length (JsText.join sep (piece :: pieces))
  = (totalLength (piece :: pieces) + length pieces * String.length sep)%nat.
Proof.
  unfold JsText.join. revert piece.
  induction pieces as [|x pieces IH]; intros piece.
  - simpl. lia.
  - change (String.concat sep (piece :: x :: pieces))
      with (piece ++ sep ++ String.concat sep (x :: pieces)).
    rewrite !append_length, IH. cbn [totalLength length]. lia.
Qed.

(** A scan finds a separator exactly when [indexOf] does. *)
Lemma splitScan_indexOf sep s :
  sep <> EmptyString ->
  (snd (JsText.splitScan sep 0 s) = [] <-> JsText.indexOf sep s = None).
Proof.
  intros Hsep. induction s as [|c s IH];
    cbn [JsText.splitScan JsText.indexOf].
  - destruct (String.prefix sep EmptyString) eqn:Hp; [|now split].
    apply prefix_app in Hp as [post Hp]. destruct sep; [congruence|discriminate].
  - destruct (String.prefix sep (String c s)) eqn:Hp.
    + destruct (JsText.splitScan sep (String.length sep - 1) s).
      cbn [snd]. split; discriminate.
    + destruct (JsText.splitScan sep 0 s) as [piece pieces].
      cbn [snd] in *. rewrite IH.
      destruct (JsText.indexOf sep s); simpl; split; congruence.
Qed.

(** *** The loop over the blocks *)

Section Engine.
Variable regex : Type.
Variable RegExp : string -> bool -> string + regex.
Variable matchLength : regex -> string -> option Z.
Variable replaceRegex : regex -> string -> string -> string.

Abbreviation applyBlock := (applyBlock regex RegExp matchLength replaceRegex).
Abbreviation applyBlocks := (applyBlocks regex RegExp matchLength replaceRegex).
Abbreviation updateFileLogic :=
  (updateFileLogic regex RegExp matchLength replaceRegex).

(** A block that made a change made at least one replacement. *)
Lemma applyBlock_positive useRegex replaceAll i block content content' n :
  applyBlock useRegex replaceAll i block content = Ok (Some (content', n)) ->
  (1 <= n)%Z.
Proof.
  unfold UpdateFile.applyBlock. destruct useRegex.
  - destruct (RegExp (search block) replaceAll) as [?|r]; [discriminate|].
    destruct (matchLength r content) as [matches|]; [|discriminate].
    destruct (Z.ltb_spec 0 matches); [|discriminate].
    intros [= _ <-]. lia.
  - destruct replaceAll.
    + destruct (Z.ltb_spec 1 (Z.of_nat (length (JsText.split (search block) content))));
        [|discriminate].
      intros [= _ <-]. lia.
    + destruct (JsText.indexOf (search block) content); [|discriminate].
      intros [= _ <-]. lia.
Qed.

(** The counters of the loop: every block is counted once, as applied
    or as failed, and the replacements are at least the applied
    blocks. *)
Lemma applyBlocks_counters useRegex replaceAll blocks :
  forall i p p',
    applyBlocks useRegex replaceAll i blocks p = Ok p' ->
    (blocksApplied p' + blocksFailed p'
     = blocksApplied p + blocksFailed p + Z.of_nat (length blocks)
     /\ blocksApplied p <= blocksApplied p'
     /\ blocksFailed p <= blocksFailed p'
     /\ blocksApplied p' - blocksApplied p
        <= totalReplacementsMade p' - totalReplacementsMade p
     /\ (blocksApplied p' = blocksApplied p ->
         totalReplacementsMade p' = totalReplacementsMade p
         /\ updatedContent p' = updatedContent p))%Z.
Proof.
  induction blocks as [|block rest IH]; intros i p p'.
  - cbn [UpdateFile.applyBlocks length]. intros [= <-].
    repeat split; lia.
  - cbn [UpdateFile.applyBlocks].
    destruct (applyBlock useRegex replaceAll i block (updatedContent p))
      as [[[content n]|]|e] eqn:Hblock; [| |discriminate].
    + apply applyBlock_positive in Hblock. intros H.
      apply IH in H. cbn [blocksApplied blocksFailed totalReplacementsMade
                           updatedContent] in H.
      cbn [length]. rewrite Nat2Z.inj_succ. repeat split; lia.
    + intros H. apply IH in H.
      cbn [blocksApplied blocksFailed totalReplacementsMade updatedContent]
        in H.
      cbn [length]. rewrite Nat2Z.inj_succ.
      destruct H as (H1 & H2 & H3 & H4 & H5).
      split; [lia|]. split; [lia|]. split; [lia|]. split; [lia|exact H5].
Qed.

(** X17.  The accounting of [updateFileLogic]: in every successful
    result the applied and the failed blocks add up to the blocks of the
    request; the file is read once, and written, once and after the read,
    exactly when a block was applied. *)
Theorem updateFile_accounting env cwd st input log out :
  updateFileLogic env cwd st input = (log, Ok out) ->
  (outputBlocksApplied out + outputBlocksFailed out
   = Z.of_nat (length (blocks input))
   /\ 0 <= outputBlocksApplied out /\ 0 <= outputBlocksFailed out)%Z
  /\ exists q,
       State.resolvePath cwd st (path input) = Ok q
       /\ updatedPath out = q
       /\ ((outputBlocksApplied out = 0%Z /\ log = [ReadFile q])
           \/ ((0 < outputBlocksApplied out)%Z
               /\ exists text,
                    log = [ReadFile q; WriteFile q text]
                    /\ writeFile env [ReadFile q] q text = None)).
Proof.
  unfold UpdateFile.updateFileLogic.
  destruct (State.resolvePath cwd st (path input)) as [q|] eqn:Hq;
    [|discriminate].
  destruct (readFile env [] q) as [readError|currentContent].
  { destruct (isENOENT (OfFs readError)); discriminate. }
  destruct (applyBlocks (useRegex input) (replaceAll input) 0 (blocks input)
              (start currentContent)) as [p|e] eqn:Hloop; [|discriminate].
  apply applyBlocks_counters in Hloop.
  cbn [start blocksApplied blocksFailed totalReplacementsMade updatedContent]
    in Hloop.
  destruct Hloop as (Hsum & Happlied & Hfailed & Htotal & Hnone).
  destruct (Z.ltb_spec 0 (totalReplacementsMade p)) as [Hpos|Hzero].
  - destruct (writeFile env [ReadFile q] q (updatedContent p)) eqn:Hwrite;
      [discriminate|].
    intros [= <- <-]. cbn [outputBlocksApplied outputBlocksFailed updatedPath].
    assert (0 < blocksApplied p)%Z.
    { destruct (Z.eq_dec (blocksApplied p) 0) as [E|]; [|lia].
      destruct (Hnone E). lia. }
    split; [repeat split; lia|]. exists q. repeat split.
    right. split; [assumption|]. now exists (updatedContent p).
  - intros [= <- <-]. cbn [outputBlocksApplied outputBlocksFailed updatedPath].
    split; [repeat split; lia|]. exists q. repeat split. now left.
Qed.

(** X18.  [updateFileLogic] and the filesystem: with a path that
    [resolvePath] refuses there is no call at all; every call is a
    [readFile] or a [writeFile] of the resolved path, which lies within
    the base directory when one is active; and what is written is the
    content read with the blocks applied to it, after a successful read
    and only when a block was applied. *)
Theorem updateFile_calls env cwd st input call :
  In call (fst (updateFileLogic env cwd st input)) ->
  exists q,
    State.resolvePath cwd st (path input) = Ok q
    /\ (forall base,
          JsString.truthy (State.fsBaseDirectory st) = Some base ->
          ResolverFacts.withinBase base q)
    /\ (call = ReadFile q
        \/ exists currentContent p,
             call = WriteFile q (updatedContent p)
             /\ readFile env [] q = inr currentContent
             /\ applyBlocks (useRegex input) (replaceAll input) 0
                            (blocks input) (start currentContent) = Ok p
             /\ (0 < blocksApplied p)%Z).
Proof.
  unfold UpdateFile.updateFileLogic.
  destruct (State.resolvePath cwd st (path input)) as [q|] eqn:Hq;
    [|intros []].
  intros H. exists q. split; [reflexivity|].
  split; [intros base; now apply (ToolFacts.resolvePath_withinBase cwd st (path input))|].
  destruct (readFile env [] q) as [readError|currentContent] eqn:Hread.
  { destruct (isENOENT (OfFs readError)); ToolFacts.each_call H; now left. }
  destruct (applyBlocks (useRegex input) (replaceAll input) 0 (blocks input)
              (start currentContent)) as [p|e] eqn:Hloop.
  2:{ ToolFacts.each_call H; now left. }
  destruct (Z.ltb_spec 0 (totalReplacementsMade p)) as [Hpos|Hzero].
  2:{ ToolFacts.each_call H; now left. }
  assert (0 < blocksApplied p)%Z.
  { pose proof (applyBlocks_counters _ _ _ _ _ _ Hloop) as Hc.
    cbn [start blocksApplied blocksFailed totalReplacementsMade updatedContent]
      in Hc.
    destruct Hc as (_ & Happlied & _ & _ & Hnone).
    destruct (Z.eq_dec (blocksApplied p) 0) as [E|]; [|lia].
    destruct (Hnone E). lia. }
  destruct (writeFile env [ReadFile q] q (updatedContent p));
    ToolFacts.each_call H; subst call; auto;
    right; exists currentContent, p; auto.
Qed.

End Engine.

(** A host without regular expressions. *)
Definition noRegExp : string -> bool -> string + unit :=
  fun _ _ => inl "regular expressions are not available".

Definition editNotes : UpdateFileInput :=
  {| path := "a.txt";
     blocks := [ {| search := "l"; replace := "L" |};
                 {| search := "z"; replace := "y" |} ];
     useRegex := false;
     replaceAll := true |}.

Example updateFile_run :
  UpdateFile.updateFileLogic unit noRegExp (fun _ _ => None) (fun _ s _ => s)
    ToolFacts.oneFile "/srv" ResolverFacts.sandboxed editNotes
  = ([ReadFile "/sandbox/work/a.txt"; WriteFile "/sandbox/work/a.txt" "heLLo"],
     Ok {| updateMessage :=
             "Successfully updated file /sandbox/work/a.txt. Made 2 replacement(s) across 1 block(s). 1 block(s) failed (search criteria not found).";
           updatedPath := "/sandbox/work/a.txt";
           outputBlocksApplied := 1;
           outputBlocksFailed := 1 |}).
Proof. reflexivity. Qed.

Lemma updateFile_accounting_witness :
  (1 + 1 = Z.of_nat (length (blocks editNotes)) /\ 0 <= 1 /\ 0 <= 1)%Z
  /\ exists q,
       State.resolvePath "/srv" ResolverFacts.sandboxed (path editNotes) = Ok q
       /\ "/sandbox/work/a.txt" = q
       /\ ((1%Z = 0%Z /\ [ReadFile "/sandbox/work/a.txt";
                          WriteFile "/sandbox/work/a.txt" "heLLo"]
                         = [ReadFile q])
           \/ ((0 < 1)%Z
               /\ exists text,
                    [ReadFile "/sandbox/work/a.txt";
                     WriteFile "/sandbox/work/a.txt" "heLLo"]
                    = [ReadFile q; WriteFile q text]
                    /\ writeFile ToolFacts.oneFile [ReadFile q] q text = None)).
Proof.
  apply (updateFile_accounting unit noRegExp (fun _ _ => None)
           (fun _ s _ => s) ToolFacts.oneFile "/srv" ResolverFacts.sandboxed
           editNotes
           [ReadFile "/sandbox/work/a.txt";
            WriteFile "/sandbox/work/a.txt" "heLLo"]
           {| updateMessage :=
                "Successfully updated file /sandbox/work/a.txt. Made 2 replacement(s) across 1 block(s). 1 block(s) failed (search criteria not found).";
              updatedPath := "/sandbox/work/a.txt";
              outputBlocksApplied := 1;
              outputBlocksFailed := 1 |}).
  reflexivity.
Defined.

Lemma updateFile_calls_witness :
  exists q,
    State.resolvePath "/srv" ResolverFacts.sandboxed (path editNotes) = Ok q
    /\ (forall base,
          JsString.truthy (State.fsBaseDirectory ResolverFacts.sandboxed)
          = Some base ->
          ResolverFacts.withinBase base q)
    /\ (WriteFile "/sandbox/work/a.txt" "heLLo" = ReadFile q
        \/ exists currentContent p,
             WriteFile "/sandbox/work/a.txt" "heLLo"
             = WriteFile q (updatedContent p)
             /\ readFile ToolFacts.oneFile [] q = inr currentContent
             /\ UpdateFile.applyBlocks unit noRegExp (fun _ _ => None)
                  (fun _ s _ => s) (useRegex editNotes) (replaceAll editNotes)
                  0 (blocks editNotes) (start currentContent) = Ok p
             /\ (0 < blocksApplied p)%Z).
Proof.
  apply (updateFile_calls unit noRegExp (fun _ _ => None) (fun _ s _ => s)
           ToolFacts.oneFile "/srv" ResolverFacts.sandboxed editNotes
           (WriteFile "/sandbox/work/a.txt" "heLLo")).
  right; left; reflexivity.
Defined.

(** *** Exact matching *)

Section Exact.
Variable regex : Type.
Variable RegExp : string -> bool -> string + regex.
Variable matchLength : regex -> string -> option Z.
Variable replaceRegex : regex -> string -> string -> string.

Abbreviation applyBlock :=
  (UpdateFile.applyBlock regex RegExp matchLength replaceRegex).

(** X19.  Exact matching, first occurrence only: a block never throws;
    it fails exactly when its search text occurs nowhere in the content;
    otherwise it counts one replacement and the new content is the old
    one with the leftmost occurrence of the search text, and nothing
    else, replaced. *)
Theorem applyBlock_first_occurrence i block content :
  match applyBlock false false i block content with
  | Ok (Some (content', n)) =>
      n = 1%Z
      /\ exists pre post,
           occursAt (search block) content pre post
           /\ leftmost (search block) content pre
           /\ content' = pre ++ replace block ++ post
  | Ok None => forall pre post, ~ occursAt (search block) content pre post
  | Throw _ => False
  end.
Proof.
  unfold UpdateFile.applyBlock.
  destruct (JsText.indexOf (search block) content) as [index|] eqn:Hindex.
  - split; [reflexivity|].
    destruct (indexOf_Some _ _ _ Hindex) as (pre & post & Hocc & <- & Hleft).
    exists pre, post. repeat split; auto.
    unfold occursAt in Hocc. rewrite Hocc at 1 2.
    unfold JsText.substring. rewrite Nat.sub_0_r, substring_prefix.
    rewrite <- append_length.
    rewrite <- (append_assoc pre (search block) post) at 1.
    rewrite substringFrom_app. reflexivity.
  - now apply indexOf_None.
Qed.

(** X20.  With a search text that is not empty, the two exact modes
    fail on the same blocks: replacing all occurrences finds nothing
    exactly when replacing the first one finds nothing. *)
Theorem exact_modes_fail_together i block content :
  search block <> EmptyString ->
  (applyBlock false true i block content = Ok None
   <-> applyBlock false false i block content = Ok None).
Proof.
  intros Hsearch. unfold UpdateFile.applyBlock, JsText.split.
  destruct (String.eqb_spec (search block) EmptyString) as [E|_];
    [contradiction|].
  pose proof (splitScan_indexOf (search block) content Hsearch) as Hagree.
  destruct (JsText.splitScan (search block) 0 content) as [piece pieces].
  cbn [snd] in Hagree. cbn [length].
  destruct (JsText.indexOf (search block) content) as [index|].
  - destruct pieces as [|x pieces].
    + destruct Hagree as [Hagree _]. now specialize (Hagree eq_refl).
    + cbn [length].
      destruct (Z.ltb_spec 1 (Z.of_nat (S (S (length pieces))))); [|lia].
      split; discriminate.
  - destruct Hagree as [_ Hagree]. rewrite (Hagree eq_refl). simpl.
    split; reflexivity.
Qed.

(** X21.  Exact matching, all occurrences: a block that is applied
    counts [n >= 1] replacements, and the length of the content changes
    by [n] times the difference between the replacement and the search
    text; with a replacement equal to the search text the content comes
    back unchanged ([split] then [join] is the identity), and the block
    still counts as applied. *)
Theorem applyBlock_all_occurrences i block content content' n :
  applyBlock false true i block content = Ok (Some (content', n)) ->
  (1 <= n)%Z
  /\ (Z.of_nat (String.length content')
      = Z.of_nat (String.length content)
        + n * (Z.of_nat (String.length (replace block))
               - Z.of_nat (String.length (search block))))%Z
  /\ (replace block = search block -> content' = content).
Proof.
  unfold UpdateFile.applyBlock.
  pose proof (split_join (search block) content) as Hround.
  destruct (JsText.split (search block) content) as [|piece pieces] eqn:Hsplit.
  - discriminate.
  - cbn [length].
    destruct (Z.ltb_spec 1 (Z.of_nat (S (length pieces)))); [|discriminate].
    remember (JsText.join (replace block) (piece :: pieces)) as joined
      eqn:Hjoined.
    remember (Z.of_nat (S (length pieces)) - 1)%Z as count eqn:Hcount.
    intros [= <- <-]. subst joined count. split; [lia|]. split.
    + rewrite <- Hround. rewrite !join_length.
      rewrite !Nat2Z.inj_add, !Nat2Z.inj_mul, Nat2Z.inj_succ.
      unfold Z.succ. ring.
    + intros ->. exact Hround.
Qed.

End Exact.

Lemma exact_modes_fail_together_witness :
  UpdateFile.applyBlock unit noRegExp (fun _ _ => None) (fun _ s _ => s)
    false true 0 {| search := "z"; replace := "y" |} "hello" = Ok None
  <-> UpdateFile.applyBlock unit noRegExp (fun _ _ => None) (fun _ s _ => s)
        false false 0 {| search := "z"; replace := "y" |} "hello" = Ok None.
Proof.
  apply (exact_modes_fail_together unit noRegExp (fun _ _ => None)
           (fun _ s _ => s) 0 {| search := "z"; replace := "y" |} "hello").
  discriminate.
Defined.

Lemma applyBlock_all_occurrences_witness :
  (1 <= 2)%Z
  /\ (Z.of_nat (String.length "heLLLLo")
      = Z.of_nat (String.length "hello")
        + 2 * (Z.of_nat (String.length
                           (replace {| search := "l"; replace := "LL" |}))
               - Z.of_nat (String.length
                             (search {| search := "l"; replace := "LL" |}))))%Z
  /\ (replace {| search := "l"; replace := "LL" |}
      = search {| search := "l"; replace := "LL" |} ->
      "heLLLLo" = "hello").
Proof.
  apply (applyBlock_all_occurrences unit noRegExp (fun _ _ => None)
           (fun _ s _ => s) 0 {| search := "l"; replace := "LL" |}
           "hello" "heLLLLo" 2).
  reflexivity.
Defined.

(** The search text must not be empty in X20: on a content of one
    character the empty text is found by [indexOf] and not by [split]. *)
Example empty_search_modes_differ :
  UpdateFile.applyBlock unit noRegExp (fun _ _ => None) (fun _ s _ => s)
    false true 0 {| search := EmptyString; replace := "x" |} "a" = Ok None
  /\ UpdateFile.applyBlock unit noRegExp (fun _ _ => None) (fun _ s _ => s)
       false false 0 {| search := EmptyString; replace := "x" |} "a"
     = Ok (Some ("xa", 1%Z)).
Proof. split; reflexivity. Qed.

End UpdateFileFacts.

(* ------------------------------------------------------------------ *)
(** ** Normal forms of paths *)

Module NormalFormFacts.
Import Path.

(** A segment that [normalizeString] keeps as it is. *)
Definition name (seg : string) : Prop :=
  seg <> EmptyString /\ seg <> "." /\ seg <> "..".

(** The stacks [normalizeString] builds, last segment first: names on
    top of the [..] segments that could not be resolved, which stay only
    when [allowAboveRoot] is set. *)
Inductive normalStack (allow : bool) : list string -> Prop :=
| normal_nil : normalStack allow []
| normal_up stack :
    allow = true -> Forall (eq "..") stack -> normalStack allow (".." :: stack)
| normal_name seg stack :
    name seg -> normalStack allow stack -> normalStack allow (seg :: stack).

Lemma pushSegment_normal allow stack seg :
  normalStack allow stack -> normalStack allow (pushSegment allow stack seg).
Proof.
  intros H. unfold pushSegment.
  destruct (String.eqb_spec seg EmptyString) as [|Hne]; [exact H|].
  destruct (String.eqb_spec seg ".") as [|Hdot]; [exact H|].
  destruct (String.eqb_spec seg "..") as [->|Hup].
  - destruct stack as [|top below].
    + destruct allow eqn:Ha; [|constructor].
      apply normal_up; [reflexivity | constructor].
    + destruct (String.eqb_spec top "..") as [->|Htop].
      * destruct allow eqn:Ha; [|exact H].
        apply normal_up; [reflexivity|]. constructor; [reflexivity|].
        inversion H as [|stack' _ Hall|seg' stack' Hname _]; subst;
          [exact Hall|].
        destruct Hname as (_ & _ & Hname). congruence.
      * inversion H as [|stack' _ Hall|seg' stack' _ Hbelow]; subst;
          [congruence | exact Hbelow].
  - apply normal_name; [repeat split; assumption | exact H].
Qed.

Lemma fold_normal allow segs :
  forall stack,
    normalStack allow stack ->
    normalStack allow (fold_left (pushSegment allow) segs stack).
Proof.
  induction segs as [|seg segs IH]; intros stack H; cbn [fold_left];
    [exact H|].
  apply IH. now apply pushSegment_normal.
Qed.

Lemma dotdots_normal allow stack :
  allow = true -> Forall (eq "..") stack -> normalStack allow stack.
Proof.
  intros Ha Hall. destruct Hall as [|x l <- Hl]; [constructor|].
  now apply normal_up.
Qed.

Lemma normalStack_suffix allow above below :
  normalStack allow (above ++ below)%list -> normalStack allow below.
Proof.
  induction above as [|x above IH]; cbn [app]; [auto|].
  intros H. inversion H as [|stack Ha Hall|seg stack _ Hrest]; subst.
  - apply dotdots_normal; [reflexivity|].
    apply Forall_app in Hall. apply Hall.
  - now apply IH.
Qed.

(** Pushing the top of a normal stack back gives it back. *)
Lemma pushSegment_top allow seg stack :
  normalStack allow (seg :: stack) ->
  pushSegment allow stack seg = seg :: stack.
Proof.
  intros H. inversion H as [|stack' Ha Hall|seg' stack' Hname _]; subst.
  - unfold pushSegment. cbn [String.eqb Ascii.eqb Bool.eqb].
    change ((".." =? EmptyString)%string) with false.
    change ((".." =? ".")%string) with false.
    change ((".." =? "..")%string) with true. cbn iota.
    destruct Hall as [|top below <- _]; [reflexivity|].
    change ((".." =? "..")%string) with true. reflexivity.
  - destruct Hname as (Hne & Hdot & Hup). unfold pushSegment.
    destruct (String.eqb_spec seg EmptyString); [contradiction|].
    destruct (String.eqb_spec seg "."); [contradiction|].
    destruct (String.eqb_spec seg ".."); [contradiction|].
    reflexivity.
Qed.

Lemma fold_fixed allow segs :
  forall stack,
    normalStack allow (rev segs ++ stack)%list ->
    fold_left (pushSegment allow) segs stack = (rev segs ++ stack)%list.
Proof.
  induction segs as [|seg segs IH]; intros stack H; [reflexivity|].
  cbn [fold_left rev] in *. rewrite <- app_assoc in *. cbn [app] in *.
  rewrite (pushSegment_top allow seg stack).
  - now apply IH.
  - now apply normalStack_suffix in H.
Qed.

(** [normalizeString] leaves its own results as they are. *)
Lemma normalizeSegments_fixed allow segs :
  normalizeSegments allow (normalizeSegments allow segs)
  = normalizeSegments allow segs.
Proof.
  unfold normalizeSegments.
  pose proof (fold_normal allow segs [] (normal_nil allow)) as H.
  rewrite fold_fixed; rewrite rev_involutive, app_nil_r; [reflexivity|exact H].
Qed.

Lemma normalizeSegments_empty_first allow segs :
  normalizeSegments allow (EmptyString :: segs) = normalizeSegments allow segs.
Proof. reflexivity. Qed.

Lemma normalizeSegments_empty_last allow segs :
  normalizeSegments allow (segs ++ [EmptyString])%list = normalizeSegments allow segs.
Proof. unfold normalizeSegments. now rewrite fold_left_app. Qed.

(** *** [split] on joined segments *)

Lemma split_slashFree x :
  JsString.includesChar "/" x = false -> split x = [x].
Proof.
  induction x as [|c x IH]; [reflexivity|].
  rewrite NormalizeFacts.includesChar_cons. intros H.
  apply orb_false_iff in H as [Hc Hx]. cbn [split].
  unfold isPosixPathSeparator. rewrite Hc, (IH Hx). reflexivity.
Qed.

Lemma split_app_sep x rest :
  JsString.includesChar "/" x = false ->
  split (x ++ "/" ++ rest) = x :: split rest.
Proof.
  induction x as [|c x IH]; [reflexivity|].
  rewrite NormalizeFacts.includesChar_cons. intros H.
  apply orb_false_iff in H as [Hc Hx]. cbn [append split].
  unfold isPosixPathSeparator. rewrite Hc.
  change (String "/" rest) with ("/" ++ rest). rewrite (IH Hx). reflexivity.
Qed.

Lemma split_concat segs :
  segs <> [] ->
  Forall PathFacts.plain segs ->
  split (String.concat "/" segs) = segs.
Proof.
  intros Hne Hall. induction Hall as [|x l [_ Hx] Hl IH]; [congruence|].
  destruct l as [|y l].
  - now apply split_slashFree.
  - change (String.concat "/" (x :: y :: l))
      with (x ++ "/" ++ String.concat "/" (y :: l)).
    rewrite (split_app_sep _ _ Hx), IH; [reflexivity | discriminate].
Qed.

Lemma split_not_nil q : split q <> [].
Proof.
  destruct q as [|c q]; cbn [split]; [discriminate|].
  destruct (isPosixPathSeparator c); [discriminate|].
  destruct (split q); discriminate.
Qed.

Lemma split_trailing q : split (q ++ "/") = (split q ++ [EmptyString])%list.
Proof.
  induction q as [|c q IH]; [reflexivity|].
  cbn [append split]. rewrite IH.
  destruct (isPosixPathSeparator c); [reflexivity|].
  pose proof (split_not_nil q) as Hne.
  destruct (split q); [contradiction | reflexivity].
Qed.

Lemma concat_not_empty x l :
  PathFacts.plain x -> String.concat "/" (x :: l) <> EmptyString.
Proof.
  intros [Hne _]. destruct x as [|c x]; [congruence|].
  destruct l; discriminate.
Qed.

(** *** The last character *)

Lemma endsWithChar_app c a b :
  b <> EmptyString ->
  JsString.endsWithChar c (a ++ b) = JsString.endsWithChar c b.
Proof.
  intros Hb. induction a as [|d a IH]; [reflexivity|].
  cbn [append JsString.endsWithChar].
  destruct (a ++ b) eqn:E; [|exact IH].
  destruct a; [contradiction | discriminate].
Qed.

Lemma endsWithChar_includes c s :
  JsString.endsWithChar c s = true -> JsString.includesChar c s = true.
Proof.
  induction s as [|d s IH]; [discriminate|].
  cbn [JsString.endsWithChar]. rewrite NormalizeFacts.includesChar_cons.
  destruct s as [|e s].
  - intros ->. reflexivity.
  - intros H. rewrite (IH H). apply orb_true_r.
Qed.

Lemma endsWithChar_concat segs :
  Forall PathFacts.plain segs ->
  JsString.endsWithChar "/" (String.concat "/" segs) = false.
Proof.
  intros Hall. induction Hall as [|x l [Hne Hx] Hl IH]; [reflexivity|].
  destruct l as [|y l].
  - cbn [String.concat].
    destruct (JsString.endsWithChar "/" x) eqn:E; [|reflexivity].
    apply endsWithChar_includes in E. congruence.
  - change (String.concat "/" (x :: y :: l))
      with (x ++ "/" ++ String.concat "/" (y :: l)).
    inversion Hl as [|y' l' Hy Hl']; subst.
    pose proof (concat_not_empty y l Hy) as Hrest.
    rewrite endsWithChar_app by discriminate.
    rewrite (endsWithChar_app "/" "/") by exact Hrest.
    exact IH.
Qed.

(** *** [path.normalize] *)

(** The text [path.normalize] builds from what [normalizeString] kept. *)
Definition render (isAbs trailingSeparator : bool) (segs : list string)
  : string :=
  let q := String.concat "/" segs in
  if q =? EmptyString then
    (if isAbs then "/" else if trailingSeparator then "./" else ".")
  else
    let q := if trailingSeparator then q ++ "/" else q in
    if isAbs then "/" ++ q else q.

Lemma normalize_render p :
  normalize p
  = if p =? EmptyString then "."
    else render (isAbsolute p) (JsString.endsWithChar "/" p)
           (normalizeSegments (negb (isAbsolute p)) (split p)).
Proof. reflexivity. Qed.

Lemma render_fixed isAbs trailingSeparator segs :
  Forall PathFacts.plain segs ->
  normalizeSegments (negb isAbs) segs = segs ->
  normalize (render isAbs trailingSeparator segs)
  = render isAbs trailingSeparator segs.
Proof.
  intros Hplain Hfixed. destruct segs as [|x l].
  - destruct isAbs, trailingSeparator; reflexivity.
  - inversion Hplain as [|x' l' Hx Hl]; subst.
    pose proof (concat_not_empty x l Hx) as Hq.
    pose proof (split_concat (x :: l) ltac:(discriminate) Hplain) as Hsplit.
    pose proof (endsWithChar_concat (x :: l) Hplain) as Hend.
    pose proof (PathFacts.concat_plain_not_absolute (x :: l) Hplain) as Hrel.
    unfold render at 1.
    destruct (String.eqb_spec (String.concat "/" (x :: l)) EmptyString)
      as [E|_]; [contradiction|].
    set (q := String.concat "/" (x :: l)) in *.
    rewrite normalize_render.
    destruct isAbs, trailingSeparator; cbn [negb] in *.
    + change (("/" ++ q ++ "/" =? EmptyString)%string) with false. cbv iota.
      change (isAbsolute ("/" ++ q ++ "/")) with true.
      change (JsString.endsWithChar "/" ("/" ++ q ++ "/"))
        with (JsString.endsWithChar "/" (("/" ++ q) ++ "/")).
      rewrite (endsWithChar_app "/" ("/" ++ q) "/") by discriminate.
      change (split ("/" ++ q ++ "/"))
        with (EmptyString :: split (q ++ "/")).
      cbn [negb].
      rewrite split_trailing, Hsplit, normalizeSegments_empty_first,
        normalizeSegments_empty_last, Hfixed.
      reflexivity.
    + change (("/" ++ q =? EmptyString)%string) with false. cbv iota.
      change (isAbsolute ("/" ++ q)) with true.
      rewrite (endsWithChar_app "/" "/" q) by exact Hq. rewrite Hend.
      change (split ("/" ++ q)) with (EmptyString :: split q).
      cbn [negb].
      rewrite Hsplit, normalizeSegments_empty_first, Hfixed.
      reflexivity.
    + destruct (String.eqb_spec (q ++ "/") EmptyString) as [E|_].
      { destruct q; discriminate. }
      rewrite NormalizeFacts.isAbsolute_app_not_empty by exact Hq.
      rewrite Hrel.
      rewrite (endsWithChar_app "/" q "/") by discriminate.
      rewrite split_trailing, Hsplit, normalizeSegments_empty_last.
      cbn [negb]. rewrite Hfixed. reflexivity.
    + destruct (String.eqb_spec q EmptyString) as [E|_]; [contradiction|].
      rewrite Hrel, Hend, Hsplit. cbn [negb]. rewrite Hfixed. reflexivity.
Qed.

(** [path.normalize] is idempotent. *)
Lemma normalize_idempotent p : normalize (normalize p) = normalize p.
Proof.
  rewrite (normalize_render p).
  destruct (String.eqb_spec p EmptyString) as [->|Hp]; [reflexivity|].
  apply render_fixed.
  - apply NormalizeFacts.normalizeSegments_plain.
  - apply normalizeSegments_fixed.
Qed.

(** *** [resolvePath] on its own results *)

Lemma replaceBackslashes_fixed s :
  JsString.includesChar "\" s = false -> JsString.replaceBackslashes s = s.
Proof.
  unfold JsString.replaceBackslashes.
  induction s as [|c s IH]; [reflexivity|].
  rewrite NormalizeFacts.includesChar_cons. intros H.
  apply orb_false_iff in H as [Hc Hs]. cbn [JsString.mapChars].
  rewrite (IH Hs). unfold JsString.backslashToSlash. now rewrite Hc.
Qed.

Lemma normalize_no_backslash p :
  JsString.includesChar "\" p = false ->
  JsString.includesChar "\" (normalize p) = false.
Proof.
  intros Hp. destruct (JsString.includesChar "\" (normalize p)) eqn:H;
    [|reflexivity].
  destruct (NormalizeFacts.normalize_chars _ _ H) as [E|[E|E]];
    [discriminate E | discriminate E | congruence].
Qed.

(** X22.  A path that [resolvePath] returns for a candidate without
    backslash is in normal form, and [resolvePath] returns it unchanged
    when it is given back: resolving is idempotent on such paths. *)
Theorem resolvePath_idempotent cwd st requestedPath absolutePath q :
  StateFacts.defaultAbsolute st ->
  State.candidatePath st requestedPath = Ok absolutePath ->
  JsString.includesChar "\" absolutePath = false ->
  State.resolvePath cwd st requestedPath = Ok q ->
  q = normalize absolutePath
  /\ normalize q = q
  /\ State.resolvePath cwd st q = Ok q.
Proof.
  intros Hdef Hc Hback Hq.
  pose proof (StateFacts.candidatePath_isAbsolute _ _ _ Hdef Hc) as Habs.
  rewrite (StateFacts.resolvePath_of_candidate cwd _ _ _ Hdef Hc) in Hq.
  destruct (JsString.includesChar JsString.NUL absolutePath) eqn:Hnul;
    [discriminate|].
  assert (Hinput : Sanitization.normalizeInput true absolutePath
                   = normalize absolutePath).
  { unfold Sanitization.normalizeInput.
    now apply replaceBackslashes_fixed, normalize_no_backslash. }
  rewrite Hinput in Hq.
  assert (Hq' : q = normalize absolutePath).
  { destruct (JsString.truthy (State.fsBaseDirectory st)) as [base|];
      [destruct (State.outsideBase base (normalize absolutePath))|];
      congruence. }
  split; [exact Hq'|]. split; [subst q; apply normalize_idempotent|].
  assert (Hqabs : isAbsolute q = true)
    by (subst q; now rewrite NormalizeFacts.normalize_isAbsolute).
  assert (Hcq : State.candidatePath st q = Ok q)
    by (unfold State.candidatePath; now rewrite Hqabs).
  rewrite (StateFacts.resolvePath_of_candidate cwd _ _ _ Hdef Hcq).
  assert (Hnulq : JsString.includesChar JsString.NUL q = false).
  { rewrite <- Hinput in Hq'. subst q.
    now apply NormalizeFacts.normalizeInput_null. }
  rewrite Hnulq.
  assert (Hfix : Sanitization.normalizeInput true q = q).
  { unfold Sanitization.normalizeInput. subst q.
    rewrite normalize_idempotent.
    now apply replaceBackslashes_fixed, normalize_no_backslash. }
  rewrite Hfix.
  destruct (JsString.truthy (State.fsBaseDirectory st)) as [base|];
    [|reflexivity].
  rewrite <- Hq' in Hq.
  destruct (State.outsideBase base q); [discriminate | reflexivity].
Qed.

Lemma resolvePath_idempotent_witness :
  "/sandbox/work/a.txt" = normalize "/sandbox/work/a.txt"
  /\ normalize "/sandbox/work/a.txt" = "/sandbox/work/a.txt"
  /\ State.resolvePath "/srv" ResolverFacts.sandboxed "/sandbox/work/a.txt"
     = Ok "/sandbox/work/a.txt".
Proof.
  apply (resolvePath_idempotent "/srv" ResolverFacts.sandboxed
           "notes/../a.txt" "/sandbox/work/a.txt" "/sandbox/work/a.txt").
  - intros def [= <-]. reflexivity.
  - reflexivity.
  - reflexivity.
  - reflexivity.
Defined.

(** With a backslash the result need not be in normal form: the
    backslashes are replaced after the normalization, and a second call
    resolves the [..] this brings out. *)
Example resolvePath_backslash_twice :
  State.resolvePath "/srv" ResolverFacts.sandboxed "/sandbox/x\..\y"
  = Ok "/sandbox/x/../y"
  /\ State.resolvePath "/srv" ResolverFacts.sandboxed "/sandbox/x/../y"
     = Ok "/sandbox/y".
Proof. split; reflexivity. Qed.

End NormalFormFacts.

(* ------------------------------------------------------------------ *)
(** ** [sanitizePath] without [allowAbsolute] *)

Module RelativeOutputFacts.
Import Sanitization.

Lemma dropSlashRun_not_absolute s : Path.isAbsolute (dropSlashRun s) = false.
Proof.
  induction s as [|c s IH]; [reflexivity|]. cbn [dropSlashRun].
  destruct (isSlashOrBackslash c) eqn:Hc; [exact IH|].
  unfold isSlashOrBackslash in Hc. apply orb_false_iff in Hc as [Hc _].
  exact Hc.
Qed.

Lemma stripRootMarker_cases s :
  stripRootMarker s = dropSlashRun s
  \/ exists rest, stripRootMarker s = dropSlashRun rest.
Proof.
  destruct s as [|l [|colon tail]]; try (now left).
  destruct colon as [[] [] [] [] [] [] [] []]; try (now left).
  destruct tail as [|c rest]; [now left|].
  cbn [stripRootMarker].
  destruct (isLetter l && isSlashOrBackslash c); [right; now exists rest|].
  now left.
Qed.

Lemma stripRootMarker_not_absolute s :
  Path.isAbsolute (stripRootMarker s) = false.
Proof.
  destruct (stripRootMarker_cases s) as [->|[rest ->]];
    apply dropSlashRun_not_absolute.
Qed.

(** X23.  With [allowAbsolute] unset or false, whatever [sanitizePath]
    returns is a relative path, with or without a root directory; the
    flag [wasAbsolute] tells whether the input was absolute, and
    [convertedToRelative] is then the same flag. *)
Theorem sanitizePath_relative_output cwd input options info :
  orFalse (allowAbsolute options) = false ->
  sanitizePath cwd input options = Ok info ->
  Path.isAbsolute (sanitizedPath info) = false
  /\ wasAbsolute info = Path.isAbsolute input
  /\ convertedToRelative info = Path.isAbsolute input.
Proof.
  intros Hallow H. unfold sanitizePath in H.
  destruct (input =? EmptyString); [discriminate|].
  destruct (JsString.includesChar JsString.NUL input); [discriminate|].
  rewrite !SanitizerFacts.effective_allowAbsolute, Hallow in H.
  rewrite NormalizeFacts.normalize_isAbsolute in H.
  assert (Hflags : forall final,
             Path.isAbsolute final = false ->
             Ok {| sanitizedPath := final;
                   originalInput := input;
                   wasAbsolute := Path.isAbsolute input;
                   convertedToRelative :=
                     Path.isAbsolute input && negb (Path.isAbsolute final)
                     && negb false;
                   optionsUsed := effectiveOptions cwd options |} = Ok info ->
             Path.isAbsolute (sanitizedPath info) = false
             /\ wasAbsolute info = Path.isAbsolute input
             /\ convertedToRelative info = Path.isAbsolute input).
  { intros final Hfinal [= <-]. cbn. rewrite Hfinal. cbn [negb].
    now rewrite !andb_true_r. }
  destruct (JsString.truthy (rootDir (effectiveOptions cwd options)))
    as [root|].
  - match type of H with
    | context [if ?c then Throw _ else _] => destruct c
    end; [discriminate|].
    match type of H with
    | context [if Path.isAbsolute ?rel && _ then _ else _] =>
        destruct (Path.isAbsolute rel) eqn:Hrel
    end; [discriminate|].
    cbn [bind andb] in H. exact (Hflags _ Hrel H).
  - match type of H with
    | context [if Path.isAbsolute ?n then _ else _] =>
        destruct (Path.isAbsolute n) eqn:Hn
    end.
    + cbn [bind negb] in H.
      exact (Hflags _ (stripRootMarker_not_absolute _) H).
    + match type of H with
      | context [if ?c then Throw _ else _] => destruct c
      end; [discriminate|].
      cbn [bind] in H. exact (Hflags _ Hn H).
Qed.

Lemma sanitizePath_relative_output_witness :
  Path.isAbsolute "etc/passwd" = false
  /\ true = Path.isAbsolute "/etc//passwd"
  /\ true = Path.isAbsolute "/etc//passwd".
Proof.
  apply (sanitizePath_relative_output "/srv" "/etc//passwd"
           {| rootDir := None; toPosix := None; allowAbsolute := None |}
           {| sanitizedPath := "etc/passwd";
              originalInput := "/etc//passwd";
              wasAbsolute := true;
              convertedToRelative := true;
              optionsUsed := effectiveOptions "/srv"
                {| rootDir := None; toPosix := None;
                   allowAbsolute := None |} |}).
  - reflexivity.
  - reflexivity.
Defined.

End RelativeOutputFacts.

(* ------------------------------------------------------------------ *)
(** ** [Sanitization.sanitizeNumber] *)

From Stdlib Require Import QArith Lqa.

Module Numbers.

(** A JavaScript number: a finite value, an infinity or [NaN].  No
    arithmetic is done on these values here, they are only compared. *)
Inductive JsNumber : Type :=
| Finite (q : Q)
| PosInfinity
| NegInfinity
| NaN.

(** [a < b] *)
Definition lessThan (a b : JsNumber) : bool :=
  match a, b with
  | NaN, _ | _, NaN => false
  | NegInfinity, NegInfinity => false
  | NegInfinity, _ => true
  | _, NegInfinity => false
  | PosInfinity, _ => false
  | _, PosInfinity => true
  | Finite x, Finite y => negb (Qle_bool y x)
  end.

(** [isNaN(value) || !isFinite(value)] *)
Definition notFinite (value : JsNumber) : bool :=
  match value with
  | Finite _ => false
  | _ => true
  end.

(** The argument of [sanitizeNumber] by its [typeof]. *)
Inductive NumberInput : Type :=
| OfNumber (n : JsNumber)
| OfString (s : string)
| OfOther.

Section Host.
(** [input.trim()], [validator.isNumeric] and [parseFloat]. *)
Variable trim : string -> string.
Variable isNumeric : string -> bool.
Variable parseFloat : string -> JsNumber.

Definition sanitizeNumber (input : NumberInput) (min max : option JsNumber)
  : result JsNumber :=
  value <-
    match input with
    | OfString s =>
        let trimmedInput := trim s in
        if (trimmedInput =? EmptyString) || negb (isNumeric trimmedInput)
        then Throw (Sanitization.validationError
                      "Invalid number format: input is empty or not numeric.")
        else Ok (parseFloat trimmedInput)
    | OfNumber n => Ok n
    | OfOther =>
        Throw (Sanitization.validationError
                 "Invalid input type: expected number or string.")
    end ;;
  if notFinite value
  then Throw (Sanitization.validationError
                "Invalid number value (NaN or Infinity).")
  else
    let value :=
      match min with
      | Some min => if lessThan value min then min else value
      | None => value
      end in
    let value :=
      match max with
      | Some max => if lessThan max value then max else value
      | None => value
      end in
    Ok value.

End Host.

End Numbers.

Module NumberFacts.
Import Numbers.

Lemma lessThan_finite x y :
  lessThan (Finite x) (Finite y) = true <-> (x < y)%Q.
Proof.
  cbn [lessThan]. destruct (Qle_bool y x) eqn:H; cbn [negb].
  - apply Qle_bool_iff in H. split; [discriminate|]. intros Hlt.
    exfalso. apply (Qlt_not_le _ _ Hlt H).
  - split; [|reflexivity]. intros _. apply Qnot_le_lt. intros Hle.
    apply Qle_bool_iff in Hle. congruence.
Qed.

Lemma lessThan_finite_false x y :
  lessThan (Finite x) (Finite y) = false <-> (y <= x)%Q.
Proof.
  cbn [lessThan]. destruct (Qle_bool y x) eqn:H; cbn [negb].
  - apply Qle_bool_iff in H. now split.
  - split; [discriminate|]. intros Hle. apply Qle_bool_iff in Hle.
    congruence.
Qed.

Section Host.
Variable trim : string -> string.
Variable isNumeric : string -> bool.
Variable parseFloat : string -> JsNumber.

Abbreviation sanitizeNumber := (Numbers.sanitizeNumber trim isNumeric parseFloat).

(** The number that is checked and clamped, when there is one. *)
Definition parsed (input : NumberInput) : option JsNumber :=
  match input with
  | OfNumber n => Some n
  | OfString s =>
      if (trim s =? EmptyString) || negb (isNumeric (trim s)) then None
      else Some (parseFloat (trim s))
  | OfOther => None
  end.

Lemma sanitizeNumber_parsed input min max r :
  sanitizeNumber input min max = Ok r ->
  exists q,
    parsed input = Some (Finite q)
    /\ sanitizeNumber (OfNumber (Finite q)) min max = Ok r.
Proof.
  unfold Numbers.sanitizeNumber, parsed.
  destruct input as [n|s|]; cbn [bind].
  - destruct n as [q| | |]; cbn [notFinite]; try discriminate.
    intros H. now exists q.
  - destruct ((trim s =? EmptyString) || negb (isNumeric (trim s)));
      cbn [bind]; [discriminate|].
    destruct (parseFloat (trim s)) as [q| | |]; cbn [notFinite];
      try discriminate.
    intros H. now exists q.
  - discriminate.
Qed.

(** X24.  [sanitizeNumber] with finite bounds: the result is a finite
    number not above [max]; it is not below [min] when [min <= max]; a
    number already within the bounds is returned as it is; and the
    result, given back with the same bounds, is returned unchanged. *)
Theorem sanitizeNumber_clamps input lo hi r :
  sanitizeNumber input (Some (Finite lo)) (Some (Finite hi)) = Ok r ->
  exists q,
    r = Finite q
    /\ (q <= hi)%Q
    /\ ((lo <= hi)%Q -> (lo <= q)%Q)
    /\ (forall v, parsed input = Some (Finite v) ->
                  (lo <= v)%Q -> (v <= hi)%Q -> r = Finite v)
    /\ sanitizeNumber (OfNumber r) (Some (Finite lo)) (Some (Finite hi))
       = Ok r.
Proof.
  intros H. apply sanitizeNumber_parsed in H as (x & Hparsed & H).
  unfold Numbers.sanitizeNumber in *. cbn [bind notFinite] in *.
  destruct (lessThan (Finite x) (Finite lo)) eqn:Hlo.
  - apply lessThan_finite in Hlo.
    destruct (lessThan (Finite hi) (Finite lo)) eqn:Hhi; injection H as <-.
    + apply lessThan_finite in Hhi. exists hi. split; [reflexivity|].
      split; [lra|]. split; [lra|]. split.
      * intros v Hv. rewrite Hparsed in Hv. injection Hv as <-. lra.
      * cbn [bind notFinite]. 
        assert (E : lessThan (Finite hi) (Finite lo) = true)
          by (apply lessThan_finite; lra).
        rewrite E. rewrite E. reflexivity.
    + apply lessThan_finite_false in Hhi. exists lo. split; [reflexivity|].
      split; [lra|]. split; [lra|]. split.
      * intros v Hv. rewrite Hparsed in Hv. injection Hv as <-. lra.
      * cbn [bind notFinite].
        assert (E : lessThan (Finite lo) (Finite lo) = false)
          by (apply lessThan_finite_false; lra).
        rewrite E.
        assert (E' : lessThan (Finite hi) (Finite lo) = false)
          by (apply lessThan_finite_false; lra).
        rewrite E'. reflexivity.
  - apply lessThan_finite_false in Hlo.
    destruct (lessThan (Finite hi) (Finite x)) eqn:Hhi; injection H as <-.
    + apply lessThan_finite in Hhi. exists hi. split; [reflexivity|].
      split; [lra|]. split; [lra|]. split.
      * intros v Hv. rewrite Hparsed in Hv. injection Hv as <-. lra.
      * cbn [bind notFinite].
        destruct (lessThan (Finite hi) (Finite lo)) eqn:E.
        -- rewrite E. reflexivity.
        -- assert (E' : lessThan (Finite hi) (Finite hi) = false)
             by (apply lessThan_finite_false; lra).
           rewrite E'. reflexivity.
    + apply lessThan_finite_false in Hhi. exists x. split; [reflexivity|].
      split; [lra|]. split; [lra|]. split.
      * intros v Hv. rewrite Hparsed in Hv. now injection Hv as <-.
      * cbn [bind notFinite].
        assert (E : lessThan (Finite x) (Finite lo) = false)
          by (apply lessThan_finite_false; lra).
        rewrite E.
        assert (E' : lessThan (Finite hi) (Finite x) = false)
          by (apply lessThan_finite_false; lra).
        rewrite E'. reflexivity.
Qed.

(** X25.  The result of [sanitizeNumber] is never [NaN]; it is the
    number given or parsed, or one of the two bounds; and it is an
    infinity only when that infinity was given as a bound. *)
Theorem sanitizeNumber_result input min max r :
  sanitizeNumber input min max = Ok r ->
  r <> NaN
  /\ (parsed input = Some r \/ min = Some r \/ max = Some r)
  /\ (notFinite r = true -> min = Some r \/ max = Some r).
Proof.
  intros H. apply sanitizeNumber_parsed in H as (x & Hparsed & H).
  unfold Numbers.sanitizeNumber in H. cbn [bind notFinite] in H.
  destruct min as [[lo| | |]|], max as [[hi| | |]|]; cbn [lessThan] in H;
    repeat match type of H with
           | context [if ?b then _ else _] => destruct b
           end;
    injection H as <-; rewrite ?Hparsed;
    (split; [discriminate|]); split; auto; cbn [notFinite]; auto;
    discriminate.
Qed.

End Host.

(** A host that reads the digits of a natural number. *)
Definition digits (s : string) : bool :=
  match NilEmpty.uint_of_string s with
  | Some _ => true
  | None => false
  end.

Definition parseDigits (s : string) : JsNumber :=
  match NilEmpty.uint_of_string s with
  | Some d => Finite (inject_Z (Z.of_nat (Nat.of_uint d)))
  | None => NaN
  end.

Lemma sanitizeNumber_clamps_witness :
  exists q,
    Finite 10 = Finite q
    /\ (q <= 10)%Q
    /\ ((1 <= 10)%Q -> (1 <= q)%Q)
    /\ (forall v, parsed (fun s => s) digits parseDigits (OfString "250")
                  = Some (Finite v) ->
                  (1 <= v)%Q -> (v <= 10)%Q -> Finite 10 = Finite v)
    /\ Numbers.sanitizeNumber (fun s => s) digits parseDigits
         (OfNumber (Finite 10)) (Some (Finite 1)) (Some (Finite 10))
       = Ok (Finite 10).
Proof.
  apply (sanitizeNumber_clamps (fun s => s) digits parseDigits
           (OfString "250") 1 10 (Finite 10)).
  reflexivity.
Defined.

Lemma sanitizeNumber_result_witness :
  PosInfinity <> NaN
  /\ (parsed (fun s => s) digits parseDigits (OfString "250")
      = Some PosInfinity
      \/ Some PosInfinity = Some PosInfinity \/ None = Some PosInfinity)
  /\ (notFinite PosInfinity = true ->
      Some PosInfinity = Some PosInfinity \/ None = Some PosInfinity).
Proof.
  apply (sanitizeNumber_result (fun s => s) digits parseDigits
           (OfString "250") (Some PosInfinity) None PosInfinity).
  reflexivity.
Defined.

(** An infinite lower bound comes back as the result, which
    [sanitizeNumber] itself then refuses as an input. *)
Example sanitizeNumber_infinite_bound :
  Numbers.sanitizeNumber (fun s => s) digits parseDigits
    (OfNumber (Finite 3)) (Some PosInfinity) None = Ok PosInfinity
  /\ Numbers.sanitizeNumber (fun s => s) digits parseDigits
       (OfNumber PosInfinity) (Some PosInfinity) None
     = Throw (Sanitization.validationError
                "Invalid number value (NaN or Infinity).").
Proof. split; reflexivity. Qed.

End NumberFacts.
